(** * vtk-dicom: the directory lister and the sequence item

    A shallow embedding of [Source/vtkDICOMFileDirectory.cxx] and of
    [vtkDICOMSequenceItem.h], with the error codes of
    [Source/vtkDICOMFile.h].

    Conventions.
    - A C++ [int] is a [Z] in [INT_MIN, INT_MAX]; signed overflow is
      undefined behaviour and the model returns [None] there.  An
      [unsigned int] or [unsigned short] is a [Z] and every arithmetic
      result stored in one is reduced modulo 2^32 or 2^16.
    - A function returns [None] exactly where the C++ code has undefined
      behaviour (an access outside an array, the use of a pointer to a
      deleted object, a signed overflow).
    - A failing [new] is not modelled: allocation succeeds. *)

From stdpp Require Import gmap list strings.
From Stdlib Require Import ZArith Lia.

Open Scope Z_scope.

(** ** Machine integers *)

Definition INT_MAX : Z := 2147483647.
Definition UINT_MAX : Z := 4294967295.

Definition to_uint (x : Z) : Z := x mod 2 ^ 32.
Definition to_ushort (x : Z) : Z := x mod 2 ^ 16.

(** ** Error codes: [enum Code] of vtkDICOMFile.h

    vtkDICOMFileDirectory.cxx assigns [Bad], [AccessDenied],
    [FileNotFound] and [DirectoryNotFound] to its [Error]; the spec
    (section 6) gives the file handle and the directory lister this one
    enumeration. *)

Module Code.
Definition Good : Z := 0.
Definition Bad : Z := 1.
Definition AccessDenied : Z := 2.
Definition IsDirectory : Z := 3.
Definition DirectoryNotFound : Z := 4.
Definition FileNotFound : Z := 5.
Definition OutOfSpace : Z := 6.
End Code.

(** ** System constants used by vtkDICOMFileDirectory.cxx

    The values of <errno.h>, <sys/stat.h> and <windows.h>; the code only
    compares against them. *)

Module Sys.
Definition EPERM : Z := 1.
Definition ENOENT : Z := 2.
Definition EACCES : Z := 13.
Definition ENOTDIR : Z := 20.

Definition S_IFMT : Z := 61440.
Definition S_IFDIR : Z := 16384.
Definition S_IFLNK : Z := 40960.
Definition S_ISDIR (st_mode : Z) : bool := Z.land st_mode S_IFMT =? S_IFDIR.
Definition S_ISLNK (st_mode : Z) : bool := Z.land st_mode S_IFMT =? S_IFLNK.

Definition ERROR_FILE_NOT_FOUND : Z := 2.
Definition ERROR_PATH_NOT_FOUND : Z := 3.
Definition ERROR_ACCESS_DENIED : Z := 5.
Definition ERROR_NO_MORE_FILES : Z := 18.
Definition ERROR_DIRECTORY : Z := 267.
Definition FILE_ATTRIBUTE_DIRECTORY : Z := 16.
Definition FILE_ATTRIBUTE_REPARSE_POINT : Z := 1024.
Definition IO_REPARSE_TAG_SYMLINK : Z := 2684354572.
End Sys.

(** ** The directory lister: vtkDICOMFileDirectory.cxx *)

Module FileDirectory.

(** Parameters.  vtkDICOMFileDirectory.h and vtkDICOMFilePath are not
    among the sources: the two type bits of the header's enumeration and
    the path join [vtkDICOMFilePath(dir).PushBack(name).AsString()] are
    taken as given. *)
Class Header := {
  TypeSymlink : Z;
  TypeDirectory : Z;
  PushBack : string → string → string
}.

(** [struct vtkDICOMFileDirectory::Entry]. *)
Module Entry.
Record t := mk { Name : string; Flags : Z; Mask : Z }.
End Entry.

(** A slot of an [Entry] array.  [new Entry[k]] default-constructs each
    element: its [Name] is the empty string and its [Flags] and [Mask]
    are indeterminate.  [None] is such a slot, [Some e] a slot whose
    three fields have been assigned. *)
Abbreviation slot := (option Entry.t).

Definition slot_Name (s : slot) : string :=
  match s with Some e => Entry.Name e | None => EmptyString end.

(** The object.  [Entries] is the pointer to the array ([None] is the
    null pointer); the length of the list is the allocated size.
    [ErrorSets] is a ghost field: the number of assignments made to
    [Error] after the member initialiser [Error(0)]. *)
Record vtkDICOMFileDirectory := mkDir {
  Name : string;
  Error : Z;
  ErrorSets : nat;
  NumberOfFiles : Z;
  Entries : option (list slot)
}.

Definition capacity (d : vtkDICOMFileDirectory) : Z :=
  match Entries d with
  | None => 0
  | Some arr => Z.of_nat (length arr)
  end.

(** [this->Error = c]. *)
Definition set_Error (c : Z) (d : vtkDICOMFileDirectory) : vtkDICOMFileDirectory :=
  mkDir (Name d) c (S (ErrorSets d)) (NumberOfFiles d) (Entries d).

Definition set_Entries (arr : list slot) (d : vtkDICOMFileDirectory) : vtkDICOMFileDirectory :=
  mkDir (Name d) (Error d) (ErrorSets d) (NumberOfFiles d) (Some arr).

(** [new Entry[k]]. *)
Definition new_Entry (k : Z) : list slot := replicate (Z.to_nat k) None.

(** [for (int i = 0; i < n; i++) { entries[i] = this->Entries[i]; }],
    over the indices still to visit. *)
Fixpoint copy_entries (idx : list nat) (src dst : list slot) : option (list slot) :=
  match idx with
  | [] => Some dst
  | i :: rest =>
      e ← src !! i;
      if decide (i < length dst)%nat
      then copy_entries rest src (<[i := e]> dst)
      else None
  end.

(** [vtkDICOMFileDirectory::AddEntry]. *)
Definition AddEntry (name : string) (flags mask : Z) (d : vtkDICOMFileDirectory)
  : option vtkDICOMFileDirectory :=
  let n := NumberOfFiles d in
  arr ← match Entries d with
        | None => Some (new_Entry 4)
        | Some old =>
            if (4 <=? n) && (Z.land (n - 1) n =? 0) then
              if INT_MAX <? n * 2 then None
              else copy_entries (seq 0 (Z.to_nat n)) old (new_Entry (n * 2))
            else Some old
        end;
  if (n <? 0) || (Z.of_nat (length arr) <=? n) then None
  else if INT_MAX <? n + 1 then None
  else Some (mkDir (Name d) (Error d) (ErrorSets d) (n + 1)
               (Some (<[Z.to_nat n := Some (Entry.mk name flags mask)]> arr))).

(** The state of a freshly initialised object:
    [Name(dirname), Error(0), NumberOfFiles(0), Entries(0)]. *)
Definition init (dirname : string) : vtkDICOMFileDirectory :=
  mkDir dirname 0 0 0 None.

(** *** The constructor, POSIX branch *)

(** What [opendir] and the following [readdir] calls deliver: a failure
    with its [errno], or the names in the order [readdir] returns them. *)
Inductive opendir_result :=
| opendir_null (errno : Z)
| opendir_dir (d_names : list string).

(** The [readdir] loop. *)
Fixpoint readdir_loop (d_names : list string) (d : vtkDICOMFileDirectory)
  : option vtkDICOMFileDirectory :=
  match d_names with
  | [] => Some d
  | d_name :: rest =>
      d' ← (if bool_decide (d_name ≠ ".") && bool_decide (d_name ≠ "..")
            then AddEntry d_name 0 0 d
            else Some d);
      readdir_loop rest d'
  end.

Definition errno_Code (e : Z) : Z :=
  if (e =? Sys.EACCES) || (e =? Sys.EPERM) then Code.AccessDenied
  else if e =? Sys.ENOENT then Code.FileNotFound
  else if e =? Sys.ENOTDIR then Code.DirectoryNotFound
  else Code.Bad.

Definition ctor_posix (dirname : string) (r : opendir_result)
  : option vtkDICOMFileDirectory :=
  match r with
  | opendir_null e => Some (set_Error (errno_Code e) (init dirname))
  | opendir_dir d_names => readdir_loop d_names (init dirname)
  end.

(** *** The constructor, Win32 branch *)

(** The fields of [WIN32_FIND_DATAW] the code reads; [cFileName] is the
    name after [ConvertToMultiByte]. *)
Record WIN32_FIND_DATAW := mkFindData {
  dwFileAttributes : Z;
  dwReserved0 : Z;
  cFileName : string
}.

(** What the enumeration calls deliver: [ConvertToWideChar] returning
    null; [FindFirstFileW] failing with a [GetLastError] code; or a first
    record, the records of the successful [FindNextFileW] calls, and the
    [GetLastError] code after the failing one. *)
Inductive find_result :=
| widename_null
| INVALID_HANDLE_VALUE (code : Z)
| find_handle (first : WIN32_FIND_DATAW) (next : list WIN32_FIND_DATAW) (code : Z).

Section Win32.
Context `{Header}.

(** The body of the [do ... while] loop. *)
Definition find_body (fileData : WIN32_FIND_DATAW) (d : vtkDICOMFileDirectory)
  : option vtkDICOMFileDirectory :=
  let flags := 0 in
  let flags :=
    if negb (Z.land (dwFileAttributes fileData) Sys.FILE_ATTRIBUTE_REPARSE_POINT =? 0)
       && (dwReserved0 fileData =? Sys.IO_REPARSE_TAG_SYMLINK)
    then to_uint (Z.lor flags TypeSymlink) else flags in
  let flags :=
    if negb (Z.land (dwFileAttributes fileData) Sys.FILE_ATTRIBUTE_DIRECTORY =? 0)
    then to_uint (Z.lor flags TypeDirectory) else flags in
  AddEntry (cFileName fileData) (to_ushort flags)
    (to_ushort (Z.lor TypeSymlink TypeDirectory)) d.

Fixpoint find_loop (rest : list WIN32_FIND_DATAW) (d : vtkDICOMFileDirectory)
  : option vtkDICOMFileDirectory :=
  match rest with
  | [] => Some d
  | fileData :: rest' => d' ← find_body fileData d; find_loop rest' d'
  end.

(** The chain of tests on [code] after the enumeration. *)
Definition code_Error (code : Z) (d : vtkDICOMFileDirectory) : vtkDICOMFileDirectory :=
  if code =? Sys.ERROR_ACCESS_DENIED then set_Error Code.AccessDenied d
  else if (code =? Sys.ERROR_FILE_NOT_FOUND) || (code =? Sys.ERROR_PATH_NOT_FOUND)
  then set_Error Code.FileNotFound d
  else if code =? Sys.ERROR_DIRECTORY then set_Error Code.DirectoryNotFound d
  else if negb (code =? Sys.ERROR_NO_MORE_FILES) then set_Error Code.Bad d
  else d.

Definition ctor_win32 (dirname : string) (r : find_result)
  : option vtkDICOMFileDirectory :=
  match r with
  | widename_null => Some (set_Error Code.Bad (init dirname))
  | INVALID_HANDLE_VALUE code0 =>
      let code :=
        if code0 =? Sys.ERROR_FILE_NOT_FOUND then Sys.ERROR_NO_MORE_FILES else code0 in
      Some (code_Error code (init dirname))
  | find_handle first next code =>
      d ← find_loop (first :: next) (init dirname);
      Some (code_Error code d)
  end.
End Win32.

(** The platform the file is compiled for, with what its system calls
    deliver to the constructor. *)
Inductive enumeration :=
| posix (r : opendir_result)
| win32 (r : find_result).

Definition is_posix (en : enumeration) : bool :=
  match en with posix _ => true | win32 _ => false end.

Definition ctor `{Header} (dirname : string) (en : enumeration)
  : option vtkDICOMFileDirectory :=
  match en with
  | posix r => ctor_posix dirname r
  | win32 r => ctor_win32 dirname r
  end.

(** *** The accessors *)

(** The file system as the lazy queries see it: [stat] and [lstat] give
    [Some st_mode] when the call returns 0 and [None] when it fails. *)
Record FileSystem := mkFS {
  stat : string → option Z;
  lstat : string → option Z
}.

Inductive query :=
| q_stat (path : string)
| q_lstat (path : string).

(** The object together with the log of the file system queries made so
    far through it. *)
Record state := mkState {
  dir : vtkDICOMFileDirectory;
  queries : list query
}.

(** [this->Entries[i]] for reading [Flags] or [Mask]. *)
Definition entry_at (d : vtkDICOMFileDirectory) (i : Z) : option Entry.t :=
  arr ← Entries d; s ← arr !! Z.to_nat i; s.

(** [this->Entries[i] = e]. *)
Definition store_entry (d : vtkDICOMFileDirectory) (i : Z) (e : Entry.t)
  : option vtkDICOMFileDirectory :=
  arr ← Entries d;
  if decide (Z.to_nat i < length arr)%nat
  then Some (set_Entries (<[Z.to_nat i := Some e]> arr) d)
  else None.

(** [vtkDICOMFileDirectory::GetFile]; the result [None] is the null
    pointer. *)
Definition GetFile (i : Z) (d : vtkDICOMFileDirectory) : option (option string) :=
  if (i <? 0) || (NumberOfFiles d <=? i) then Some None
  else
    arr ← Entries d;
    s ← arr !! Z.to_nat i;
    Some (Some (slot_Name s)).

Section Accessors.
Context `{Header}.

(** [vtkDICOMFileDirectory::IsDirectory].  [posix_build] tells whether
    the block under [#ifndef _WIN32] is compiled in. *)
Definition IsDirectory (posix_build : bool) (fs : FileSystem) (i : Z) (s : state)
  : option (bool * state) :=
  if (i <? 0) || (NumberOfFiles (dir s) <=? i) then Some (false, s)
  else
    s' ← (if posix_build then
            e ← entry_at (dir s) i;
            if Z.land (Entry.Mask e) TypeDirectory =? 0 then
              let path := PushBack (Name (dir s)) (Entry.Name e) in
              let log := queries s ++ [q_stat path] in
              match stat fs path with
              | Some st_mode =>
                  let flags :=
                    if Sys.S_ISDIR st_mode
                    then to_ushort (Z.lor (Entry.Flags e) TypeDirectory)
                    else Entry.Flags e in
                  let mask := to_ushort (Z.lor (Entry.Mask e) TypeDirectory) in
                  d' ← store_entry (dir s) i (Entry.mk (Entry.Name e) flags mask);
                  Some (mkState d' log)
              | None => Some (mkState (dir s) log)
              end
            else Some s
          else Some s);
    e ← entry_at (dir s') i;
    Some (negb (Z.land (Entry.Flags e) TypeDirectory =? 0), s').

(** [vtkDICOMFileDirectory::IsSymlink]. *)
Definition IsSymlink (posix_build : bool) (fs : FileSystem) (i : Z) (s : state)
  : option (bool * state) :=
  if (i <? 0) || (NumberOfFiles (dir s) <=? i) then Some (false, s)
  else
    s' ← (if posix_build then
            e ← entry_at (dir s) i;
            if Z.land (Entry.Mask e) TypeSymlink =? 0 then
              let path := PushBack (Name (dir s)) (Entry.Name e) in
              let log := queries s ++ [q_lstat path] in
              match lstat fs path with
              | Some st_mode =>
                  let flags :=
                    if Sys.S_ISLNK st_mode
                    then to_ushort (Z.lor (Entry.Flags e) TypeSymlink)
                    else Entry.Flags e in
                  let mask := to_ushort (Z.lor (Entry.Mask e) TypeSymlink) in
                  d' ← store_entry (dir s) i (Entry.mk (Entry.Name e) flags mask);
                  Some (mkState d' log)
              | None => Some (mkState (dir s) log)
              end
            else Some s
          else Some s);
    e ← entry_at (dir s') i;
    Some (negb (Z.land (Entry.Flags e) TypeSymlink =? 0), s').

(** A call made on a constructed object, with the file system as it
    is at the time of the call. *)
Inductive call :=
| call_GetFile (i : Z)
| call_IsDirectory (fs : FileSystem) (i : Z)
| call_IsSymlink (fs : FileSystem) (i : Z).

Definition do_call (posix_build : bool) (c : call) (s : state) : option state :=
  match c with
  | call_GetFile i => _ ← GetFile i (dir s); Some s
  | call_IsDirectory fs i => snd <$> IsDirectory posix_build fs i s
  | call_IsSymlink fs i => snd <$> IsSymlink posix_build fs i s
  end.

Fixpoint do_calls (posix_build : bool) (cs : list call) (s : state) : option state :=
  match cs with
  | [] => Some s
  | c :: cs' => s' ← do_call posix_build c s; do_calls posix_build cs' s'
  end.
End Accessors.

(** [AddEntry] called once per element of [es], in order, with its name,
    flags and mask. *)
Fixpoint AddEntries (es : list Entry.t) (d : vtkDICOMFileDirectory)
  : option vtkDICOMFileDirectory :=
  match es with
  | [] => Some d
  | e :: rest =>
      d' ← AddEntry (Entry.Name e) (Entry.Flags e) (Entry.Mask e) d;
      AddEntries rest d'
  end.

End FileDirectory.

(** ** The sequence item: vtkDICOMSequenceItem.h *)

Module SequenceItem.

(** Parameters.  vtkDICOMDataElement.h (the node type with its tag and
    value) is not among the sources: the types of tags and of values are
    taken as given; tags can be compared. *)
Class DataElement := {
  vtkDICOMTag : Type;
  vtkDICOMTag_eq_dec :: EqDecision vtkDICOMTag;
  vtkDICOMValue : Type
}.

(** The address of a [List] on the heap. *)
Definition addr := positive.

Section Memory.
Context `{DataElement}.

(** [struct List].  The chain from [Head.Next] up to, not including,
    [&Tail] is the list [nodes]; the sentinels [Head] and [Tail] are
    the two ends of that list and carry no data. *)
Record List := mkList {
  ReferenceCount : Z;
  NumberOfDataElements : Z;
  nodes : list (vtkDICOMTag * vtkDICOMValue)
}.

(** [List::List()]. *)
Definition List_ctor : List := mkList 1 0 [].

(** A pointer to a [vtkDICOMDataElement]: null, the [k]-th data node of
    the list at [l], or the sentinel [&l->Tail]. *)
Inductive vtkDICOMDataElementIterator :=
| iter_null
| iter_node (l : addr) (k : nat)
| iter_Tail (l : addr).

(** The heap.  [deleted_lists] and [deleted_nodes] are ghost logs of
    the [delete] expressions executed, in order. *)
Record memory := mkMem {
  lists : gmap addr List;
  deleted_lists : list addr;
  deleted_nodes : list (addr * nat)
}.

(** The loop of [List::~List()]: from [Head.Next] on, each node before
    [&Tail] is deleted; [k] is the position of [ptr->Prev]. *)
Fixpoint List_dtor_loop (l : addr) (k : nat) (ptr : list (vtkDICOMTag * vtkDICOMValue))
    (deleted : list (addr * nat)) : list (addr * nat) :=
  match ptr with
  | [] => deleted
  | _ :: next => List_dtor_loop l (S k) next (deleted ++ [(l, k)])
  end.

(** [delete p] for a [List *p]: the destructor, then the release of
    the object. *)
Definition delete_List (l : addr) (m : memory) : option memory :=
  Lst ← lists m !! l;
  Some (mkMem (delete l (lists m)) (deleted_lists m ++ [l])
          (List_dtor_loop l 0 (nodes Lst) (deleted_nodes m))).

Definition set_ReferenceCount (c : Z) (Lst : List) : List :=
  mkList c (NumberOfDataElements Lst) (nodes Lst).

Definition store_List (l : addr) (Lst : List) (m : memory) : memory :=
  mkMem (<[l := Lst]> (lists m)) (deleted_lists m) (deleted_nodes m).

(** [if (p) { p->ReferenceCount++; }]. *)
Definition acquire (p : option addr) (m : memory) : option memory :=
  match p with
  | None => Some m
  | Some l =>
      Lst ← lists m !! l;
      Some (store_List l (set_ReferenceCount (to_uint (ReferenceCount Lst + 1)) Lst) m)
  end.

(** [if (p && --p->ReferenceCount == 0) { delete p; }]. *)
Definition release (p : option addr) (m : memory) : option memory :=
  match p with
  | None => Some m
  | Some l =>
      Lst ← lists m !! l;
      let c := to_uint (ReferenceCount Lst - 1) in
      let m' := store_List l (set_ReferenceCount c Lst) m in
      if c =? 0 then delete_List l m' else Some m'
  end.

(** [class vtkDICOMSequenceItem]: the one field [L]. *)
Record vtkDICOMSequenceItem := mkItem { L : option addr }.

(** [vtkDICOMSequenceItem()]. *)
Definition ctor : vtkDICOMSequenceItem := mkItem None.

(** [vtkDICOMSequenceItem(const vtkDICOMSequenceItem &o)]. *)
Definition copy_ctor (o : vtkDICOMSequenceItem) (m : memory)
  : option (vtkDICOMSequenceItem * memory) :=
  m' ← acquire (L o) m; Some (mkItem (L o), m').

(** [Clear()]. *)
Definition Clear (this : vtkDICOMSequenceItem) (m : memory)
  : option (vtkDICOMSequenceItem * memory) :=
  m' ← release (L this) m; Some (mkItem None, m').

(** [~vtkDICOMSequenceItem()]. *)
Definition dtor (this : vtkDICOMSequenceItem) (m : memory) : option memory :=
  snd <$> Clear this m.

(** [IsEmpty()]. *)
Definition IsEmpty (this : vtkDICOMSequenceItem) : bool :=
  bool_decide (L this = None).

(** [GetNumberOfDataElements()]. *)
Definition GetNumberOfDataElements (this : vtkDICOMSequenceItem) (m : memory)
  : option Z :=
  match L this with
  | Some l => Lst ← lists m !! l; Some (NumberOfDataElements Lst)
  | None => Some 0
  end.

(** [GetData()]: [this->L->Head.Next], or null. *)
Definition GetData (this : vtkDICOMSequenceItem) (m : memory)
  : option vtkDICOMDataElementIterator :=
  match L this with
  | Some l =>
      Lst ← lists m !! l;
      Some (match nodes Lst with [] => iter_Tail l | _ :: _ => iter_node l 0 end)
  | None => Some iter_null
  end.

(** [GetDataEnd()]: [&this->L->Tail], or null. *)
Definition GetDataEnd (this : vtkDICOMSequenceItem) (m : memory)
  : option vtkDICOMDataElementIterator :=
  match L this with
  | Some l => _ ← lists m !! l; Some (iter_Tail l)
  | None => Some iter_null
  end.

(** [operator=]: the new value of [*this] and the heap.  The argument
    [o] is an item of its own: values are opaque here and hold no items,
    so the release of the list of [*this] does not destroy [o]. *)
Definition assign (this o : vtkDICOMSequenceItem) (m : memory)
  : option (vtkDICOMSequenceItem * memory) :=
  if decide (L this ≠ L o) then
    m1 ← acquire (L o) m;
    m2 ← release (L this) m1;
    Some (mkItem (L o), m2)
  else Some (this, m).

(** *** The member functions defined outside the header *)

(** Modelled from the spec: the lookup of [GetAttributeValue], defined
    in vtkDICOMSequenceItem.cxx, which is not among the sources.  The
    value bound to [tag] in a chain. *)
Fixpoint find_tag (tag : vtkDICOMTag) (ns : list (vtkDICOMTag * vtkDICOMValue))
  : option vtkDICOMValue :=
  match ns with
  | [] => None
  | (t, v) :: rest => if decide (t = tag) then Some v else find_tag tag rest
  end.

(** Modelled from the spec: the insertion of [SetAttributeValue],
    defined in vtkDICOMSequenceItem.cxx, which is not among the sources.
    Insert or replace: the value of the node with [tag] is replaced;
    without such a node a new one is linked in before [Tail]. *)
Fixpoint put_tag (tag : vtkDICOMTag) (v : vtkDICOMValue)
    (ns : list (vtkDICOMTag * vtkDICOMValue)) : list (vtkDICOMTag * vtkDICOMValue) :=
  match ns with
  | [] => [(tag, v)]
  | (t, w) :: rest =>
      if decide (t = tag) then (t, v) :: rest else (t, w) :: put_tag tag v rest
  end.

(** Modelled from the spec: [CopyList], declared in the header and
    defined in vtkDICOMSequenceItem.cxx, which is not among the
    sources.  The elements of [o] are copied into [t], in order. *)
Definition CopyList (o t : List) : List :=
  mkList (ReferenceCount t) (NumberOfDataElements o) (nodes o).

(** Modelled from the spec: the allocation in [SetAttributeValue],
    defined in vtkDICOMSequenceItem.cxx, which is not among the sources.
    [new List] at an address that no live or deleted list has. *)
Definition new_List (m : memory) : addr * memory :=
  let l := fresh (dom (lists m) ∪ list_to_set (deleted_lists m) : gset addr) in
  (l, store_List l List_ctor m).

(** Modelled from the spec: the insertion proper of
    [SetAttributeValue], defined in vtkDICOMSequenceItem.cxx, which is
    not among the sources, on the list at [l].  A new node takes the
    [int] counter [NumberOfDataElements] up by one; a replacement
    leaves it. *)
Definition insert_element (tag : vtkDICOMTag) (v : vtkDICOMValue) (l : addr) (m : memory)
  : option memory :=
  Lst ← lists m !! l;
  match find_tag tag (nodes Lst) with
  | Some _ =>
      Some (store_List l
              (mkList (ReferenceCount Lst) (NumberOfDataElements Lst)
                 (put_tag tag v (nodes Lst))) m)
  | None =>
      if INT_MAX <? NumberOfDataElements Lst + 1 then None
      else Some (store_List l
                   (mkList (ReferenceCount Lst) (NumberOfDataElements Lst + 1)
                      (put_tag tag v (nodes Lst))) m)
  end.

(** Modelled from the spec: [SetAttributeValue], defined in
    vtkDICOMSequenceItem.cxx, which is not among the sources.  Without
    a backing list one is allocated with reference count 1; a list
    whose reference count exceeds 1 is first replaced by a private
    clone (the spec's alternative (b)); then the value bound to [tag]
    is inserted or replaced. *)
Definition SetAttributeValue (tag : vtkDICOMTag) (v : vtkDICOMValue)
    (this : vtkDICOMSequenceItem) (m : memory)
  : option (vtkDICOMSequenceItem * memory) :=
  match L this with
  | None =>
      let '(t, m1) := new_List m in
      m2 ← insert_element tag v t m1;
      Some (mkItem (Some t), m2)
  | Some l =>
      Lst ← lists m !! l;
      if 1 <? ReferenceCount Lst then
        let '(t, m1) := new_List m in
        let m2 := store_List t (CopyList Lst List_ctor) m1 in
        m3 ← release (Some l) m2;
        m4 ← insert_element tag v t m3;
        Some (mkItem (Some t), m4)
      else
        m1 ← insert_element tag v l m;
        Some (this, m1)
  end.

(** Modelled from the spec: [GetAttributeValue], defined in
    vtkDICOMSequenceItem.cxx, which is not among the sources.  The tag
    is looked up in the backing list; [Some v] stands for the result
    [true] with [v] copied out, [None] for [false]. *)
Definition GetAttributeValue (tag : vtkDICOMTag) (this : vtkDICOMSequenceItem)
    (m : memory) : option (option vtkDICOMValue) :=
  match L this with
  | None => Some None
  | Some l => Lst ← lists m !! l; Some (find_tag tag (nodes Lst))
  end.

(** *** Programs over named items *)

(** The items of a program, by name, and the heap they share. *)
Record program_state := mkProg {
  items : gmap N vtkDICOMSequenceItem;
  mem : memory
}.

(** One statement: a declaration [vtkDICOMSequenceItem x;], a
    declaration by copy [vtkDICOMSequenceItem x(o);], an assignment
    [x = o;], a call [x.Clear();], and the end of the lifetime of
    [x]. *)
Inductive stmt :=
| s_ctor (x : N)
| s_copy (x o : N)
| s_assign (x o : N)
| s_Clear (x : N)
| s_dtor (x : N).

(** The result of a run: a state; [Fault] where the C++ code has
    undefined behaviour (a deleted list is used or deleted again);
    [Ill_scoped] where a statement names an item that does not exist,
    or declares one that does. *)
Inductive outcome :=
| Done (s : program_state)
| Fault
| Ill_scoped.

Definition of_memory_result {A} (r : option A) (k : A → program_state) : outcome :=
  match r with Some a => Done (k a) | None => Fault end.

Definition exec (st : stmt) (s : program_state) : outcome :=
  match st with
  | s_ctor x =>
      match items s !! x with
      | None => Done (mkProg (<[x := ctor]> (items s)) (mem s))
      | Some _ => Ill_scoped
      end
  | s_copy x o =>
      match items s !! x, items s !! o with
      | None, Some io =>
          of_memory_result (copy_ctor io (mem s))
            (λ r, mkProg (<[x := r.1]> (items s)) r.2)
      | _, _ => Ill_scoped
      end
  | s_assign x o =>
      match items s !! x, items s !! o with
      | Some ix, Some io =>
          of_memory_result (assign ix io (mem s))
            (λ r, mkProg (<[x := r.1]> (items s)) r.2)
      | _, _ => Ill_scoped
      end
  | s_Clear x =>
      match items s !! x with
      | Some ix =>
          of_memory_result (Clear ix (mem s))
            (λ r, mkProg (<[x := r.1]> (items s)) r.2)
      | None => Ill_scoped
      end
  | s_dtor x =>
      match items s !! x with
      | Some ix =>
          of_memory_result (dtor ix (mem s))
            (λ m', mkProg (delete x (items s)) m')
      | None => Ill_scoped
      end
  end.

Fixpoint run (p : list stmt) (s : program_state) : outcome :=
  match p with
  | [] => Done s
  | st :: p' =>
      match exec st s with
      | Done s' => run p' s'
      | r => r
      end
  end.

(** The number of items that reference the list at [l]. *)
Definition references (l : addr) (its : gmap N vtkDICOMSequenceItem) : nat :=
  size (filter (λ kv, L kv.2 = Some l) its).

End Memory.

End SequenceItem.

(** ** Invariants of the directory lister *)

Module FileDirectoryInv.
Import FileDirectory.

(** The largest number of entries [AddEntry] can hold: at this count
    the next doubling [n*2] leaves the range of [int]. *)
Definition max_entries : Z := 1073741824.

Definition is_power_of_two (n : Z) : Prop := ∃ e, 0 ≤ e ∧ n = 2 ^ e.

(** The shape of the entry table, with a property [P] of every entry
    below [NumberOfFiles]. *)
Definition wf_dir (P : Entry.t → Prop) (d : vtkDICOMFileDirectory) : Prop :=
  0 ≤ NumberOfFiles d ≤ max_entries ∧
  match Entries d with
  | None => NumberOfFiles d = 0
  | Some arr =>
      1 ≤ NumberOfFiles d ≤ Z.of_nat (length arr) ∧
      (∃ e, 2 ≤ e ∧ Z.of_nat (length arr) = 2 ^ e) ∧
      (Z.of_nat (length arr) = 4 ∨ Z.of_nat (length arr) < 2 * NumberOfFiles d) ∧
      ∀ i : nat, Z.of_nat i < NumberOfFiles d → ∃ e, arr !! i = Some (Some e) ∧ P e
  end.

(** The table of [d] holds exactly the entries [es], in order. *)
Definition listed (es : list Entry.t) (d : vtkDICOMFileDirectory) : Prop :=
  NumberOfFiles d = Z.of_nat (length es) ∧
  ∀ (i : nat) (e : Entry.t), es !! i = Some e → entry_at d (Z.of_nat i) = Some e.

(** The capacity after an insertion at count [n] into a table of
    capacity [c]. *)
Definition grown (n c : Z) : Z :=
  if decide (n = 0) then 4 else if decide (n = c) then 2 * c else c.

(** Flag bits are among the mask bits. *)
Definition flags_in_mask (e : Entry.t) : Prop :=
  Z.ldiff (Entry.Flags e) (Entry.Mask e) = 0.

Definition is_ushort (x : Z) : Prop := 0 ≤ x < 65536.

(** What holds of every entry of a constructed object: both fields are
    in the range of [unsigned short] and the flags are among the mask
    bits. *)
Definition entry_ok (e : Entry.t) : Prop :=
  is_ushort (Entry.Flags e) ∧ is_ushort (Entry.Mask e) ∧ flags_in_mask e.

(** The entry after a successful query for [bit] that returned
    [st_mode]. *)
Definition resolved (bit : Z) (is_type : Z → bool) (st_mode : Z) (e : Entry.t) : Entry.t :=
  Entry.mk (Entry.Name e)
    (if is_type st_mode then to_ushort (Z.lor (Entry.Flags e) bit) else Entry.Flags e)
    (to_ushort (Z.lor (Entry.Mask e) bit)).

(** The common text of [IsDirectory] and [IsSymlink], over the type bit,
    the system call and the mode test. *)
Definition type_query `{Header} (posix_build : bool) (bit : Z) (ask : string → option Z)
    (q : string → query) (is_type : Z → bool) (i : Z) (s : state)
  : option (bool * state) :=
  if (i <? 0) || (NumberOfFiles (dir s) <=? i) then Some (false, s)
  else
    s' ← (if posix_build then
            e ← entry_at (dir s) i;
            if Z.land (Entry.Mask e) bit =? 0 then
              let path := PushBack (Name (dir s)) (Entry.Name e) in
              let log := queries s ++ [q path] in
              match ask path with
              | Some st_mode =>
                  d' ← store_entry (dir s) i (resolved bit is_type st_mode e);
                  Some (mkState d' log)
              | None => Some (mkState (dir s) log)
              end
            else Some s
          else Some s);
    e ← entry_at (dir s') i;
    Some (negb (Z.land (Entry.Flags e) bit =? 0), s').

(** The flags [find_body] computes, by the outcome [a] of the test for
    a symbolic link and [b] of the test for a directory. *)
Definition find_flags `{Header} (a b : bool) : Z :=
  let flags := 0 in
  let flags := if a then to_uint (Z.lor flags TypeSymlink) else flags in
  if b then to_uint (Z.lor flags TypeDirectory) else flags.

(** The mask [find_body] passes: both bits. *)
Definition full_mask `{Header} : Z := to_ushort (Z.lor TypeSymlink TypeDirectory).

(** Two sample file systems: one in which every path is a directory
    that is not a symbolic link, and one in which every query fails, as
    [stat] does on a dangling symbolic link. *)
Definition directories_fs : FileSystem :=
  mkFS (λ _, Some Sys.S_IFDIR) (λ _, Some Sys.S_IFDIR).
Definition failing_fs : FileSystem := mkFS (λ _, None) (λ _, None).

(** The names the POSIX branch skips. *)
Definition not_dot (e : Entry.t) : Prop :=
  Entry.Name e ≠ "." ∧ Entry.Name e ≠ "..".

(** A sample header: two distinct bits and a join with a slash. *)
Definition sample_Header : Header :=
  {| TypeSymlink := 1; TypeDirectory := 2;
     PushBack := λ dir name, String.append dir (String.append "/" name) |}.
End FileDirectoryInv.

(** ** Invariants of programs over sequence items *)

Module SequenceItemInv.
Import SequenceItem.

Section Invariants.
Context `{DataElement}.

(** 1 when the pointer [p] is the address [l], 0 otherwise. *)
Definition points (p : option addr) (l : addr) : Z :=
  if decide (p = Some l) then 1 else 0.

(** Every live list has the reference count [f] gives it, and that
    count is at least 1 and in the range of [unsigned int]. *)
Definition counted (f : addr → Z) (m : memory) : Prop :=
  ∀ l Lst, lists m !! l = Some Lst →
    ReferenceCount Lst = f l ∧ 1 ≤ f l ≤ UINT_MAX.

(** The ghost logs are consistent with the heap: nothing is logged
    twice, a deleted list is not live, and a deleted node belongs to a
    deleted list. *)
Definition logs_ok (m : memory) : Prop :=
  NoDup (deleted_lists m) ∧
  (∀ l, l ∈ deleted_lists m → lists m !! l = None) ∧
  NoDup (deleted_nodes m) ∧
  (∀ l k, (l, k) ∈ deleted_nodes m → l ∈ deleted_lists m).

(** A well-formed program state: each live list is counted by the
    number of items that reference it, and no item references a list
    that is not live. *)
Definition wf_state (s : program_state) : Prop :=
  counted (λ l, Z.of_nat (references l (items s))) (mem s) ∧
  (∀ x it l, items s !! x = Some it → L it = Some l → is_Some (lists (mem s) !! l)) ∧
  logs_ok (mem s).

(** From the heap [m] to the heap [m']: a list of [m] is live in [m']
    with the same nodes, or it is deleted, is in the log of deleted
    lists and has each of its nodes in the log of deleted nodes; no
    list appears; the logs only grow. *)
Definition evolves (m m' : memory) : Prop :=
  (∀ l Lst, lists m !! l = Some Lst →
     (∃ Lst', lists m' !! l = Some Lst' ∧ nodes Lst' = nodes Lst ∧
              l ∉ deleted_lists m') ∨
     (lists m' !! l = None ∧ l ∈ deleted_lists m' ∧
      ∀ k : nat, (k < length (nodes Lst))%nat → (l, k) ∈ deleted_nodes m')) ∧
  (∀ l, lists m !! l = None → lists m' !! l = None) ∧
  (∀ l, l ∈ deleted_lists m → l ∈ deleted_lists m') ∧
  (∀ n, n ∈ deleted_nodes m → n ∈ deleted_nodes m').

(** At every point of the run of [p] from [s0], no list is referenced
    by more items than an [unsigned int] can count. *)
Definition within_count_range (p : list stmt) (s0 : program_state) : Prop :=
  ∀ (k : nat) (s : program_state) (l : addr),
    run (take k p) s0 = Done s → Z.of_nat (references l (items s)) ≤ UINT_MAX.

(** An acquisition of [p_new] followed by a release of [p_old]: what
    each of the copy constructor, [Clear] and [operator=] does to the
    heap. *)
Definition transfer (p_old p_new : option addr) (m : memory) : option memory :=
  m1 ← acquire p_new m; release p_old m1.

(** The heap part of a statement that moves one item from the pointer
    [p_old] to the pointer [p_new], turning the items [its] into
    [its']. *)
Definition moves (its its' : gmap N vtkDICOMSequenceItem)
    (p_old p_new : option addr) : Prop :=
  (∀ l, Z.of_nat (references l its')
        = Z.of_nat (references l its) + points p_new l - points p_old l) ∧
  (∀ x it l, its' !! x = Some it → L it = Some l →
             ∃ x0 it0, its !! x0 = Some it0 ∧ L it0 = Some l) ∧
  (∀ l, p_new = Some l → ∃ x0 it0, its !! x0 = Some it0 ∧ L it0 = Some l) ∧
  (∀ l, p_old = Some l → ∃ x0 it0, its !! x0 = Some it0 ∧ L it0 = Some l) ∧
  (∀ l, ¬ (p_old = Some l ∧ p_new = Some l)) ∧
  (size its' ≤ S (size its))%nat.

(** The program of [n] declarations by copy of the item 0, under the
    names 1 to [n]. *)
Definition copies (n : N) : list stmt :=
  N.peano_rect (λ _, list stmt) [] (λ k p, p ++ [s_copy (N.succ k) 0%N]) n.

(** One item, named 0, that alone references an empty list at the
    address 1. *)
Definition one_item : program_state :=
  mkProg {[ 0%N := mkItem (Some 1%positive) ]}
    (mkMem {[ 1%positive := List_ctor ]} [] []).
End Invariants.

(** A sample element type: integer tags and string values. *)
Definition sample_DataElement : DataElement :=
  {| vtkDICOMTag := Z; vtkDICOMValue := string |}.
End SequenceItemInv.

(** ** What the constructor lists *)

Module FileDirectoryListing.
Import FileDirectory FileDirectoryInv.

(** The names the [readdir] loop passes to [AddEntry]: all but "." and
    "..", in the order of arrival. *)
Definition kept (d_names : list string) : list string :=
  filter (λ d_name, d_name ≠ "." ∧ d_name ≠ "..") d_names.

(** The entry the [readdir] loop makes of a name. *)
Definition posix_entry (name : string) : Entry.t := Entry.mk name 0 0.

(** The two tests of the [do ... while] loop on a record. *)
Definition is_symlink_record (fileData : WIN32_FIND_DATAW) : bool :=
  negb (Z.land (dwFileAttributes fileData) Sys.FILE_ATTRIBUTE_REPARSE_POINT =? 0)
  && (dwReserved0 fileData =? Sys.IO_REPARSE_TAG_SYMLINK).

Definition is_directory_record (fileData : WIN32_FIND_DATAW) : bool :=
  negb (Z.land (dwFileAttributes fileData) Sys.FILE_ATTRIBUTE_DIRECTORY =? 0).

(** The entry the [do ... while] loop makes of a record. *)
Definition win32_entry `{Header} (fileData : WIN32_FIND_DATAW) : Entry.t :=
  Entry.mk (cFileName fileData)
    (to_ushort (find_flags (is_symlink_record fileData) (is_directory_record fileData)))
    full_mask.

(** The two type bits are nonzero, fit an [unsigned short] and share no
    bit. *)
Definition distinct_type_bits `{Header} : Prop :=
  0 < TypeSymlink < 65536 ∧ 0 < TypeDirectory < 65536 ∧
  Z.land TypeSymlink TypeDirectory = 0.

(** A file system in which every path is a symbolic link. *)
Definition symlinks_fs : FileSystem :=
  mkFS (λ _, Some Sys.S_IFLNK) (λ _, Some Sys.S_IFLNK).

(** How the accessors may have changed an entry: the name stays, and a
    type bit that was resolved stays resolved with the same flag. *)
Definition later_entry `{Header} (e e' : Entry.t) : Prop :=
  Entry.Name e' = Entry.Name e ∧
  ∀ bit, bit = TypeDirectory ∨ bit = TypeSymlink →
         Z.land (Entry.Mask e) bit ≠ 0 →
         Z.land (Entry.Mask e') bit ≠ 0 ∧
         Z.land (Entry.Flags e') bit = Z.land (Entry.Flags e) bit.

Definition same_name (e e' : Entry.t) : Prop := Entry.Name e' = Entry.Name e.

(** How the accessors may have changed an object, by what they may have
    done to an entry. *)
Definition later (R : Entry.t → Entry.t → Prop) (d d' : vtkDICOMFileDirectory) : Prop :=
  Name d' = Name d ∧ Error d' = Error d ∧ NumberOfFiles d' = NumberOfFiles d ∧
  ∀ j e, 0 ≤ j < NumberOfFiles d → entry_at d j = Some e →
         ∃ e', entry_at d' j = Some e' ∧ R e e'.

(** Two file systems that answer every query alike. *)
Definition agrees (fs fs' : FileSystem) : Prop :=
  ∀ path, stat fs' path = stat fs path ∧ lstat fs' path = lstat fs path.

(** A call made against the file system [fs]. *)
Definition call_on `{Header} (fs : FileSystem) (c : call) : Prop :=
  match c with
  | call_GetFile _ => True
  | call_IsDirectory fs' _ => agrees fs fs'
  | call_IsSymlink fs' _ => agrees fs fs'
  end.

(** What a type test makes of the result [r] of a query: the test of
    the mode if the query succeeded, false if it failed. *)
Definition answer (is_type : Z → bool) (r : option Z) : bool :=
  match r with Some st_mode => is_type st_mode | None => false end.

(** A resolved type bit of an entry tells what the query, with the
    result [r], tells. *)
Definition faithful_bit (bit : Z) (is_type : Z → bool) (r : option Z) (e : Entry.t)
  : Prop :=
  Z.land (Entry.Mask e) bit ≠ 0 →
  negb (Z.land (Entry.Flags e) bit =? 0) = answer is_type r.

(** An entry of the directory [dirname] whose resolved bits tell what
    [stat] and [lstat] tell in the file system [fs]. *)
Definition faithful `{Header} (fs : FileSystem) (dirname : string) (e : Entry.t) : Prop :=
  entry_ok e ∧
  faithful_bit TypeDirectory Sys.S_ISDIR (stat fs (PushBack dirname (Entry.Name e))) e ∧
  faithful_bit TypeSymlink Sys.S_ISLNK (lstat fs (PushBack dirname (Entry.Name e))) e.

(** A query for the type of a listed file: a [stat] or an [lstat] of
    the directory name joined with the name of an entry. *)
Definition listed_query `{Header} (d : vtkDICOMFileDirectory) (qu : query) : Prop :=
  ∃ (j : nat) (name : string),
    GetFile (Z.of_nat j) d = Some (Some name) ∧
    (qu = q_stat (PushBack (Name d) name) ∨ qu = q_lstat (PushBack (Name d) name)).

(** The calls of a sequence that may query the file system. *)
Definition is_type_call `{Header} (c : call) : bool :=
  match c with call_GetFile _ => false | _ => true end.

Definition type_calls `{Header} (cs : list call) : list call :=
  filter (λ c, is_type_call c = true) cs.

(** A file system in which every query succeeds. *)
Definition answering (fs : FileSystem) : Prop :=
  ∀ path, is_Some (stat fs path) ∧ is_Some (lstat fs path).

Definition call_answered `{Header} (c : call) : Prop :=
  match c with
  | call_GetFile _ => True
  | call_IsDirectory fs _ => answering fs
  | call_IsSymlink fs _ => answering fs
  end.

(** The number of type bits of an entry that are not resolved, and
    their number over the entries of an object. *)
Definition open_bits `{Header} (e : Entry.t) : nat :=
  Nat.add (if Z.land (Entry.Mask e) TypeDirectory =? 0 then 1%nat else 0%nat)
          (if Z.land (Entry.Mask e) TypeSymlink =? 0 then 1%nat else 0%nat).

Definition pending `{Header} (d : vtkDICOMFileDirectory) : nat :=
  sum_list_with (λ j : nat, from_option open_bits 0%nat (entry_at d (Z.of_nat j)))
    (seq 0 (Z.to_nat (NumberOfFiles d))).
End FileDirectoryListing.

(** ** What an item shows *)

Module SequenceItemViews.
Import SequenceItem.

Section Views.
Context `{DataElement}.

(** The part of a list the accessors of the header read. *)
Definition payload (Lst : List) : Z * list (vtkDICOMTag * vtkDICOMValue) :=
  (NumberOfDataElements Lst, nodes Lst).

(** The results of [GetNumberOfDataElements()], [GetData()] and
    [GetDataEnd()] on an item. *)
Definition observe (this : vtkDICOMSequenceItem) (m : memory)
  : option Z * option vtkDICOMDataElementIterator * option vtkDICOMDataElementIterator :=
  (GetNumberOfDataElements this m, GetData this m, GetDataEnd this m).

(** The list of an item, if it has one, is live and has a reference
    count of at least 1 in the range of [unsigned int]. *)
Definition on_live_list (this : vtkDICOMSequenceItem) (m : memory) : Prop :=
  ∀ l, L this = Some l →
       ∃ Lst, lists m !! l = Some Lst ∧ 1 ≤ ReferenceCount Lst ≤ UINT_MAX.
End Views.
End SequenceItemViews.

(** * Properties *)

(** ** Bit arithmetic *)

Lemma land_pred_pow2 (e : Z) : 0 ≤ e → Z.land (2 ^ e - 1) (2 ^ e) = 0.
Proof.
  intros He. apply Z.bits_inj'. intros i Hi.
  rewrite Z.land_spec, Z.bits_0, Z.pow2_bits_eqb by lia.
  replace (2 ^ e - 1) with (Z.ones e) by (rewrite Z.ones_equiv; lia).
  destruct (Z.eqb_spec e i) as [->|Hne]; [|apply andb_false_r].
  rewrite Z.ones_spec_high by lia. reflexivity.
Qed.

Lemma land_pred_zero_pow2 (n : Z) :
  0 < n → Z.land (n - 1) n = 0 → ∃ e, 0 ≤ e ∧ n = 2 ^ e.
Proof.
  intros Hn Hland. exists (Z.log2 n).
  pose proof (Z.log2_nonneg n) as He.
  destruct (Z.log2_spec n Hn) as [Hlo Hhi].
  split; [exact He|].
  destruct (Z.eq_dec n (2 ^ Z.log2 n)) as [|Hne]; [assumption|exfalso].
  assert (Hlog : Z.log2 (n - 1) = Z.log2 n).
  { apply Z.log2_unique; [exact He|]. rewrite <- Z.add_1_r in *. lia. }
  assert (Hbit : Z.testbit (Z.land (n - 1) n) (Z.log2 n) = true).
  { rewrite Z.land_spec, (Z.bit_log2 n Hn), andb_true_r.
    rewrite <- Hlog. apply Z.bit_log2. lia. }
  rewrite Hland, Z.bits_0 in Hbit. discriminate.
Qed.

Lemma to_ushort_testbit (x i : Z) :
  Z.testbit (to_ushort x) i = (i <? 16) && Z.testbit x i.
Proof. unfold to_ushort. apply Z.testbit_mod_pow2. lia. Qed.

Lemma to_uint_testbit (x i : Z) :
  Z.testbit (to_uint x) i = (i <? 32) && Z.testbit x i.
Proof. unfold to_uint. apply Z.testbit_mod_pow2. lia. Qed.

Lemma to_ushort_id (x : Z) : 0 ≤ x < 65536 → to_ushort x = x.
Proof. intros Hx. unfold to_ushort. apply Z.mod_small. lia. Qed.

Lemma to_uint_id (x : Z) : 0 ≤ x ≤ UINT_MAX → to_uint x = x.
Proof. intros Hx. unfold to_uint, UINT_MAX in *. apply Z.mod_small. lia. Qed.

(** ** The entry table *)

Module FileDirectoryFacts.
Import FileDirectory FileDirectoryInv.

Lemma copy_entries_spec (k a : nat) (src dst : list slot) :
  (a + k ≤ length src)%nat → (a + k ≤ length dst)%nat →
  ∃ dst', copy_entries (seq a k) src dst = Some dst' ∧
          length dst' = length dst ∧
          (∀ j, (a ≤ j < a + k)%nat → dst' !! j = src !! j) ∧
          (∀ j, ¬ (a ≤ j < a + k)%nat → dst' !! j = dst !! j).
Proof.
  revert a dst. induction k as [|k IH]; intros a dst Hsrc Hdst; simpl.
  - exists dst. split; [reflexivity|]. split; [reflexivity|].
    split; [intros j Hj; lia | reflexivity].
  - destruct (lookup_lt_is_Some_2 src a ltac:(lia)) as [e He].
    rewrite He. simpl. destruct (decide (a < length dst)%nat) as [Ha|]; [|lia].
    destruct (IH (S a) (<[a := e]> dst)) as (dst' & Hrun & Hlen & Hin & Hout).
    { lia. } { rewrite length_insert. lia. }
    exists dst'. rewrite length_insert in Hlen.
    split; [exact Hrun|]. split; [exact Hlen|]. split.
    + intros j Hj. destruct (decide (j = a)) as [->|Hne].
      * rewrite Hout by lia. rewrite list_lookup_insert_eq by lia. symmetry. exact He.
      * apply Hin. lia.
    + intros j Hj. rewrite Hout by lia. apply list_lookup_insert_ne. lia.
Qed.

Lemma wf_dir_init (P : Entry.t → Prop) (dirname : string) : wf_dir P (init dirname).
Proof. unfold wf_dir, max_entries; simpl. lia. Qed.

Lemma pow2_between (e k : Z) :
  0 ≤ k → 0 ≤ e → 2 ^ k ≤ 2 ^ e → 2 ^ e < 2 * 2 ^ k → 2 ^ k = 2 ^ e.
Proof.
  intros Hk He Hle Hlt.
  assert (e < k + 1).
  { apply (Z.pow_lt_mono_r_iff 2); [lia|lia|]. rewrite Z.pow_add_r by lia. lia. }
  assert (2 ^ e ≤ 2 ^ k) by (apply Z.pow_le_mono_r; lia).
  lia.
Qed.

(** The test of [AddEntry] is true exactly when the count equals the
    capacity. *)
Lemma grow_test (n len : Z) :
  1 ≤ n ≤ len → (∃ e, 2 ≤ e ∧ len = 2 ^ e) → (len = 4 ∨ len < 2 * n) →
  (4 <=? n) && (Z.land (n - 1) n =? 0) = bool_decide (n = len).
Proof.
  intros Hn (e & He & Hlen) Hhalf.
  assert (4 ≤ len).
  { rewrite Hlen. change 4 with (2 ^ 2). apply Z.pow_le_mono_r; lia. }
  destruct (decide (n = len)) as [Heq|Hne].
  - rewrite bool_decide_eq_true_2 by assumption.
    rewrite Heq, Hlen, land_pred_pow2 by lia. rewrite <- Hlen.
    apply andb_true_iff. split; [apply Z.leb_le; lia | reflexivity].
  - rewrite bool_decide_eq_false_2 by assumption.
    apply andb_false_iff.
    destruct (Z.leb_spec 4 n) as [H4|]; [right|left; reflexivity].
    apply Z.eqb_neq. intros Hland.
    destruct (land_pred_zero_pow2 n ltac:(lia) Hland) as (k & Hk & Hnk).
    destruct Hhalf as [|Hhalf]; [lia|].
    apply Hne. rewrite Hlen, Hnk. apply pow2_between; lia.
Qed.

(** One insertion into a well-formed table that is not full. *)
Lemma AddEntry_spec (P : Entry.t → Prop) (name : string) (flags mask : Z)
    (d : vtkDICOMFileDirectory) :
  wf_dir P d → NumberOfFiles d < max_entries → P (Entry.mk name flags mask) →
  ∃ d', AddEntry name flags mask d = Some d' ∧ wf_dir P d' ∧
        NumberOfFiles d' = NumberOfFiles d + 1 ∧
        Name d' = Name d ∧ Error d' = Error d ∧ ErrorSets d' = ErrorSets d ∧
        entry_at d' (NumberOfFiles d) = Some (Entry.mk name flags mask) ∧
        (∀ i, 0 ≤ i < NumberOfFiles d → entry_at d' i = entry_at d i) ∧
        capacity d' = grown (NumberOfFiles d) (capacity d).
Proof.
  intros [Hn Hd] Hlt HP. unfold AddEntry, capacity, grown, max_entries in *.
  destruct (Entries d) as [old|] eqn:Hold.
  - destruct Hd as (Hcnt & Hpow & Hhalf & Hent).
    rewrite (grow_test _ _ Hcnt Hpow Hhalf).
    destruct (decide (NumberOfFiles d = 0)) as [|_]; [lia|].
    destruct (decide (NumberOfFiles d = Z.of_nat (length old))) as [Hfull|Hroom].
    + rewrite bool_decide_eq_true_2 by assumption.
      destruct (Z.ltb_spec INT_MAX (NumberOfFiles d * 2)) as [Hov|_];
        [unfold INT_MAX in Hov; lia|].
      destruct (copy_entries_spec (Z.to_nat (NumberOfFiles d)) 0 old
                  (new_Entry (NumberOfFiles d * 2)))
        as (arr & Hcopy & Hlen & Hin & Hout).
      { lia. } { unfold new_Entry. rewrite length_replicate. lia. }
      rewrite Hcopy. simpl.
      unfold new_Entry in Hlen. rewrite length_replicate in Hlen.
      destruct (Z.ltb_spec (NumberOfFiles d) 0) as [|_]; [lia|].
      destruct (Z.leb_spec (Z.of_nat (length arr)) (NumberOfFiles d)) as [|_]; [lia|].
      destruct (Z.ltb_spec INT_MAX (NumberOfFiles d + 1)) as [Hov|_];
        [unfold INT_MAX in Hov; lia|].
      simpl. eexists. split; [reflexivity|].
      split; [|split; [reflexivity|split; [reflexivity|split; [reflexivity|
               split; [reflexivity|split; [|split]]]]]].
      * unfold wf_dir, max_entries; split; simpl; [lia|]. rewrite length_insert.
        split; [lia|]. split.
        { destruct Hpow as (e & He & Hpow). exists (e + 1). split; [lia|].
          rewrite Z.pow_add_r by lia. lia. }
        split; [lia|].
        intros i Hi. destruct (decide (i = Z.to_nat (NumberOfFiles d))) as [->|Hne].
        -- eexists. rewrite list_lookup_insert_eq by lia. eauto.
        -- rewrite list_lookup_insert_ne by lia. rewrite Hin by lia.
           apply Hent. lia.
      * unfold entry_at; simpl. rewrite list_lookup_insert_eq by lia. reflexivity.
      * intros i Hi. unfold entry_at; simpl. rewrite Hold; simpl.
        rewrite list_lookup_insert_ne by lia. rewrite Hin by lia. reflexivity.
      * simpl. rewrite length_insert. lia.
    + rewrite bool_decide_eq_false_2 by assumption. simpl.
      destruct (Z.ltb_spec (NumberOfFiles d) 0) as [|_]; [lia|].
      destruct (Z.leb_spec (Z.of_nat (length old)) (NumberOfFiles d)) as [|_]; [lia|].
      destruct (Z.ltb_spec INT_MAX (NumberOfFiles d + 1)) as [Hov|_];
        [unfold INT_MAX in Hov; lia|].
      simpl. eexists. split; [reflexivity|].
      split; [|split; [reflexivity|split; [reflexivity|split; [reflexivity|
               split; [reflexivity|split; [|split]]]]]].
      * unfold wf_dir, max_entries; split; simpl; [lia|]. rewrite length_insert.
        split; [lia|]. split; [exact Hpow|]. split; [lia|].
        intros i Hi. destruct (decide (i = Z.to_nat (NumberOfFiles d))) as [->|Hne].
        -- eexists. rewrite list_lookup_insert_eq by lia. eauto.
        -- rewrite list_lookup_insert_ne by lia. apply Hent. lia.
      * unfold entry_at; simpl. rewrite list_lookup_insert_eq by lia. reflexivity.
      * intros i Hi. unfold entry_at; simpl. rewrite Hold; simpl.
        rewrite list_lookup_insert_ne by lia. reflexivity.
      * simpl. rewrite length_insert. reflexivity.
  - rewrite Hd. simpl. eexists. split; [reflexivity|].
    split; [|split; [reflexivity|split; [reflexivity|split; [reflexivity|
             split; [reflexivity|split; [|split]]]]]].
    + unfold wf_dir, max_entries; split; simpl; [lia|]. split; [lia|].
      split; [exists 2; simpl; lia|].
      split; [left; reflexivity|].
      intros i Hi. assert (i = 0%nat) as -> by lia. eexists. simpl. eauto.
    + reflexivity.
    + intros i Hi. lia.
    + reflexivity.
Qed.

Lemma AddEntry_Some_lt (P : Entry.t → Prop) (name : string) (flags mask : Z)
    (d d' : vtkDICOMFileDirectory) :
  wf_dir P d → AddEntry name flags mask d = Some d' → NumberOfFiles d < max_entries.
Proof.
  intros [Hn Hd] Hadd.
  destruct (Z.eq_dec (NumberOfFiles d) max_entries) as [Hmax|]; [exfalso|lia].
  unfold AddEntry in Hadd. destruct (Entries d) as [old|]; [|unfold max_entries in *; lia].
  destruct ((4 <=? NumberOfFiles d) && (Z.land (NumberOfFiles d - 1) (NumberOfFiles d) =? 0))
    eqn:Htest.
  - destruct (Z.ltb_spec INT_MAX (NumberOfFiles d * 2)) as [_|Hfit]; [discriminate|].
    unfold INT_MAX, max_entries in *. lia.
  - rewrite Hmax in Htest. vm_compute in Htest. discriminate.
Qed.

Lemma AddEntries_app (xs ys : list Entry.t) (d : vtkDICOMFileDirectory) :
  AddEntries (xs ++ ys) d = AddEntries xs d ≫= AddEntries ys.
Proof.
  revert d. induction xs as [|x xs IH]; intros d; simpl; [reflexivity|].
  destruct (AddEntry _ _ _ d) as [d1|]; simpl; [apply IH|reflexivity].
Qed.

Lemma listed_init (dirname : string) : listed [] (init dirname).
Proof. split; [reflexivity|]. intros i e Hi. discriminate. Qed.

Lemma AddEntries_spec (rest done : list Entry.t) (d : vtkDICOMFileDirectory) :
  wf_dir (λ _, True) d → listed done d →
  Z.of_nat (length (done ++ rest)) ≤ max_entries →
  ∃ d', AddEntries rest d = Some d' ∧ wf_dir (λ _, True) d' ∧ listed (done ++ rest) d'.
Proof.
  revert done d. induction rest as [|x rest IH]; intros done d Hwf Hl Hlen; simpl.
  - exists d. rewrite app_nil_r. auto.
  - destruct Hl as [Hcount Hnames]. rewrite length_app in Hlen. simpl in Hlen.
    destruct (AddEntry_spec (λ _, True) (Entry.Name x) (Entry.Flags x) (Entry.Mask x)
                d Hwf ltac:(lia) I)
      as (d1 & Hadd & Hwf1 & Hn1 & _ & _ & _ & Hnew & Hold & _).
    rewrite Hadd. simpl.
    destruct (IH (done ++ [x]) d1 Hwf1) as (d' & Hrun & Hwf' & Hl').
    + split; [rewrite length_app; simpl; lia|].
      intros i e Hi. destruct (decide (i < length done)%nat) as [Hlt|Hge].
      * rewrite lookup_app_l in Hi by assumption.
        rewrite Hold by lia. apply Hnames. exact Hi.
      * rewrite lookup_app_r in Hi by lia.
        destruct (i - length done)%nat as [|j] eqn:Hj; [|destruct j; discriminate].
        simpl in Hi. injection Hi as <-.
        replace (Z.of_nat i) with (NumberOfFiles d) by lia.
        rewrite Hnew. destruct x; reflexivity.
    + rewrite !length_app. simpl. lia.
    + exists d'. rewrite <- app_assoc in Hl'. auto.
Qed.

Lemma GetFile_entry (d : vtkDICOMFileDirectory) (i : Z) (e : Entry.t) :
  0 ≤ i < NumberOfFiles d → entry_at d i = Some e →
  GetFile i d = Some (Some (Entry.Name e)).
Proof.
  intros Hi He. unfold GetFile, entry_at in *.
  destruct (Z.ltb_spec i 0) as [|_]; [lia|].
  destruct (Z.leb_spec (NumberOfFiles d) i) as [|_]; [lia|]. simpl.
  destruct (Entries d) as [arr|]; [|discriminate]. simpl in *.
  destruct (arr !! Z.to_nat i) as [[e'|]|]; simpl in *; try discriminate.
  injection He as ->. reflexivity.
Qed.

Lemma wf_dir_capacity (P : Entry.t → Prop) (d : vtkDICOMFileDirectory) :
  wf_dir P d →
  NumberOfFiles d ≤ capacity d ∧
  (NumberOfFiles d ≠ 0 → NumberOfFiles d = capacity d → is_power_of_two (NumberOfFiles d)).
Proof.
  intros [Hn Hd]. unfold capacity. destruct (Entries d) as [arr|].
  - destruct Hd as (Hcnt & (e & He & Hpow) & _). split; [lia|].
    intros _ Heq. exists e. split; [lia|congruence].
  - split; [lia|]. intros Hne. contradiction.
Qed.

(** C4, as amended: for every N with 1 <= N <= 2^30, N calls of
    [AddEntry] on a fresh object, with any names, flags and masks,
    succeed; the table then holds exactly N entries, [GetFile(i)] is the
    (i+1)-th inserted name for every i in [0, N), the count never exceeds
    the capacity, and along the way the capacity is 4 after the first
    insertion and is doubled by an insertion exactly when the count
    before it is a power of two equal to the capacity, staying the same
    otherwise. *)
Theorem AddEntry_growth (dirname : string) (es : list Entry.t) :
  1 ≤ Z.of_nat (length es) ≤ max_entries →
  ∃ d, AddEntries es (init dirname) = Some d ∧
       NumberOfFiles d = Z.of_nat (length es) ∧
       (∀ i : nat, (i < length es)%nat →
                   GetFile (Z.of_nat i) d = Some (Entry.Name <$> es !! i)) ∧
       NumberOfFiles d ≤ capacity d ∧
       ∀ k : nat, (k < length es)%nat →
         ∃ dk dk',
           AddEntries (take k es) (init dirname) = Some dk ∧
           AddEntries (take (S k) es) (init dirname) = Some dk' ∧
           NumberOfFiles dk = Z.of_nat k ∧
           NumberOfFiles dk ≤ capacity dk ∧
           NumberOfFiles dk' ≤ capacity dk' ∧
           (k = 0%nat → capacity dk' = 4) ∧
           (k ≠ 0%nat →
            (is_power_of_two (Z.of_nat k) ∧ Z.of_nat k = capacity dk →
             capacity dk' = 2 * capacity dk) ∧
            (¬ (is_power_of_two (Z.of_nat k) ∧ Z.of_nat k = capacity dk) →
             capacity dk' = capacity dk)).
Proof.
  intros Hlen.
  destruct (AddEntries_spec es [] (init dirname) (wf_dir_init _ _) (listed_init _))
    as (d & Hrun & Hwf & [Hcount Hnames]); [simpl; lia|].
  simpl in Hcount, Hnames. exists d.
  split; [exact Hrun|]. split; [exact Hcount|]. split; [|split].
  - intros i Hi. destruct (lookup_lt_is_Some_2 es i Hi) as [e He].
    rewrite He, (GetFile_entry d (Z.of_nat i) _ ltac:(lia) (Hnames i e He)).
    reflexivity.
  - apply (wf_dir_capacity _ _ Hwf).
  - intros k Hk.
    destruct (lookup_lt_is_Some_2 es k Hk) as [x Hx].
    destruct (AddEntries_spec (take k es) [] (init dirname)
                (wf_dir_init _ _) (listed_init _))
      as (dk & Hrunk & Hwfk & [Hcountk _]).
    { simpl. rewrite length_take. lia. }
    simpl in Hcountk. rewrite length_take in Hcountk.
    assert (Hnk : NumberOfFiles dk = Z.of_nat k) by lia.
    destruct (AddEntry_spec (λ _, True) (Entry.Name x) (Entry.Flags x) (Entry.Mask x)
                dk Hwfk ltac:(lia) I)
      as (dk' & Hadd & Hwfk' & _ & _ & _ & _ & _ & _ & Hcap).
    exists dk, dk'. split; [exact Hrunk|]. split.
    { rewrite (take_S_r _ _ _ Hx), AddEntries_app, Hrunk. simpl.
      rewrite Hadd. reflexivity. }
    split; [exact Hnk|].
    destruct (wf_dir_capacity _ _ Hwfk) as [Hle Hpow].
    destruct (wf_dir_capacity _ _ Hwfk') as [Hle' _].
    split; [exact Hle|]. split; [exact Hle'|].
    unfold grown in Hcap. rewrite Hnk in *.
    split.
    + intros ->. exact Hcap.
    + intros Hk0. destruct (decide (Z.of_nat k = 0)) as [|_]; [lia|].
      destruct (decide (Z.of_nat k = capacity dk)) as [Heq|Hne].
      * split; [intros _; exact Hcap|].
        intros Hnot. exfalso. apply Hnot. split; [apply Hpow; [lia|exact Heq]|exact Heq].
      * split; [intros [_ Heq]; contradiction|intros _; exact Hcap].
Qed.

(** Five insertions, across the boundary 4. *)
Lemma AddEntry_growth_witness :
  ∃ d, AddEntries (Entry.mk "a" 0 0 :: Entry.mk "b" 0 0 :: Entry.mk "c" 0 0 ::
                   Entry.mk "d" 0 0 :: Entry.mk "e" 3 3 :: []) (init "dir") = Some d ∧
       NumberOfFiles d = 5 ∧ GetFile 4 d = Some (Some "e") ∧ capacity d = 8.
Proof.
  destruct (AddEntry_growth "dir"
              (Entry.mk "a" 0 0 :: Entry.mk "b" 0 0 :: Entry.mk "c" 0 0 ::
               Entry.mk "d" 0 0 :: Entry.mk "e" 3 3 :: []))
    as (d & Hrun & Hn & Hget & _).
  { unfold max_entries. simpl. lia. }
  exists d. split; [exact Hrun|]. split; [exact Hn|].
  split; [exact (Hget 4%nat ltac:(simpl; lia))|].
  vm_compute in Hrun. injection Hrun as <-. reflexivity.
Defined.

(** C4, as stated, fails: the insertion number 2^30 + 1 finds the count
    2^30 equal to the capacity and evaluates [n*2], which is outside the
    range of [int]; no table results from it. *)
Lemma AddEntry_growth_counterexample :
  AddEntries (replicate (S (Z.to_nat max_entries)) (Entry.mk "f" 0 0)) (init "dir") = None.
Proof.
  assert (Hmax : 0 ≤ max_entries) by (unfold max_entries; lia).
  rewrite replicate_S_end, AddEntries_app.
  destruct (AddEntries_spec (replicate (Z.to_nat max_entries) (Entry.mk "f" 0 0)) []
              (init "dir") (wf_dir_init _ _) (listed_init _))
    as (d & Hrun & Hwf & [Hcount _]).
  { rewrite app_nil_l, length_replicate, Z2Nat.id; lia. }
  rewrite Hrun.
  rewrite app_nil_l, length_replicate, Z2Nat.id in Hcount by lia.
  change (AddEntries [Entry.mk "f" 0 0] d = None). unfold AddEntries.
  destruct (AddEntry _ _ _ d) as [d'|] eqn:Hadd; [exfalso|reflexivity].
  pose proof (AddEntry_Some_lt _ _ _ _ _ _ Hwf Hadd) as Hlt. lia.
Qed.

(** ** The accessors *)

Lemma IsDirectory_type_query `{Header} (pb : bool) (fs : FileSystem) (i : Z) (s : state) :
  IsDirectory pb fs i s = type_query pb TypeDirectory (stat fs) q_stat Sys.S_ISDIR i s.
Proof. reflexivity. Qed.

Lemma IsSymlink_type_query `{Header} (pb : bool) (fs : FileSystem) (i : Z) (s : state) :
  IsSymlink pb fs i s = type_query pb TypeSymlink (lstat fs) q_lstat Sys.S_ISLNK i s.
Proof. reflexivity. Qed.

Lemma type_query_out_of_range `{Header} pb bit ask q is_type (i : Z) (s : state) :
  i < 0 ∨ NumberOfFiles (dir s) ≤ i →
  type_query pb bit ask q is_type i s = Some (false, s).
Proof.
  intros Hi. unfold type_query.
  destruct (Z.ltb_spec i 0); [reflexivity|].
  destruct (Z.leb_spec (NumberOfFiles (dir s)) i); [reflexivity|lia].
Qed.

(** C7: for every index i outside [0, count), [GetFile(i)] returns the
    null pointer, and [IsDirectory(i)] and [IsSymlink(i)] return false
    and leave the object and the log of file system queries as they
    were, on either platform. *)
Theorem out_of_range_accessors `{Header} (pb : bool) (fs : FileSystem) (i : Z) (s : state) :
  i < 0 ∨ NumberOfFiles (dir s) ≤ i →
  GetFile i (dir s) = Some None ∧
  IsDirectory pb fs i s = Some (false, s) ∧
  IsSymlink pb fs i s = Some (false, s).
Proof.
  intros Hi. split; [|split].
  - unfold GetFile.
    destruct (Z.ltb_spec i 0); [reflexivity|].
    destruct (Z.leb_spec (NumberOfFiles (dir s)) i); [reflexivity|lia].
  - rewrite IsDirectory_type_query. by apply type_query_out_of_range.
  - rewrite IsSymlink_type_query. by apply type_query_out_of_range.
Qed.

(** The index 7 in a listing of one entry. *)
Lemma out_of_range_accessors_witness :
  let s := mkState (mkDir "dir" 0 0 1 (Some [Some (Entry.mk "a" 0 0); None; None; None])) [] in
  let fs := mkFS (λ _, None) (λ _, None) in
  GetFile 7 (dir s) = Some None ∧
  @IsDirectory sample_Header true fs 7 s = Some (false, s) ∧
  @IsSymlink sample_Header true fs 7 s = Some (false, s).
Proof.
  intros s fs. apply (@out_of_range_accessors sample_Header true fs 7 s).
  right. simpl. lia.
Defined.

(** *** Reading and writing an entry of a well-formed table *)

Lemma wf_entry_at (P : Entry.t → Prop) (d : vtkDICOMFileDirectory) (i : Z) :
  wf_dir P d → 0 ≤ i < NumberOfFiles d → ∃ e, entry_at d i = Some e ∧ P e.
Proof.
  intros [Hn Hd] Hi. unfold entry_at.
  destruct (Entries d) as [arr|]; [|lia].
  destruct Hd as (_ & _ & _ & Hent).
  destruct (Hent (Z.to_nat i) ltac:(lia)) as (e & He & HP).
  exists e. simpl. rewrite He. auto.
Qed.

Lemma store_entry_spec (P : Entry.t → Prop) (d : vtkDICOMFileDirectory) (i : Z)
    (e' : Entry.t) :
  wf_dir P d → 0 ≤ i < NumberOfFiles d → P e' →
  ∃ d', store_entry d i e' = Some d' ∧ wf_dir P d' ∧
        Name d' = Name d ∧ Error d' = Error d ∧ ErrorSets d' = ErrorSets d ∧
        NumberOfFiles d' = NumberOfFiles d ∧ capacity d' = capacity d ∧
        entry_at d' i = Some e' ∧
        ∀ j, 0 ≤ j → j ≠ i → entry_at d' j = entry_at d j.
Proof.
  intros [Hn Hd] Hi HP. unfold store_entry, capacity, entry_at.
  destruct (Entries d) as [arr|] eqn:Harr; [|lia].
  destruct Hd as (Hcnt & Hpow & Hhalf & Hent). simpl.
  destruct (decide (Z.to_nat i < length arr)%nat) as [Hlt|]; [|lia].
  eexists. split; [reflexivity|]. simpl.
  split; [|split; [reflexivity|split; [reflexivity|split; [reflexivity|
           split; [reflexivity|split; [|split]]]]]].
  - split; [exact Hn|]. simpl. rewrite length_insert.
    split; [exact Hcnt|]. split; [exact Hpow|]. split; [exact Hhalf|].
    intros k Hk. destruct (decide (k = Z.to_nat i)) as [->|Hne].
    + exists e'. rewrite list_lookup_insert_eq by lia. auto.
    + rewrite list_lookup_insert_ne by lia. apply Hent. exact Hk.
  - rewrite length_insert. reflexivity.
  - rewrite list_lookup_insert_eq by lia. reflexivity.
  - intros j Hj Hne. rewrite list_lookup_insert_ne by lia. reflexivity.
Qed.

Lemma AddEntry_wf (P : Entry.t → Prop) (name : string) (flags mask : Z)
    (d d' : vtkDICOMFileDirectory) :
  wf_dir P d → P (Entry.mk name flags mask) → AddEntry name flags mask d = Some d' →
  wf_dir P d' ∧ Name d' = Name d ∧ Error d' = Error d ∧ ErrorSets d' = ErrorSets d.
Proof.
  intros Hwf HP Hadd.
  pose proof (AddEntry_Some_lt _ _ _ _ _ _ Hwf Hadd) as Hlt.
  destruct (AddEntry_spec P name flags mask d Hwf Hlt HP)
    as (d1 & Hadd1 & Hwf1 & _ & Hname & Herr & Hsets & _).
  rewrite Hadd in Hadd1. injection Hadd1 as <-. auto.
Qed.

(** *** Bits of the flags and of the mask *)

Lemma flags_in_mask_bits (F M : Z) :
  Z.ldiff F M = 0 ↔ ∀ k, Z.testbit F k && negb (Z.testbit M k) = false.
Proof.
  split.
  - intros Hd k. rewrite <- Z.ldiff_spec, Hd. apply Z.bits_0.
  - intros Hb. apply Z.bits_inj'. intros k _. rewrite Z.ldiff_spec, Z.bits_0. apply Hb.
Qed.

Lemma is_ushort_bits (x k : Z) :
  is_ushort x → Z.testbit x k = (k <? 16) && Z.testbit x k.
Proof.
  intros Hx. rewrite <- (to_ushort_id x) at 1 by exact Hx. apply to_ushort_testbit.
Qed.

Lemma to_ushort_is_ushort (x : Z) : is_ushort (to_ushort x).
Proof. unfold is_ushort, to_ushort. apply Z.mod_pos_bound. lia. Qed.

Lemma entry_ok_zero (name : string) : entry_ok (Entry.mk name 0 0).
Proof. unfold entry_ok, is_ushort, flags_in_mask; simpl. lia. Qed.

Lemma resolved_ok (bit : Z) (is_type : Z → bool) (st_mode : Z) (e : Entry.t) :
  entry_ok e → entry_ok (resolved bit is_type st_mode e).
Proof.
  intros (HF & HM & Hin). unfold entry_ok, resolved, flags_in_mask in *; simpl.
  split; [destruct (is_type st_mode); [apply to_ushort_is_ushort|exact HF]|].
  split; [apply to_ushort_is_ushort|].
  apply flags_in_mask_bits. intros k.
  pose proof (proj1 (flags_in_mask_bits _ _) Hin k) as Hk.
  pose proof (is_ushort_bits _ k HF) as HFk.
  destruct (is_type st_mode);
    rewrite ?to_ushort_testbit, ?Z.lor_spec;
    destruct (k <? 16), (Z.testbit (Entry.Flags e) k), (Z.testbit (Entry.Mask e) k),
      (Z.testbit bit k); simpl in *; congruence.
Qed.

(** A flag whose mask bit is clear is clear. *)
Lemma unresolved_flag_clear (bit : Z) (e : Entry.t) :
  flags_in_mask e → Z.land (Entry.Mask e) bit = 0 → Z.land (Entry.Flags e) bit = 0.
Proof.
  intros Hin Hmask. apply Z.bits_inj'. intros k _.
  pose proof (proj1 (flags_in_mask_bits _ _) Hin k) as Hk.
  assert (Hm : Z.testbit (Z.land (Entry.Mask e) bit) k = false)
    by (rewrite Hmask; apply Z.bits_0).
  rewrite Z.land_spec in Hm. rewrite Z.land_spec, Z.bits_0.
  destruct (Z.testbit (Entry.Flags e) k), (Z.testbit (Entry.Mask e) k),
    (Z.testbit bit k); simpl in *; congruence.
Qed.

(** After a successful query the mask holds the bit, and the flag tells
    the answer. *)
Lemma resolved_bits (bit : Z) (is_type : Z → bool) (st_mode : Z) (e : Entry.t) :
  0 < bit < 65536 → flags_in_mask e → Z.land (Entry.Mask e) bit = 0 →
  Z.land (Entry.Mask (resolved bit is_type st_mode e)) bit = bit ∧
  Z.land (Entry.Flags (resolved bit is_type st_mode e)) bit
  = (if is_type st_mode then bit else 0).
Proof.
  intros Hbit Hin Hmask. unfold resolved; simpl.
  assert (Hb : ∀ k, Z.testbit bit k = (k <? 16) && Z.testbit bit k).
  { intros k. apply is_ushort_bits. unfold is_ushort. lia. }
  assert (Hset : ∀ x, Z.land (to_ushort (Z.lor x bit)) bit = bit).
  { intros x. apply Z.bits_inj'. intros k _.
    rewrite Z.land_spec, to_ushort_testbit, Z.lor_spec. specialize (Hb k).
    destruct (k <? 16), (Z.testbit x k), (Z.testbit bit k); simpl in *; congruence. }
  split; [apply Hset|].
  destruct (is_type st_mode); [apply Hset|].
  apply unresolved_flag_clear; assumption.
Qed.

(** *** The three ways through [IsDirectory] and [IsSymlink] *)

Section TypeQuery.
Context `{Header}.
Variables (bit : Z) (ask : string → option Z) (q : string → query) (is_type : Z → bool).
Variables (i : Z) (s : state) (e : Entry.t).
Hypothesis Hi : 0 ≤ i < NumberOfFiles (dir s).
Hypothesis He : entry_at (dir s) i = Some e.

Let path := PushBack (Name (dir s)) (Entry.Name e).

Lemma in_range_test : (i <? 0) || (NumberOfFiles (dir s) <=? i) = false.
Proof.
  destruct (Z.ltb_spec i 0); [lia|].
  destruct (Z.leb_spec (NumberOfFiles (dir s)) i); [lia|reflexivity].
Qed.

(** No query: a Win32 build, or a mask bit already set. *)
Lemma type_query_cached (pb : bool) :
  pb = false ∨ Z.land (Entry.Mask e) bit ≠ 0 →
  type_query pb bit ask q is_type i s
  = Some (negb (Z.land (Entry.Flags e) bit =? 0), s).
Proof.
  intros Hc. unfold type_query. rewrite in_range_test.
  destruct pb; simpl.
  - destruct Hc as [|Hm]; [discriminate|].
    rewrite He. simpl. apply Z.eqb_neq in Hm. rewrite Hm. simpl.
    rewrite He. reflexivity.
  - rewrite He. reflexivity.
Qed.

(** A query that fails: one more entry in the log, nothing else. *)
Lemma type_query_failed :
  Z.land (Entry.Mask e) bit = 0 → ask path = None →
  type_query true bit ask q is_type i s
  = Some (negb (Z.land (Entry.Flags e) bit =? 0),
          mkState (dir s) (queries s ++ [q path])).
Proof.
  intros Hm Hask. unfold type_query. rewrite in_range_test. simpl.
  rewrite He. simpl. rewrite Hm. simpl. fold path. rewrite Hask. simpl.
  rewrite He. reflexivity.
Qed.

(** A query that succeeds: the entry is rewritten. *)
Lemma type_query_resolved (st_mode : Z) (d' : vtkDICOMFileDirectory) :
  Z.land (Entry.Mask e) bit = 0 → ask path = Some st_mode →
  store_entry (dir s) i (resolved bit is_type st_mode e) = Some d' →
  entry_at d' i = Some (resolved bit is_type st_mode e) →
  type_query true bit ask q is_type i s
  = Some (negb (Z.land (Entry.Flags (resolved bit is_type st_mode e)) bit =? 0),
          mkState d' (queries s ++ [q path])).
Proof.
  intros Hm Hask Hstore Hnew. unfold type_query. rewrite in_range_test. simpl.
  rewrite He. simpl. rewrite Hm. simpl. fold path. rewrite Hask. simpl.
  rewrite Hstore. simpl. rewrite Hnew. reflexivity.
Qed.
End TypeQuery.

(** Every call of [IsDirectory] or [IsSymlink] on a well-formed object
    returns, keeps it well-formed, and changes neither the name, the
    error, the count nor the capacity. *)
Lemma type_query_wf `{Header} pb bit ask q is_type (i : Z) (s : state) :
  wf_dir entry_ok (dir s) →
  ∃ b s', type_query pb bit ask q is_type i s = Some (b, s') ∧
          wf_dir entry_ok (dir s') ∧
          Name (dir s') = Name (dir s) ∧ Error (dir s') = Error (dir s) ∧
          ErrorSets (dir s') = ErrorSets (dir s) ∧
          NumberOfFiles (dir s') = NumberOfFiles (dir s) ∧
          capacity (dir s') = capacity (dir s).
Proof.
  intros Hwf.
  destruct (decide (0 ≤ i < NumberOfFiles (dir s))) as [Hi|Hout].
  - destruct (wf_entry_at _ _ _ Hwf Hi) as (e & He & Hok).
    destruct (decide (pb = false ∨ Z.land (Entry.Mask e) bit ≠ 0)) as [Hc|Hq].
    { rewrite (type_query_cached _ _ _ _ _ _ _ Hi He _ Hc). eauto 10. }
    assert (pb = true) as -> by (destruct pb; tauto).
    assert (Hm : Z.land (Entry.Mask e) bit = 0) by lia.
    destruct (ask (PushBack (Name (dir s)) (Entry.Name e))) as [st_mode|] eqn:Hask.
    + destruct (store_entry_spec entry_ok (dir s) i (resolved bit is_type st_mode e)
                  Hwf Hi (resolved_ok _ _ _ _ Hok))
        as (d' & Hstore & Hwf' & Hname & Herr & Hsets & Hcount & Hcap & Hnew & _).
      rewrite (type_query_resolved _ _ _ _ _ _ _ Hi He _ _ Hm Hask Hstore Hnew).
      eauto 10.
    + rewrite (type_query_failed _ _ _ _ _ _ _ Hi He Hm Hask). eauto 10.
  - rewrite type_query_out_of_range by lia. eauto 10.
Qed.

Lemma do_call_wf `{Header} (pb : bool) (c : call) (s : state) :
  wf_dir entry_ok (dir s) →
  ∃ s', do_call pb c s = Some s' ∧ wf_dir entry_ok (dir s') ∧
        Name (dir s') = Name (dir s) ∧ Error (dir s') = Error (dir s) ∧
        ErrorSets (dir s') = ErrorSets (dir s) ∧
        NumberOfFiles (dir s') = NumberOfFiles (dir s) ∧
        capacity (dir s') = capacity (dir s).
Proof.
  intros Hwf. destruct c as [i|fs i|fs i]; simpl.
  - exists s. split; [|auto 10].
    destruct (decide (0 ≤ i < NumberOfFiles (dir s))) as [Hi|Hout].
    + destruct (wf_entry_at _ _ _ Hwf Hi) as (e & He & _).
      rewrite (GetFile_entry _ _ _ Hi He). reflexivity.
    + unfold GetFile.
      destruct (Z.ltb_spec i 0); [reflexivity|].
      destruct (Z.leb_spec (NumberOfFiles (dir s)) i); [reflexivity|lia].
  - rewrite IsDirectory_type_query.
    destruct (type_query_wf pb TypeDirectory (stat fs) q_stat Sys.S_ISDIR i s Hwf)
      as (b & s' & -> & Hrest). exists s'. split; [reflexivity|exact Hrest].
  - rewrite IsSymlink_type_query.
    destruct (type_query_wf pb TypeSymlink (lstat fs) q_lstat Sys.S_ISLNK i s Hwf)
      as (b & s' & -> & Hrest). exists s'. split; [reflexivity|exact Hrest].
Qed.

Lemma do_calls_wf `{Header} (pb : bool) (cs : list call) (s : state) :
  wf_dir entry_ok (dir s) →
  ∃ s', do_calls pb cs s = Some s' ∧ wf_dir entry_ok (dir s') ∧
        Name (dir s') = Name (dir s) ∧ Error (dir s') = Error (dir s) ∧
        ErrorSets (dir s') = ErrorSets (dir s) ∧
        NumberOfFiles (dir s') = NumberOfFiles (dir s) ∧
        capacity (dir s') = capacity (dir s).
Proof.
  revert s. induction cs as [|c cs IH]; intros s Hwf; simpl.
  - exists s. auto 10.
  - destruct (do_call_wf pb c s Hwf) as (s1 & -> & Hwf1 & Hn1 & He1 & Hs1 & Hc1 & Hk1).
    simpl. destruct (IH s1 Hwf1) as (s' & Hrun & Hwf' & Hn & He & Hs & Hc & Hk).
    exists s'. split; [exact Hrun|]. split; [exact Hwf'|].
    repeat split; congruence.
Qed.

(** ** The constructor *)

Lemma wf_dir_set_Error (P : Entry.t → Prop) (c : Z) (d : vtkDICOMFileDirectory) :
  wf_dir P d → wf_dir P (set_Error c d).
Proof. intros Hwf. exact Hwf. Qed.

Lemma code_Error_spec (P : Entry.t → Prop) (code : Z) (d : vtkDICOMFileDirectory) :
  wf_dir P d →
  wf_dir P (code_Error code d) ∧ Name (code_Error code d) = Name d ∧
  (ErrorSets (code_Error code d) ≤ S (ErrorSets d))%nat.
Proof.
  intros Hwf. unfold code_Error.
  repeat match goal with |- context [if ?b then _ else _] => destruct b end;
    simpl; auto using wf_dir_set_Error.
Qed.

Lemma readdir_loop_wf (P : Entry.t → Prop) (d_names : list string)
    (d0 d : vtkDICOMFileDirectory) :
  (∀ name, name ≠ "." → name ≠ ".." → P (Entry.mk name 0 0)) →
  wf_dir P d0 → readdir_loop d_names d0 = Some d →
  wf_dir P d ∧ Name d = Name d0 ∧ Error d = Error d0 ∧ ErrorSets d = ErrorSets d0.
Proof.
  intros HP. revert d0. induction d_names as [|x rest IH]; intros d0 Hwf Hrun; simpl in Hrun.
  - injection Hrun as <-. auto.
  - destruct (bool_decide (x ≠ ".") && bool_decide (x ≠ "..")) eqn:Hx; simpl in Hrun.
    + apply andb_true_iff in Hx as [H1%bool_decide_eq_true H2%bool_decide_eq_true].
      destruct (AddEntry x 0 0 d0) as [d1|] eqn:Hadd; [|discriminate]. simpl in Hrun.
      destruct (AddEntry_wf P _ _ _ _ _ Hwf (HP x H1 H2) Hadd) as (Hwf1 & Hn1 & He1 & Hs1).
      destruct (IH d1 Hwf1 Hrun) as (Hwf' & Hn & He & Hs).
      split; [assumption|]. repeat split; congruence.
    + apply IH; assumption.
Qed.

Lemma find_flags_entry_ok `{Header} (a b : bool) (name : string) :
  entry_ok (Entry.mk name (to_ushort (find_flags a b)) full_mask).
Proof.
  unfold entry_ok, full_mask, find_flags; simpl.
  split; [apply to_ushort_is_ushort|]. split; [apply to_ushort_is_ushort|].
  apply flags_in_mask_bits. intros k. simpl.
  destruct a, b;
    rewrite ?to_ushort_testbit, ?to_uint_testbit, ?Z.lor_spec, ?to_uint_testbit,
      ?Z.lor_spec, ?Z.bits_0;
    destruct (k <? 16), (k <? 32), (Z.testbit TypeSymlink k), (Z.testbit TypeDirectory k);
    reflexivity.
Qed.

Lemma find_loop_wf `{Header} (P : Entry.t → Prop) (rest : list WIN32_FIND_DATAW)
    (d0 d : vtkDICOMFileDirectory) :
  (∀ a b name, P (Entry.mk name (to_ushort (find_flags a b)) full_mask)) →
  wf_dir P d0 → find_loop rest d0 = Some d →
  wf_dir P d ∧ Name d = Name d0 ∧ Error d = Error d0 ∧ ErrorSets d = ErrorSets d0.
Proof.
  intros HP. revert d0. induction rest as [|fd rest IH]; intros d0 Hwf Hrun; simpl in Hrun.
  - injection Hrun as <-. auto.
  - destruct (find_body fd d0) as [d1|] eqn:Hbody; [|discriminate]. simpl in Hrun.
    unfold find_body in Hbody.
    destruct (AddEntry_wf P _ _ _ _ _ Hwf (HP _ _ _) Hbody) as (Hwf1 & Hn1 & He1 & Hs1).
    destruct (IH d1 Hwf1 Hrun) as (Hwf' & Hn & He & Hs).
    split; [assumption|]. repeat split; congruence.
Qed.

(** What the constructor establishes on either platform. *)
Lemma ctor_wf `{Header} (dirname : string) (en : enumeration) (d : vtkDICOMFileDirectory) :
  ctor dirname en = Some d →
  wf_dir entry_ok d ∧ Name d = dirname ∧ (ErrorSets d ≤ 1)%nat.
Proof.
  intros Hc.
  destruct en as [[e|d_names]|[|code0|first next code]];
    unfold ctor, ctor_posix, ctor_win32 in Hc.
  - injection Hc as <-. split; [apply wf_dir_set_Error, wf_dir_init|]. simpl. auto.
  - destruct (readdir_loop_wf entry_ok d_names (init dirname) d) as (Hwf & Hn & _ & Hs).
    + intros name _ _. apply entry_ok_zero.
    + apply wf_dir_init.
    + exact Hc.
    + rewrite Hs. simpl. auto.
  - injection Hc as <-. split; [apply wf_dir_set_Error, wf_dir_init|]. simpl. auto.
  - injection Hc as <-.
    destruct (code_Error_spec entry_ok
                (if code0 =? Sys.ERROR_FILE_NOT_FOUND then Sys.ERROR_NO_MORE_FILES else code0)
                (init dirname) (wf_dir_init _ _)) as (Hwf & Hn & Hs).
    auto.
  - destruct (find_loop (first :: next) (init dirname)) as [d2|] eqn:Hloop; [|discriminate].
    injection Hc as <-.
    destruct (find_loop_wf entry_ok (first :: next) (init dirname) d2
                find_flags_entry_ok (wf_dir_init _ _) Hloop)
      as (Hwf & Hn & _ & Hs).
    destruct (code_Error_spec entry_ok code d2 Hwf) as (Hwf' & Hn' & Hs').
    simpl in Hn. split; [exact Hwf'|]. split; [congruence|]. rewrite Hs in Hs'. exact Hs'.
Qed.

(** The POSIX branch leaves out both names. *)
Lemma posix_skips_dot_entries (dirname : string) (r : opendir_result)
    (d : vtkDICOMFileDirectory) (i : Z) :
  ctor_posix dirname r = Some d → 0 ≤ i < NumberOfFiles d →
  GetFile i d ≠ Some (Some ".") ∧ GetFile i d ≠ Some (Some "..").
Proof.
  intros Hc Hi.
  assert (Hwf : wf_dir not_dot d).
  { destruct r as [e|d_names]; simpl in Hc.
    - injection Hc as <-. simpl in Hi. lia.
    - apply (readdir_loop_wf not_dot d_names (init dirname) d); [|apply wf_dir_init|exact Hc].
      intros name H1 H2. split; assumption. }
  destruct (wf_entry_at _ _ _ Hwf Hi) as (e & He & [H1 H2]).
  rewrite (GetFile_entry _ _ _ Hi He). split; congruence.
Qed.

(** C3, the Win32 branch at a listing that starts with "." and "..",
    as [FindFirstFileW] and [FindNextFileW] report them for a directory
    that is not a root: both names are entered, at the indices 0 and 1,
    whatever the header's type bits are. *)
Theorem win32_keeps_dot_entries `{Header} :
  ∃ d, ctor "dir"
         (win32 (find_handle (mkFindData 16 0 ".")
                   [mkFindData 16 0 ".."; mkFindData 32 0 "a.dcm"]
                   Sys.ERROR_NO_MORE_FILES)) = Some d ∧
       Error d = Code.Good ∧ NumberOfFiles d = 3 ∧
       GetFile 0 d = Some (Some ".") ∧ GetFile 1 d = Some (Some "..").
Proof. eexists. split; [reflexivity|]. repeat split. Qed.

(** What each branch of the constructor inserts. *)
Lemma ctor_inserted `{Header} (dirname : string) (en : enumeration)
    (d : vtkDICOMFileDirectory) :
  ctor dirname en = Some d →
  wf_dir (λ e, match en with
               | posix _ => Entry.Flags e = 0 ∧ Entry.Mask e = 0
               | win32 _ => Entry.Mask e = full_mask
               end) d.
Proof.
  intros Hc.
  destruct en as [[e|d_names]|[|code0|first next code]];
    unfold ctor, ctor_posix, ctor_win32 in Hc.
  - injection Hc as <-. apply wf_dir_set_Error, wf_dir_init.
  - apply (readdir_loop_wf _ d_names (init dirname) d); [|apply wf_dir_init|exact Hc].
    intros name _ _. simpl. auto.
  - injection Hc as <-. apply wf_dir_set_Error, wf_dir_init.
  - injection Hc as <-. apply code_Error_spec, wf_dir_init.
  - destruct (find_loop (first :: next) (init dirname)) as [d2|] eqn:Hloop; [|discriminate].
    injection Hc as <-. apply code_Error_spec.
    apply (find_loop_wf _ (first :: next) (init dirname) d2); [|apply wf_dir_init|exact Hloop].
    intros a b name. reflexivity.
Qed.

(** C10: in every object the constructor delivers, on either platform,
    each entry has its flag bits among its mask bits: the POSIX branch
    inserts flags 0 with mask 0, the Win32 branch inserts the full mask
    with flags among its bits; and after any sequence of [GetFile],
    [IsDirectory] and [IsSymlink] calls, all of which return, each entry
    still has its flag bits among its mask bits. *)
Theorem flags_within_mask `{Header} (dirname : string) (en : enumeration)
    (d : vtkDICOMFileDirectory) :
  ctor dirname en = Some d →
  (∀ i, 0 ≤ i < NumberOfFiles d →
     ∃ e, entry_at d i = Some e ∧
          Z.ldiff (Entry.Flags e) (Entry.Mask e) = 0 ∧
          match en with
          | posix _ => Entry.Flags e = 0 ∧ Entry.Mask e = 0
          | win32 _ => Entry.Mask e = to_ushort (Z.lor TypeSymlink TypeDirectory)
          end) ∧
  ∀ cs, ∃ s, do_calls (is_posix en) cs (mkState d []) = Some s ∧
             NumberOfFiles (dir s) = NumberOfFiles d ∧
             ∀ i, 0 ≤ i < NumberOfFiles d →
               ∃ e, entry_at (dir s) i = Some e ∧
                    Z.ldiff (Entry.Flags e) (Entry.Mask e) = 0.
Proof.
  intros Hc. destruct (ctor_wf _ _ _ Hc) as (Hwf & _ & _). split.
  - intros i Hi.
    destruct (wf_entry_at _ _ _ Hwf Hi) as (e & He & _ & _ & Hin).
    destruct (wf_entry_at _ _ _ (ctor_inserted _ _ _ Hc) Hi) as (e' & He' & Hins).
    rewrite He in He'. injection He' as <-. exists e. auto.
  - intros cs.
    destruct (do_calls_wf (is_posix en) cs (mkState d []) Hwf)
      as (s & Hrun & Hwf' & _ & _ & _ & Hcount & _).
    exists s. split; [exact Hrun|]. split; [exact Hcount|].
    intros i Hi. simpl in Hcount. rewrite <- Hcount in Hi.
    destruct (wf_entry_at _ _ _ Hwf' Hi) as (e & He & _ & _ & Hin). eauto.
Qed.

(** A POSIX listing of three names, one of them skipped. *)
Lemma flags_within_mask_witness :
  ∃ d, @ctor sample_Header "dir" (posix (opendir_dir ["a"; "."; "b"])) = Some d ∧
       ∀ cs, ∃ s, @do_calls sample_Header true cs (mkState d []) = Some s ∧
                  NumberOfFiles (dir s) = NumberOfFiles d ∧
                  ∀ i, 0 ≤ i < NumberOfFiles d →
                    ∃ e, entry_at (dir s) i = Some e ∧
                         Z.ldiff (Entry.Flags e) (Entry.Mask e) = 0.
Proof.
  eexists. split; [reflexivity|].
  apply (@flags_within_mask sample_Header "dir" (posix (opendir_dir ["a"; "."; "b"]))).
  reflexivity.
Defined.

(** C6: the constructor assigns [Error] at most once; after it, no
    sequence of [GetFile], [IsDirectory] and [IsSymlink] calls changes
    [Error] or assigns it again; and where a lazy query of an unresolved
    flag fails, the call returns false, adds the query to the log and
    leaves the object, its error included, as it was, so that the flag
    stays unresolved. *)
Theorem error_set_at_construction `{Header} (dirname : string) (en : enumeration)
    (d : vtkDICOMFileDirectory) :
  ctor dirname en = Some d →
  (ErrorSets d ≤ 1)%nat ∧
  ∀ cs, ∃ s, do_calls (is_posix en) cs (mkState d []) = Some s ∧
             Error (dir s) = Error d ∧ ErrorSets (dir s) = ErrorSets d ∧
             ∀ fs i e,
               is_posix en = true →
               0 ≤ i < NumberOfFiles (dir s) → entry_at (dir s) i = Some e →
               let path := PushBack (Name (dir s)) (Entry.Name e) in
               (Z.land (Entry.Mask e) TypeDirectory = 0 → stat fs path = None →
                IsDirectory (is_posix en) fs i s
                = Some (false, mkState (dir s) (queries s ++ [q_stat path]))) ∧
               (Z.land (Entry.Mask e) TypeSymlink = 0 → lstat fs path = None →
                IsSymlink (is_posix en) fs i s
                = Some (false, mkState (dir s) (queries s ++ [q_lstat path]))).
Proof.
  intros Hc. destruct (ctor_wf _ _ _ Hc) as (Hwf & _ & Hsets).
  split; [exact Hsets|]. intros cs.
  destruct (do_calls_wf (is_posix en) cs (mkState d []) Hwf)
    as (s & Hrun & Hwf' & _ & Herr & Hs & _).
  exists s. split; [exact Hrun|]. split; [exact Herr|]. split; [exact Hs|].
  intros fs i e -> Hi He path.
  destruct (wf_entry_at _ _ _ Hwf' Hi) as (e' & He' & _ & _ & Hin).
  rewrite He in He'. injection He' as <-.
  split; intros Hm Hask.
  - rewrite IsDirectory_type_query,
      (type_query_failed _ _ _ _ _ _ _ Hi He Hm Hask),
      (unresolved_flag_clear _ _ Hin Hm). reflexivity.
  - rewrite IsSymlink_type_query,
      (type_query_failed _ _ _ _ _ _ _ Hi He Hm Hask),
      (unresolved_flag_clear _ _ Hin Hm). reflexivity.
Qed.

(** A POSIX listing of one entry whose [stat] fails. *)
Lemma error_set_at_construction_witness :
  ∃ d, @ctor sample_Header "dir" (posix (opendir_dir ["x"])) = Some d ∧
       (ErrorSets d ≤ 1)%nat ∧
       @IsDirectory sample_Header true failing_fs 0 (mkState d [])
       = Some (false, mkState d [q_stat "dir/x"]).
Proof.
  eexists. split; [reflexivity|].
  destruct (@error_set_at_construction sample_Header "dir"
              (posix (opendir_dir ["x"])) _ eq_refl) as [Hsets Hcalls].
  split; [exact Hsets|].
  destruct (Hcalls []) as (s & Hrun & _ & _ & Hfail).
  injection Hrun as <-.
  exact (proj1 (Hfail failing_fs 0 (Entry.mk "x" 0 0) eq_refl
                  ltac:(simpl; lia) eq_refl) eq_refl eq_refl).
Defined.

(** *** Lazy classification *)

(** One call on an unresolved flag of a well-formed object, and the
    call after it. *)
Lemma type_query_lazy `{Header} bit ask q is_type (i : Z) (s : state) (e : Entry.t) :
  0 < bit < 65536 → wf_dir entry_ok (dir s) →
  0 ≤ i < NumberOfFiles (dir s) → entry_at (dir s) i = Some e →
  Z.land (Entry.Mask e) bit = 0 →
  let path := PushBack (Name (dir s)) (Entry.Name e) in
  ∃ b s1,
    type_query true bit ask q is_type i s = Some (b, s1) ∧
    queries s1 = queries s ++ [q path] ∧
    match ask path with
    | Some st_mode =>
        b = is_type st_mode ∧
        ∀ ask', type_query true bit ask' q is_type i s1 = Some (b, s1)
    | None =>
        b = false ∧ dir s1 = dir s ∧
        ∀ ask', ∃ b2 s2, type_query true bit ask' q is_type i s1 = Some (b2, s2) ∧
                         queries s2 = queries s1 ++ [q path]
    end.
Proof.
  intros Hbit Hwf Hi He Hm path.
  destruct (wf_entry_at _ _ _ Hwf Hi) as (e' & He' & Hok).
  rewrite He in He'. injection He' as <-.
  pose proof Hok as (_ & _ & Hin).
  destruct (ask path) as [st_mode|] eqn:Hask.
  - destruct (store_entry_spec entry_ok (dir s) i (resolved bit is_type st_mode e)
                Hwf Hi (resolved_ok _ _ _ _ Hok))
      as (d' & Hstore & Hwf' & Hname & _ & _ & Hcount & _ & Hnew & _).
    destruct (resolved_bits bit is_type st_mode e Hbit Hin Hm) as [Hmask Hflag].
    assert (Hb : negb (Z.land (Entry.Flags (resolved bit is_type st_mode e)) bit =? 0)
                 = is_type st_mode).
    { rewrite Hflag. destruct (is_type st_mode); simpl; [|reflexivity].
      destruct (Z.eqb_spec bit 0); [lia|reflexivity]. }
    exists (is_type st_mode), (mkState d' (queries s ++ [q path])).
    split; [|split; [reflexivity|split; [reflexivity|]]].
    + rewrite (type_query_resolved _ _ _ _ _ _ _ Hi He _ _ Hm Hask Hstore Hnew), Hb.
      reflexivity.
    + intros ask'.
      rewrite (type_query_cached bit ask' q is_type i (mkState d' (queries s ++ [q path]))
                 (resolved bit is_type st_mode e)); cbn [dir].
      * rewrite Hb. reflexivity.
      * lia.
      * exact Hnew.
      * right. lia.
  - exists false, (mkState (dir s) (queries s ++ [q path])).
    split; [|split; [reflexivity|split; [reflexivity|split; [reflexivity|]]]].
    + rewrite (type_query_failed _ _ _ _ _ _ _ Hi He Hm Hask),
        (unresolved_flag_clear _ _ Hin Hm). reflexivity.
    + intros ask'. simpl.
      destruct (type_query_wf true bit ask' q is_type i
                  (mkState (dir s) (queries s ++ [q path])) Hwf) as (b2 & s2 & Hrun & _).
      exists b2, s2. split; [exact Hrun|].
      destruct (ask' path) as [m2|] eqn:Hask2.
      * destruct (store_entry_spec entry_ok (dir s) i (resolved bit is_type m2 e)
                    Hwf Hi (resolved_ok _ _ _ _ Hok))
          as (d2 & Hstore & _ & _ & _ & _ & _ & _ & Hnew & _).
        rewrite (type_query_resolved bit ask' q is_type i
                   (mkState (dir s) (queries s ++ [q path])) e Hi He m2 d2 Hm Hask2
                   Hstore Hnew) in Hrun.
        injection Hrun as _ <-. reflexivity.
      * rewrite (type_query_failed bit ask' q is_type i
                   (mkState (dir s) (queries s ++ [q path])) e Hi He Hm Hask2) in Hrun.
        injection Hrun as _ <-. reflexivity.
Qed.

(** C5, as amended: on the POSIX branch, for every in-range index i
    whose directory (symbolic link) flag is unresolved, a call of
    [IsDirectory(i)] ([IsSymlink(i)]) makes exactly one file system
    query, a [stat] (an [lstat]) of the entry's path.  If the query
    succeeds, the call returns its answer and every later call returns
    the same answer and leaves object and log as they are.  If the query
    fails, the call returns false and leaves the object as it was, and
    the next call makes the query again. *)
Theorem lazy_classification `{Header} (dirname : string) (r : opendir_result)
    (d : vtkDICOMFileDirectory) (cs : list call) (s : state) (fs : FileSystem)
    (i : Z) (e : Entry.t) :
  0 < TypeDirectory < 65536 → 0 < TypeSymlink < 65536 →
  ctor dirname (posix r) = Some d → do_calls true cs (mkState d []) = Some s →
  0 ≤ i < NumberOfFiles (dir s) → entry_at (dir s) i = Some e →
  let path := PushBack (Name (dir s)) (Entry.Name e) in
  (Z.land (Entry.Mask e) TypeDirectory = 0 →
   ∃ b s1,
     IsDirectory true fs i s = Some (b, s1) ∧
     queries s1 = queries s ++ [q_stat path] ∧
     match stat fs path with
     | Some st_mode =>
         b = Sys.S_ISDIR st_mode ∧
         ∀ fs', IsDirectory true fs' i s1 = Some (b, s1)
     | None =>
         b = false ∧ dir s1 = dir s ∧
         ∀ fs', ∃ b2 s2, IsDirectory true fs' i s1 = Some (b2, s2) ∧
                         queries s2 = queries s1 ++ [q_stat path]
     end) ∧
  (Z.land (Entry.Mask e) TypeSymlink = 0 →
   ∃ b s1,
     IsSymlink true fs i s = Some (b, s1) ∧
     queries s1 = queries s ++ [q_lstat path] ∧
     match lstat fs path with
     | Some st_mode =>
         b = Sys.S_ISLNK st_mode ∧
         ∀ fs', IsSymlink true fs' i s1 = Some (b, s1)
     | None =>
         b = false ∧ dir s1 = dir s ∧
         ∀ fs', ∃ b2 s2, IsSymlink true fs' i s1 = Some (b2, s2) ∧
                         queries s2 = queries s1 ++ [q_lstat path]
     end).
Proof.
  intros HD HS Hc Hrun Hi He path.
  destruct (ctor_wf _ _ _ Hc) as (Hwf0 & _ & _).
  destruct (do_calls_wf true cs (mkState d []) Hwf0) as (s' & Hrun' & Hwf & _).
  rewrite Hrun in Hrun'. injection Hrun' as <-.
  split; intros Hm.
  - destruct (type_query_lazy TypeDirectory (stat fs) q_stat Sys.S_ISDIR i s e
                HD Hwf Hi He Hm) as (b & s1 & Hcall & Hlog & Hnext).
    exists b, s1. split; [exact Hcall|]. split; [exact Hlog|].
    fold path in Hnext. destruct (stat fs path).
    + destruct Hnext as [Hb Hagain]. split; [exact Hb|].
      intros fs'. apply (Hagain (stat fs')).
    + destruct Hnext as (Hb & Hdir & Hagain). split; [exact Hb|]. split; [exact Hdir|].
      intros fs'. apply (Hagain (stat fs')).
  - destruct (type_query_lazy TypeSymlink (lstat fs) q_lstat Sys.S_ISLNK i s e
                HS Hwf Hi He Hm) as (b & s1 & Hcall & Hlog & Hnext).
    exists b, s1. split; [exact Hcall|]. split; [exact Hlog|].
    fold path in Hnext. destruct (lstat fs path).
    + destruct Hnext as [Hb Hagain]. split; [exact Hb|].
      intros fs'. apply (Hagain (lstat fs')).
    + destruct Hnext as (Hb & Hdir & Hagain). split; [exact Hb|]. split; [exact Hdir|].
      intros fs'. apply (Hagain (lstat fs')).
Qed.

(** On a Win32 build neither accessor queries the file system or changes
    the object. *)
Lemma win32_build_never_queries `{Header} (fs : FileSystem) (i : Z) (s : state) :
  wf_dir entry_ok (dir s) →
  (∃ b, IsDirectory false fs i s = Some (b, s)) ∧
  (∃ b, IsSymlink false fs i s = Some (b, s)).
Proof.
  intros Hwf. rewrite IsDirectory_type_query, IsSymlink_type_query.
  destruct (decide (0 ≤ i < NumberOfFiles (dir s))) as [Hi|Hout].
  - destruct (wf_entry_at _ _ _ Hwf Hi) as (e & He & _).
    rewrite !(type_query_cached _ _ _ _ _ _ _ Hi He false) by (left; reflexivity). eauto.
  - rewrite !type_query_out_of_range by lia. eauto.
Qed.

(** A POSIX listing of one entry that is a directory. *)
Lemma lazy_classification_witness :
  ∃ d s1, @ctor sample_Header "dir" (posix (opendir_dir ["x"])) = Some d ∧
          @IsDirectory sample_Header true directories_fs 0 (mkState d []) = Some (true, s1) ∧
          queries s1 = [q_stat "dir/x"] ∧
          ∀ fs', @IsDirectory sample_Header true fs' 0 s1 = Some (true, s1).
Proof.
  eexists.
  destruct (@lazy_classification sample_Header "dir" (opendir_dir ["x"]) _ []
              (mkState _ []) directories_fs 0 (Entry.mk "x" 0 0)
              ltac:(simpl; lia) ltac:(simpl; lia) eq_refl eq_refl
              ltac:(simpl; lia) eq_refl) as [Hdir _].
  destruct (Hdir eq_refl) as (b & s1 & Hcall & Hlog & Hb & Hnext).
  change (Sys.S_ISDIR Sys.S_IFDIR) with true in Hb. subst b.
  exists s1. split; [reflexivity|]. split; [exact Hcall|]. split; [exact Hlog|exact Hnext].
Defined.

(** C5, as stated, fails: an entry whose [stat] fails (a dangling
    symbolic link) stays unresolved after the first [IsDirectory] call,
    and the second call queries the file system again. *)
Lemma lazy_classification_counterexample :
  ∃ d s1 s2,
    @ctor sample_Header "dir" (posix (opendir_dir ["x"])) = Some d ∧
    @IsDirectory sample_Header true failing_fs 0 (mkState d []) = Some (false, s1) ∧
    @IsDirectory sample_Header true failing_fs 0 s1 = Some (false, s2) ∧
    queries s1 = [q_stat "dir/x"] ∧
    queries s2 = [q_stat "dir/x"; q_stat "dir/x"].
Proof. do 3 eexists. repeat split; reflexivity. Qed.

End FileDirectoryFacts.

(** ** The sequence item *)

Module SequenceItemFacts.
Import SequenceItem SequenceItemInv.

Section Heap.
Context `{DataElement}.

Lemma acquire_live (l : addr) (Lst : List) (m : memory) :
  lists m !! l = Some Lst →
  acquire (Some l) m
  = Some (store_List l (set_ReferenceCount (to_uint (ReferenceCount Lst + 1)) Lst) m).
Proof. intros Hl. unfold acquire. rewrite Hl. reflexivity. Qed.

Lemma release_live (l : addr) (Lst : List) (m : memory) :
  lists m !! l = Some Lst →
  release (Some l) m
  = Some (if to_uint (ReferenceCount Lst - 1) =? 0
          then mkMem (delete l (lists m)) (deleted_lists m ++ [l])
                 (List_dtor_loop l 0 (nodes Lst) (deleted_nodes m))
          else store_List l
                 (set_ReferenceCount (to_uint (ReferenceCount Lst - 1)) Lst) m).
Proof.
  intros Hl. unfold release. rewrite Hl. simpl.
  destruct (to_uint (ReferenceCount Lst - 1) =? 0); [|reflexivity].
  unfold delete_List, store_List. simpl.
  rewrite lookup_insert_eq. simpl. rewrite delete_insert_eq. reflexivity.
Qed.

Lemma Some_bind {A B : Type} (x : A) (f : A → option B) : Some x ≫= f = f x.
Proof. reflexivity. Qed.

Lemma find_put_tag (tag : vtkDICOMTag) (v : vtkDICOMValue)
    (ns : list (vtkDICOMTag * vtkDICOMValue)) :
  find_tag tag (put_tag tag v ns) = Some v.
Proof.
  induction ns as [|[t w] ns IH]; simpl.
  - destruct (decide (tag = tag)); [reflexivity|contradiction].
  - destruct (decide (t = tag)) as [->|Hne]; simpl.
    + destruct (decide (tag = tag)); [reflexivity|contradiction].
    + destruct (decide (t = tag)); [contradiction|exact IH].
Qed.
End Heap.

(** C9: an item whose [L] is null, as the default constructor and
    [Clear] leave it, has the null iterator for both [GetData()] and
    [GetDataEnd()], 0 for [GetNumberOfDataElements()] and true for
    [IsEmpty()], in every heap; neither the default constructor nor this
    reading allocates a list. *)
Theorem empty_item `{DataElement} (m : memory) :
  L ctor = None ∧
  (∀ this this' m', Clear this m = Some (this', m') → L this' = None) ∧
  ∀ this, L this = None →
    GetData this m = Some iter_null ∧
    GetDataEnd this m = Some iter_null ∧
    GetData this m = GetDataEnd this m ∧
    GetNumberOfDataElements this m = Some 0 ∧
    IsEmpty this = true.
Proof.
  split; [reflexivity|]. split.
  - intros this this' m' Hclear. unfold Clear in Hclear.
    destruct (release (L this) m); [|discriminate].
    injection Hclear as <- _. reflexivity.
  - intros this Hnull.
    unfold GetData, GetDataEnd, GetNumberOfDataElements, IsEmpty.
    rewrite Hnull. repeat split.
Qed.

(** The default-constructed item in the empty heap. *)
Lemma empty_item_witness :
  let m := @mkMem sample_DataElement ∅ [] [] in
  GetData ctor m = Some iter_null ∧
  GetDataEnd ctor m = Some iter_null ∧
  GetNumberOfDataElements ctor m = Some 0 ∧
  IsEmpty ctor = true.
Proof.
  intros m.
  destruct (@empty_item sample_DataElement m) as (_ & _ & Hnull).
  destruct (Hnull ctor eq_refl) as (H1 & H2 & _ & H3 & H4). auto.
Defined.

(** C8: an assignment from an item that holds the same list pointer,
    the item itself included, changes neither item nor heap.  An
    assignment to an item on the list [lt] from an item on a different
    list [lo] makes the item point to [lo], puts the count of [lo]
    through one [++] (one more, whenever the count is below UINT_MAX),
    puts the count of [lt] through one [--] (one less, whenever the count
    is at least 1), deletes [lt] exactly when that leaves 0, and touches
    no other list. *)
Theorem assign_reference_counts `{DataElement} (this o : vtkDICOMSequenceItem)
    (m : memory) :
  (L this = L o → assign this o m = Some (this, m)) ∧
  assign this this m = Some (this, m) ∧
  ∀ lt lo Lt Lo,
    L this = Some lt → L o = Some lo → lt ≠ lo →
    lists m !! lt = Some Lt → lists m !! lo = Some Lo →
    ∃ m', assign this o m = Some (mkItem (Some lo), m') ∧
          ReferenceCount <$> lists m' !! lo = Some (to_uint (ReferenceCount Lo + 1)) ∧
          (0 ≤ ReferenceCount Lo < UINT_MAX →
           ReferenceCount <$> lists m' !! lo = Some (ReferenceCount Lo + 1)) ∧
          (if to_uint (ReferenceCount Lt - 1) =? 0
           then lists m' !! lt = None ∧ deleted_lists m' = deleted_lists m ++ [lt]
           else ReferenceCount <$> lists m' !! lt = Some (to_uint (ReferenceCount Lt - 1)) ∧
                deleted_lists m' = deleted_lists m) ∧
          (1 ≤ ReferenceCount Lt ≤ UINT_MAX →
           to_uint (ReferenceCount Lt - 1) = ReferenceCount Lt - 1) ∧
          ∀ l, l ≠ lt → l ≠ lo → lists m' !! l = lists m !! l.
Proof.
  split; [|split].
  - intros Hsame. unfold assign. destruct (decide (L this ≠ L o)); [contradiction|reflexivity].
  - unfold assign. destruct (decide (L this ≠ L this)); [contradiction|reflexivity].
  - intros lt lo Lt Lo Ht Ho Hne Hlt Hlo. unfold assign.
    destruct (decide (L this ≠ L o)) as [_|Heq]; [|exfalso; apply Heq; congruence].
    rewrite Ho, Ht, (acquire_live _ _ _ Hlo), Some_bind.
    rewrite (release_live lt Lt) by (simpl; rewrite lookup_insert_ne by congruence; exact Hlt).
    rewrite Some_bind. eexists. split; [reflexivity|].
    destruct (to_uint (ReferenceCount Lt - 1) =? 0) eqn:Hzero; simpl.
    + rewrite lookup_delete_ne, lookup_insert_eq by congruence. simpl.
      split; [reflexivity|]. split.
      { intros Hr. rewrite to_uint_id by lia. reflexivity. }
      split; [split; [apply lookup_delete_eq|reflexivity]|].
      split; [intros Hr; apply to_uint_id; lia|].
      intros l H1 H2. rewrite lookup_delete_ne, lookup_insert_ne by congruence. reflexivity.
    + rewrite lookup_insert_ne, lookup_insert_eq by congruence. simpl.
      split; [reflexivity|]. split.
      { intros Hr. rewrite to_uint_id by lia. reflexivity. }
      split; [split; [rewrite lookup_insert_eq; reflexivity|reflexivity]|].
      split; [intros Hr; apply to_uint_id; lia|].
      intros l H1 H2. rewrite !lookup_insert_ne by congruence. reflexivity.
Qed.

(** The only item on the list 1 is assigned an item on the list 2, which
    three items share. *)
Lemma assign_reference_counts_witness :
  let m := @mkMem sample_DataElement
             {[ 1%positive := mkList 1 0 []; 2%positive := mkList 3 0 [] ]} [] [] in
  ∃ m', assign (mkItem (Some 1%positive)) (mkItem (Some 2%positive)) m
        = Some (mkItem (Some 2%positive), m') ∧
        ReferenceCount <$> lists m' !! 2%positive = Some 4 ∧
        lists m' !! 1%positive = None ∧ deleted_lists m' = [1%positive].
Proof.
  intros m.
  destruct (@assign_reference_counts sample_DataElement
              (mkItem (Some 1%positive)) (mkItem (Some 2%positive)) m)
    as (_ & _ & Hdiff).
  destruct (Hdiff 1%positive 2%positive (mkList 1 0 []) (mkList 3 0 [])
              eq_refl eq_refl ltac:(discriminate) eq_refl eq_refl)
    as (m' & Hrun & _ & Hinc & Hdec & _).
  exists m'. split; [exact Hrun|]. split; [apply Hinc; simpl; unfold UINT_MAX; lia|].
  exact Hdec.
Defined.

(** A copy of [A] followed by [A.SetAttributeValue(T, V2)], on a list
    whose reference count is at least 1 and below UINT_MAX: both return,
    [A] moves to a private clone that binds [T] to [V2], and the list
    the copy is on keeps its nodes. *)
Lemma copy_then_set `{DataElement} (A : vtkDICOMSequenceItem) (m : memory)
    (l : addr) (Lst : List) (T : vtkDICOMTag) (V2 : vtkDICOMValue) :
  L A = Some l → lists m !! l = Some Lst →
  1 ≤ ReferenceCount Lst < UINT_MAX →
  (find_tag T (nodes Lst) = None → NumberOfDataElements Lst < INT_MAX) →
  ∃ B m1 A' m2,
    copy_ctor A m = Some (B, m1) ∧
    SetAttributeValue T V2 A m1 = Some (A', m2) ∧
    L B = Some l ∧
    GetAttributeValue T A' m2 = Some (Some V2) ∧
    ∀ C T', L C = Some l → GetAttributeValue T' C m2 = Some (find_tag T' (nodes Lst)).
Proof.
  intros HA Hl Hrc Hroom.
  set (Lst1 := set_ReferenceCount (ReferenceCount Lst + 1) Lst).
  set (m1 := store_List l Lst1 m).
  assert (Hcopy : copy_ctor A m = Some (mkItem (Some l), m1)).
  { unfold copy_ctor. rewrite HA, (acquire_live _ _ _ Hl), Some_bind.
    rewrite to_uint_id by (unfold UINT_MAX in *; lia). reflexivity. }
  assert (Hl1 : lists m1 !! l = Some Lst1) by apply lookup_insert_eq.
  set (t := fresh (dom (lists m1) ∪ list_to_set (deleted_lists m1) : gset addr)).
  assert (Hfresh : t ≠ l).
  { intros Heq.
    apply (is_fresh (dom (lists m1) ∪ list_to_set (deleted_lists m1) : gset addr)).
    fold t. rewrite Heq. apply elem_of_union_l, elem_of_dom. rewrite Hl1. eauto. }
  set (m2 := store_List t (CopyList Lst1 List_ctor) (store_List t List_ctor m1)).
  assert (Hl2 : lists m2 !! l = Some Lst1).
  { unfold m2; simpl. rewrite !lookup_insert_ne by congruence. exact Hl1. }
  set (m3 := store_List l (set_ReferenceCount (ReferenceCount Lst) Lst1) m2).
  assert (Hl3 : lists m3 !! t = Some (CopyList Lst1 List_ctor)).
  { unfold m3, m2; simpl. rewrite lookup_insert_ne, lookup_insert_eq by congruence.
    reflexivity. }
  assert (Hclone : SetAttributeValue T V2 A m1
                   = (m4 ← insert_element T V2 t m3; Some (mkItem (Some t), m4))).
  { unfold SetAttributeValue. rewrite HA, Hl1, Some_bind.
    change (ReferenceCount Lst1) with (ReferenceCount Lst + 1).
    destruct (Z.ltb_spec 1 (ReferenceCount Lst + 1)) as [_|]; [|lia].
    unfold new_List. fold t. fold m2.
    rewrite (release_live l Lst1 m2 Hl2), Some_bind.
    change (ReferenceCount Lst1) with (ReferenceCount Lst + 1).
    replace (ReferenceCount Lst + 1 - 1) with (ReferenceCount Lst) by lia.
    rewrite to_uint_id by (unfold UINT_MAX in *; lia).
    destruct (Z.eqb_spec (ReferenceCount Lst) 0) as [|_]; [lia|].
    fold m3. reflexivity. }
  assert (Hins : ∃ n, insert_element T V2 t m3
                      = Some (store_List t (mkList 1 n (put_tag T V2 (nodes Lst))) m3)).
  { unfold insert_element. rewrite Hl3, Some_bind. simpl.
    destruct (find_tag T (nodes Lst)) as [V1|] eqn:Hfind; [eauto|].
    specialize (Hroom eq_refl).
    destruct (Z.ltb_spec INT_MAX (NumberOfDataElements Lst + 1)); [lia|eauto]. }
  destruct Hins as [n Hins].
  set (m4 := store_List t (mkList 1 n (put_tag T V2 (nodes Lst))) m3).
  exists (mkItem (Some l)), m1, (mkItem (Some t)), m4.
  split; [exact Hcopy|]. split; [rewrite Hclone, Hins; reflexivity|].
  split; [reflexivity|]. split.
  - unfold GetAttributeValue, m4. simpl. rewrite lookup_insert_eq. simpl.
    rewrite find_put_tag. reflexivity.
  - intros C T' HC. unfold GetAttributeValue. rewrite HC. unfold m4, m3; simpl.
    rewrite lookup_insert_ne, lookup_insert_eq by congruence. reflexivity.
Qed.

(** C1, as amended, on the member functions as the spec describes them:
    for every item A on a live list that is referenced by fewer than
    UINT_MAX items (a reference count of at least 1 and below UINT_MAX),
    and for every tag T and value V2, the copy B of A and the call
    A.SetAttributeValue(T, V2) both return.  If A bound T to V1, then
    afterwards B, and every item on the list B is on, still yields V1
    for T and for every tag what A yielded before, while A yields V2.
    If A did not bind T, and its list has fewer than INT_MAX elements,
    then afterwards B, and every item on the list B is on, still does
    not bind T and yields for every tag what A yielded before, while A
    yields V2. *)
Theorem copy_on_write `{DataElement} (A : vtkDICOMSequenceItem) (m : memory)
    (l : addr) (Lst : List) (T : vtkDICOMTag) (V2 : vtkDICOMValue) :
  L A = Some l → lists m !! l = Some Lst →
  1 ≤ ReferenceCount Lst < UINT_MAX →
  (∀ V1, GetAttributeValue T A m = Some (Some V1) →
     ∃ B m1 A' m2,
       copy_ctor A m = Some (B, m1) ∧
       SetAttributeValue T V2 A m1 = Some (A', m2) ∧
       GetAttributeValue T B m2 = Some (Some V1) ∧
       GetAttributeValue T A' m2 = Some (Some V2) ∧
       ∀ C T', L C = L B → GetAttributeValue T' C m2 = GetAttributeValue T' A m) ∧
  (GetAttributeValue T A m = Some None → NumberOfDataElements Lst < INT_MAX →
     ∃ B m1 A' m2,
       copy_ctor A m = Some (B, m1) ∧
       SetAttributeValue T V2 A m1 = Some (A', m2) ∧
       GetAttributeValue T B m2 = Some None ∧
       GetAttributeValue T A' m2 = Some (Some V2) ∧
       ∀ C T', L C = L B → GetAttributeValue T' C m2 = GetAttributeValue T' A m).
Proof.
  intros HA Hl Hrc.
  assert (Hbefore : ∀ T', GetAttributeValue T' A m = Some (find_tag T' (nodes Lst))).
  { intros T'. unfold GetAttributeValue. rewrite HA, Hl. reflexivity. }
  split.
  - intros V1 Hget. rewrite Hbefore in Hget.
    destruct (copy_then_set A m l Lst T V2 HA Hl Hrc)
      as (B & m1 & A' & m2 & Hcopy & Hset & HB & HA' & Hview); [congruence|].
    exists B, m1, A', m2. split; [exact Hcopy|]. split; [exact Hset|].
    split; [rewrite (Hview B T HB); exact Hget|]. split; [exact HA'|].
    intros C T' HC. rewrite (Hview C T') by congruence. rewrite Hbefore. reflexivity.
  - intros Hget Hroom. rewrite Hbefore in Hget.
    destruct (copy_then_set A m l Lst T V2 HA Hl Hrc)
      as (B & m1 & A' & m2 & Hcopy & Hset & HB & HA' & Hview); [intros _; exact Hroom|].
    exists B, m1, A', m2. split; [exact Hcopy|]. split; [exact Hset|].
    split; [rewrite (Hview B T HB); exact Hget|]. split; [exact HA'|].
    intros C T' HC. rewrite (Hview C T') by congruence. rewrite Hbefore. reflexivity.
Qed.

(** One item on a list that binds the tag 8 and not the tag 16: a
    replacement and an insertion. *)
Lemma copy_on_write_witness :
  let m := @mkMem sample_DataElement
             {[ 1%positive := @mkList sample_DataElement 1 1 [(8, "V1"%string)] ]} [] [] in
  let A := mkItem (Some 1%positive) in
  (∃ B m1 A' m2,
     copy_ctor A m = Some (B, m1) ∧
     @SetAttributeValue sample_DataElement 8 "V2"%string A m1 = Some (A', m2) ∧
     @GetAttributeValue sample_DataElement 8 B m2 = Some (Some "V1"%string) ∧
     @GetAttributeValue sample_DataElement 8 A' m2 = Some (Some "V2"%string)) ∧
  (∃ B m1 A' m2,
     copy_ctor A m = Some (B, m1) ∧
     @SetAttributeValue sample_DataElement 16 "V2"%string A m1 = Some (A', m2) ∧
     @GetAttributeValue sample_DataElement 16 B m2 = Some None ∧
     @GetAttributeValue sample_DataElement 16 A' m2 = Some (Some "V2"%string)).
Proof.
  intros m A. split.
  - destruct (@copy_on_write sample_DataElement A m 1%positive
                (@mkList sample_DataElement 1 1 [(8, "V1"%string)]) 8 "V2"%string
                eq_refl eq_refl ltac:(simpl; unfold UINT_MAX; lia)) as [Hbound _].
    destruct (Hbound "V1"%string eq_refl) as (B & m1 & A' & m2 & H1 & H2 & H3 & H4 & _).
    exists B, m1, A', m2. auto.
  - destruct (@copy_on_write sample_DataElement A m 1%positive
                (@mkList sample_DataElement 1 1 [(8, "V1"%string)]) 16 "V2"%string
                eq_refl eq_refl ltac:(simpl; unfold UINT_MAX; lia)) as [_ Hfree].
    destruct (Hfree eq_refl ltac:(simpl; unfold INT_MAX; lia))
      as (B & m1 & A' & m2 & H1 & H2 & H3 & H4 & _).
    exists B, m1, A', m2. auto.
Defined.

(** C1, as stated, fails: an item A on a list that UINT_MAX items share
    binds the tag 8 to V1.  The copy B of A is the 2^32-th reference and
    wraps the reference count to 0; so A.SetAttributeValue(8, V2) finds
    a count that does not exceed 1, writes into the shared list, and B
    yields V2. *)
Lemma copy_on_write_counterexample :
  let m := @mkMem sample_DataElement
             {[ 1%positive := @mkList sample_DataElement UINT_MAX 1 [(8, "V1"%string)] ]}
             [] [] in
  let A := mkItem (Some 1%positive) in
  @GetAttributeValue sample_DataElement 8 A m = Some (Some "V1"%string) ∧
  ∃ B m1 A' m2,
    copy_ctor A m = Some (B, m1) ∧
    ReferenceCount <$> lists m1 !! 1%positive = Some 0 ∧
    @SetAttributeValue sample_DataElement 8 "V2"%string A m1 = Some (A', m2) ∧
    @GetAttributeValue sample_DataElement 8 B m2 = Some (Some "V2"%string) ∧
    @GetAttributeValue sample_DataElement 8 B m2 ≠ Some (Some "V1"%string).
Proof.
  intros m A. split; [reflexivity|].
  eexists _, _, _, _. split; [reflexivity|]. split; [reflexivity|].
  split; [reflexivity|]. split; [reflexivity|].
  vm_compute. discriminate.
Qed.

(** *** Counting the references of a list *)

Lemma references_insert_None (its : gmap N vtkDICOMSequenceItem) (x : N)
    (it : vtkDICOMSequenceItem) (l : addr) :
  its !! x = None →
  Z.of_nat (references l (<[x := it]> its))
  = Z.of_nat (references l its) + points (L it) l.
Proof.
  intros Hx. unfold references, points. rewrite map_filter_insert. simpl.
  destruct (decide (L it = Some l)) as [Hit|Hit].
  - rewrite map_size_insert_None; [lia|].
    apply map_lookup_filter_None_2. left. exact Hx.
  - rewrite delete_id by exact Hx. lia.
Qed.

Lemma references_delete (its : gmap N vtkDICOMSequenceItem) (x : N)
    (it : vtkDICOMSequenceItem) (l : addr) :
  its !! x = Some it →
  Z.of_nat (references l its)
  = Z.of_nat (references l (delete x its)) + points (L it) l.
Proof.
  intros Hx. rewrite <- (insert_delete_id its x it Hx) at 1.
  apply references_insert_None, lookup_delete_eq.
Qed.

Lemma references_update (its : gmap N vtkDICOMSequenceItem) (x : N)
    (it it' : vtkDICOMSequenceItem) (l : addr) :
  its !! x = Some it →
  Z.of_nat (references l (<[x := it']> its))
  = Z.of_nat (references l its) + points (L it') l - points (L it) l.
Proof.
  intros Hx. rewrite <- (insert_delete_eq its x it').
  rewrite references_insert_None by apply lookup_delete_eq.
  rewrite (references_delete its x it l Hx). lia.
Qed.

Lemma references_pos (its : gmap N vtkDICOMSequenceItem) (x : N)
    (it : vtkDICOMSequenceItem) (l : addr) :
  its !! x = Some it → L it = Some l → 1 ≤ Z.of_nat (references l its).
Proof.
  intros Hx Hl. rewrite (references_delete its x it l Hx).
  unfold points. destruct (decide (L it = Some l)); [lia|contradiction].
Qed.

Lemma references_le_size (its : gmap N vtkDICOMSequenceItem) (l : addr) :
  (references l its ≤ size its)%nat.
Proof. unfold references. apply map_subseteq_size, map_filter_subseteq. Qed.

Lemma points_None (l : addr) : points None l = 0.
Proof. reflexivity. Qed.

Lemma points_Some (l l' : addr) : points (Some l) l' = if decide (l = l') then 1 else 0.
Proof.
  unfold points. destruct (decide (Some l = Some l')) as [Heq|Hne];
    destruct (decide (l = l')); congruence.
Qed.

Section Transfer.
Context `{DataElement}.

Lemma List_dtor_loop_spec (l : addr) (ns : list (vtkDICOMTag * vtkDICOMValue))
    (k : nat) (deleted : list (addr * nat)) :
  List_dtor_loop l k ns deleted = deleted ++ ((λ j, (l, j)) <$> seq k (length ns)).
Proof.
  revert k deleted. induction ns as [|n ns IH]; intros k deleted; simpl.
  - rewrite app_nil_r. reflexivity.
  - rewrite IH, <- app_assoc. reflexivity.
Qed.

Lemma counted_ext (f g : addr → Z) (m : memory) :
  (∀ l, f l = g l) → counted f m → counted g m.
Proof. intros Hfg Hc l Lst Hl. rewrite <- Hfg. exact (Hc l Lst Hl). Qed.

Lemma evolves_refl (m : memory) : logs_ok m → evolves m m.
Proof.
  intros (_ & Hdel & _). split; [|auto].
  intros l Lst Hl. left. exists Lst. split; [exact Hl|]. split; [reflexivity|].
  intros Hin. rewrite (Hdel l Hin) in Hl. discriminate.
Qed.

Lemma evolves_trans (m1 m2 m3 : memory) :
  evolves m1 m2 → evolves m2 m3 → evolves m1 m3.
Proof.
  intros (Ha1 & Hb1 & Hc1 & Hd1) (Ha2 & Hb2 & Hc2 & Hd2).
  split; [|split; [|split]]; [|auto..].
  intros l Lst Hl. destruct (Ha1 l Lst Hl) as [(Lst2 & Hl2 & Hn2 & _)|(Hl2 & Hin & Hnodes)].
  - destruct (Ha2 l Lst2 Hl2) as [(Lst3 & Hl3 & Hn3 & Hout)|(Hl3 & Hin & Hnodes)].
    + left. exists Lst3. split; [exact Hl3|]. split; [congruence|exact Hout].
    + right. split; [exact Hl3|]. split; [exact Hin|]. rewrite <- Hn2. exact Hnodes.
  - right. split; [auto|]. split; [auto|]. intros k Hk. auto.
Qed.

(** [if (p) { p->ReferenceCount++; }] on a counted heap. *)
Lemma acquire_step (f : addr → Z) (p : option addr) (m : memory) :
  counted f m → logs_ok m →
  (∀ l, p = Some l → is_Some (lists m !! l) ∧ f l + 1 ≤ UINT_MAX) →
  ∃ m1, acquire p m = Some m1 ∧
        counted (λ l, f l + points p l) m1 ∧ logs_ok m1 ∧ evolves m m1 ∧
        ∀ l, is_Some (lists m !! l) → is_Some (lists m1 !! l).
Proof.
  intros Hc Hlogs Hp. destruct p as [l|].
  - destruct (Hp l eq_refl) as [[Lst Hl] Hmax].
    destruct (Hc l Lst Hl) as [Hrc Hrange].
    rewrite (acquire_live _ _ _ Hl). eexists. split; [reflexivity|].
    rewrite Hrc, to_uint_id by lia.
    destruct Hlogs as (Hnd & Hdel & Hndn & Hdn).
    assert (Hlive : ∀ l', l' ∈ deleted_lists m → l' ≠ l).
    { intros l' Hin ->. rewrite (Hdel l Hin) in Hl. discriminate. }
    split; [|split; [|split]].
    + intros l' Lst' Hl'. simpl in Hl'. rewrite points_Some.
      destruct (decide (l = l')) as [<-|Hne].
      * rewrite lookup_insert_eq in Hl'. injection Hl' as <-. simpl. lia.
      * rewrite lookup_insert_ne in Hl' by exact Hne.
        destruct (Hc l' Lst' Hl'). split; lia.
    + split; [exact Hnd|]. split; [|split; [exact Hndn|exact Hdn]].
      intros l' Hin. simpl. rewrite lookup_insert_ne by (apply not_eq_sym; auto). auto.
    + split; [|split; [|auto]].
      * intros l' Lst' Hl'. left. simpl. destruct (decide (l = l')) as [<-|Hne].
        -- rewrite lookup_insert_eq. eexists. split; [reflexivity|].
           rewrite Hl in Hl'. injection Hl' as <-. split; [reflexivity|].
           intros Hin. exact (Hlive l Hin eq_refl).
        -- rewrite lookup_insert_ne by exact Hne. exists Lst'.
           split; [exact Hl'|]. split; [reflexivity|].
           intros Hin. rewrite (Hdel l' Hin) in Hl'. discriminate.
      * intros l' Hl'. simpl. rewrite lookup_insert_ne; [exact Hl'|].
        intros <-. rewrite Hl in Hl'. discriminate.
    + intros l' Hl'. simpl. destruct (decide (l = l')) as [<-|Hne].
      * rewrite lookup_insert_eq. eauto.
      * rewrite lookup_insert_ne by exact Hne. exact Hl'.
  - exists m. split; [reflexivity|]. split; [|split; [exact Hlogs|split; [|auto]]].
    + apply (counted_ext f); [|exact Hc]. intros l. rewrite points_None. lia.
    + apply evolves_refl, Hlogs.
Qed.

(** [if (p && --p->ReferenceCount == 0) { delete p; }] on a counted
    heap. *)
Lemma release_step (f : addr → Z) (p : option addr) (m : memory) :
  counted f m → logs_ok m →
  (∀ l, p = Some l → is_Some (lists m !! l)) →
  ∃ m2, release p m = Some m2 ∧
        counted (λ l, f l - points p l) m2 ∧ logs_ok m2 ∧ evolves m m2 ∧
        ∀ l, is_Some (lists m !! l) → is_Some (lists m2 !! l) ∨ (p = Some l ∧ f l = 1).
Proof.
  intros Hc Hlogs Hp. destruct p as [l|].
  - destruct (Hp l eq_refl) as [Lst Hl].
    destruct (Hc l Lst Hl) as [Hrc Hrange].
    rewrite (release_live _ _ _ Hl). eexists. split; [reflexivity|].
    rewrite Hrc, to_uint_id by lia.
    destruct Hlogs as (Hnd & Hdel & Hndn & Hdn).
    assert (Hlive : ∀ l', l' ∈ deleted_lists m → l' ≠ l).
    { intros l' Hin ->. rewrite (Hdel l Hin) in Hl. discriminate. }
    destruct (Z.eqb_spec (f l - 1) 0) as [Hone|Hmore].
    + rewrite List_dtor_loop_spec. split; [|split; [|split]].
      * intros l' Lst' Hl'. simpl in Hl'. rewrite points_Some.
        destruct (decide (l = l')) as [<-|Hne].
        -- rewrite lookup_delete_eq in Hl'. discriminate.
        -- rewrite lookup_delete_ne in Hl' by exact Hne.
           destruct (Hc l' Lst' Hl'). split; lia.
      * simpl. split; [|split; [|split]].
        -- apply NoDup_app. split; [exact Hnd|]. split; [|apply NoDup_singleton].
           intros l' Hin Hl'. apply list_elem_of_singleton in Hl'. exact (Hlive l' Hin Hl').
        -- intros l' Hin. apply lookup_delete_None.
           apply elem_of_app in Hin as [Hin|Hin]; [right; auto|].
           apply list_elem_of_singleton in Hin. left. congruence.
        -- apply NoDup_app. split; [exact Hndn|]. split.
           ++ intros [l' k] Hin Hnew. apply list_elem_of_fmap in Hnew as (j & Heq & _).
              injection Heq as -> _. exact (Hlive l (Hdn l k Hin) eq_refl).
           ++ apply NoDup_fmap_2; [|apply NoDup_seq]. intros j1 j2 Heq. congruence.
        -- intros l' k Hin. apply elem_of_app.
           apply elem_of_app in Hin as [Hin|Hin]; [left; eauto|].
           apply list_elem_of_fmap in Hin as (j & Heq & _). injection Heq as -> _.
           right. apply list_elem_of_singleton. reflexivity.
      * split; [|split; [|split]]; simpl.
        -- intros l' Lst' Hl'. destruct (decide (l = l')) as [<-|Hne].
           ++ right. rewrite Hl in Hl'. injection Hl' as <-.
              split; [apply lookup_delete_eq|].
              split; [apply elem_of_app; right; apply list_elem_of_singleton; reflexivity|].
              intros k Hk. apply elem_of_app. right.
              apply list_elem_of_fmap. exists k. split; [reflexivity|].
              apply elem_of_seq. lia.
           ++ left. exists Lst'. rewrite lookup_delete_ne by exact Hne.
              split; [exact Hl'|]. split; [reflexivity|].
              intros Hin. apply elem_of_app in Hin as [Hin|Hin].
              ** rewrite (Hdel l' Hin) in Hl'. discriminate.
              ** apply list_elem_of_singleton in Hin. congruence.
        -- intros l' Hl'. apply lookup_delete_None. right. exact Hl'.
        -- intros l' Hin. apply elem_of_app. left. exact Hin.
        -- intros n Hin. apply elem_of_app. left. exact Hin.
      * intros l' Hl'. simpl. destruct (decide (l = l')) as [<-|Hne].
        -- right. split; [reflexivity|lia].
        -- left. rewrite lookup_delete_ne by exact Hne. exact Hl'.
    + split; [|split; [|split]].
      * intros l' Lst' Hl'. simpl in Hl'. rewrite points_Some.
        destruct (decide (l = l')) as [<-|Hne].
        -- rewrite lookup_insert_eq in Hl'. injection Hl' as <-. simpl. lia.
        -- rewrite lookup_insert_ne in Hl' by exact Hne.
           destruct (Hc l' Lst' Hl'). split; lia.
      * split; [exact Hnd|]. split; [|split; [exact Hndn|exact Hdn]].
        intros l' Hin. simpl. rewrite lookup_insert_ne by (apply not_eq_sym; auto). auto.
      * split; [|split; [|auto]].
        -- intros l' Lst' Hl'. left. simpl. destruct (decide (l = l')) as [<-|Hne].
           ++ rewrite lookup_insert_eq. eexists. split; [reflexivity|].
              rewrite Hl in Hl'. injection Hl' as <-. split; [reflexivity|].
              intros Hin. exact (Hlive l Hin eq_refl).
           ++ rewrite lookup_insert_ne by exact Hne. exists Lst'.
              split; [exact Hl'|]. split; [reflexivity|].
              intros Hin. rewrite (Hdel l' Hin) in Hl'. discriminate.
        -- intros l' Hl'. simpl. rewrite lookup_insert_ne; [exact Hl'|].
           intros <-. rewrite Hl in Hl'. discriminate.
      * intros l' Hl'. left. simpl. destruct (decide (l = l')) as [<-|Hne].
        -- rewrite lookup_insert_eq. eauto.
        -- rewrite lookup_insert_ne by exact Hne. exact Hl'.
  - exists m. split; [reflexivity|]. split; [|split; [exact Hlogs|split; [|auto]]].
    + apply (counted_ext f); [|exact Hc]. intros l. rewrite points_None. lia.
    + apply evolves_refl, Hlogs.
Qed.

(** An acquisition followed by a release of another pointer. *)
Lemma transfer_step (f : addr → Z) (p_old p_new : option addr) (m : memory) :
  counted f m → logs_ok m →
  (∀ l, p_new = Some l → is_Some (lists m !! l)) →
  (∀ l, p_old = Some l → is_Some (lists m !! l)) →
  (∀ l, ¬ (p_old = Some l ∧ p_new = Some l)) →
  (∀ l, f l + points p_new l - points p_old l ≤ UINT_MAX) →
  ∃ m2, transfer p_old p_new m = Some m2 ∧
        counted (λ l, f l + points p_new l - points p_old l) m2 ∧
        logs_ok m2 ∧ evolves m m2 ∧
        ∀ l, is_Some (lists m !! l) →
             is_Some (lists m2 !! l) ∨ (p_old = Some l ∧ f l = 1).
Proof.
  intros Hc Hlogs Hnew Hold Hdiff Hmax.
  destruct (acquire_step f p_new m Hc Hlogs) as (m1 & Hacq & Hc1 & Hlogs1 & Hev1 & Hlive1).
  { intros l Hl. split; [auto|]. specialize (Hmax l). specialize (Hdiff l).
    unfold points in Hmax.
    destruct (decide (p_new = Some l)); [|contradiction].
    destruct (decide (p_old = Some l)); [tauto|lia]. }
  destruct (release_step _ p_old m1 Hc1 Hlogs1) as (m2 & Hrel & Hc2 & Hlogs2 & Hev2 & Hlive2).
  { intros l Hl. auto. }
  exists m2. unfold transfer. rewrite Hacq, Some_bind.
  split; [exact Hrel|]. split; [exact Hc2|]. split; [exact Hlogs2|].
  split; [exact (evolves_trans _ _ _ Hev1 Hev2)|].
  intros l Hl. destruct (Hlive2 l (Hlive1 l Hl)) as [|[Hp Hone]]; [left; assumption|].
  right. split; [exact Hp|]. specialize (Hdiff l). unfold points in Hone.
  destruct (decide (p_new = Some l)); [tauto|lia].
Qed.

Lemma transfer_total (p_old p_new : option addr) (m : memory) :
  (∀ l, p_new = Some l → is_Some (lists m !! l)) →
  (∀ l, p_old = Some l → is_Some (lists m !! l)) →
  is_Some (transfer p_old p_new m).
Proof.
  intros Hnew Hold. unfold transfer.
  assert (∃ m1, acquire p_new m = Some m1 ∧
                ∀ l, is_Some (lists m !! l) → is_Some (lists m1 !! l))
    as (m1 & -> & Hlive).
  { destruct p_new as [l|]; [|exists m; auto].
    destruct (Hnew l eq_refl) as [Lst Hl]. rewrite (acquire_live _ _ _ Hl).
    eexists. split; [reflexivity|]. intros l' Hl'. simpl.
    destruct (decide (l = l')) as [<-|Hne];
      [rewrite lookup_insert_eq; eauto|rewrite lookup_insert_ne by exact Hne; exact Hl']. }
  rewrite Some_bind. destruct p_old as [l|]; [|simpl; eauto].
  destruct (Hlive l (Hold l eq_refl)) as [Lst Hl]. rewrite (release_live _ _ _ Hl). eauto.
Qed.

Lemma moves_wf (its its' : gmap N vtkDICOMSequenceItem) (p_old p_new : option addr)
    (m : memory) :
  wf_state (mkProg its m) → moves its its' p_old p_new →
  is_Some (transfer p_old p_new m) ∧
  ∀ m2, transfer p_old p_new m = Some m2 →
        (∀ l, Z.of_nat (references l its') ≤ UINT_MAX) →
        wf_state (mkProg its' m2) ∧ evolves m m2.
Proof.
  intros (Hc & Hlive & Hlogs) (HR & HI & Hnew & Hold & Hdiff & _). simpl in *.
  assert (Hvnew : ∀ l, p_new = Some l → is_Some (lists m !! l)).
  { intros l Hl. destruct (Hnew l Hl) as (x0 & it0 & Hx0 & Hit0). eauto. }
  assert (Hvold : ∀ l, p_old = Some l → is_Some (lists m !! l)).
  { intros l Hl. destruct (Hold l Hl) as (x0 & it0 & Hx0 & Hit0). eauto. }
  split; [apply transfer_total; assumption|].
  intros m2 Hrun Hmax.
  destruct (transfer_step _ p_old p_new m Hc Hlogs Hvnew Hvold Hdiff)
    as (m2' & Hrun' & Hc2 & Hlogs2 & Hev & Hlive2).
  { intros l. rewrite <- HR. apply Hmax. }
  rewrite Hrun in Hrun'. injection Hrun' as <-.
  split; [|exact Hev]. split; [|split; [|exact Hlogs2]]; simpl.
  - apply (counted_ext _ _ _ (λ l, eq_sym (HR l))). exact Hc2.
  - intros x it l Hx Hit.
    destruct (HI x it l Hx Hit) as (x0 & it0 & Hx0 & Hit0).
    destruct (Hlive2 l (Hlive x0 it0 l Hx0 Hit0)) as [|[Hp Hone]]; [assumption|exfalso].
    pose proof (references_pos its' x it l Hx Hit) as Hpos.
    rewrite HR, Hone in Hpos. specialize (Hdiff l). unfold points in Hpos.
    destruct (decide (p_old = Some l)); [|contradiction].
    destruct (decide (p_new = Some l)); [tauto|lia].
Qed.

Lemma transfer_None_l (p : option addr) (m : memory) : transfer None p m = acquire p m.
Proof. unfold transfer. destruct (acquire p m); reflexivity. Qed.

Lemma transfer_None_r (p : option addr) (m : memory) : transfer p None m = release p m.
Proof. reflexivity. Qed.

(** Every statement that is well scoped is such a move. *)
Lemma exec_moves (st : stmt) (s : program_state) :
  exec st s = Ill_scoped ∨
  ∃ its' p_old p_new,
    exec st s = of_memory_result (transfer p_old p_new (mem s)) (mkProg its') ∧
    moves (items s) its' p_old p_new.
Proof.
  destruct st as [x|x o|x o|x|x]; simpl.
  - destruct (items s !! x) as [ix|] eqn:Hx; [left; reflexivity|right].
    exists (<[x := ctor]> (items s)), None, None. split; [reflexivity|].
    split; [|split; [|split; [|split; [|split]]]]; try (intros; discriminate || tauto).
    + intros l. rewrite references_insert_None by exact Hx. simpl.
      rewrite !points_None. lia.
    + intros y it l Hy Hit. destruct (decide (x = y)) as [<-|Hne].
      * rewrite lookup_insert_eq in Hy. injection Hy as <-. discriminate.
      * rewrite lookup_insert_ne in Hy by exact Hne. eauto.
    + intros l [Hl _]. discriminate.
    + rewrite map_size_insert_None by exact Hx. lia.
  - destruct (items s !! x) as [ix|] eqn:Hx; [left; reflexivity|].
    destruct (items s !! o) as [io|] eqn:Ho; [right|left; reflexivity].
    exists (<[x := mkItem (L io)]> (items s)), None, (L io). split.
    + rewrite transfer_None_l. unfold copy_ctor.
      destruct (acquire (L io) (mem s)); reflexivity.
    + split; [|split; [|split; [|split; [|split]]]].
      * intros l. rewrite references_insert_None by exact Hx. simpl.
        rewrite points_None. lia.
      * intros y it l Hy Hit. destruct (decide (x = y)) as [<-|Hne].
        -- rewrite lookup_insert_eq in Hy. injection Hy as <-. simpl in Hit. eauto.
        -- rewrite lookup_insert_ne in Hy by exact Hne. eauto.
      * intros l Hl. eauto.
      * intros l Hl. discriminate.
      * intros l [Hl _]. discriminate.
      * rewrite map_size_insert_None by exact Hx. lia.
  - destruct (items s !! x) as [ix|] eqn:Hx; [|left; reflexivity].
    destruct (items s !! o) as [io|] eqn:Ho; [right|left; reflexivity].
    unfold assign. destruct (decide (L ix ≠ L io)) as [Hne|Heq].
    + exists (<[x := mkItem (L io)]> (items s)), (L ix), (L io). split.
      * unfold transfer. destruct (acquire (L io) (mem s)) as [m1|]; [|reflexivity].
        rewrite !Some_bind. destruct (release (L ix) m1); reflexivity.
      * split; [|split; [|split; [|split; [|split]]]].
        -- intros l. rewrite (references_update _ _ _ _ _ Hx). reflexivity.
        -- intros y it l Hy Hit. destruct (decide (x = y)) as [<-|Hxy].
           ++ rewrite lookup_insert_eq in Hy. injection Hy as <-. simpl in Hit. eauto.
           ++ rewrite lookup_insert_ne in Hy by exact Hxy. eauto.
        -- intros l Hl. eauto.
        -- intros l Hl. eauto.
        -- intros l [H1 H2]. apply Hne. congruence.
        -- rewrite map_size_insert_Some by eauto. lia.
    + exists (<[x := ix]> (items s)), None, None. split; [reflexivity|].
      split; [|split; [|split; [|split; [|split]]]].
      * intros l. rewrite (references_update _ _ _ _ _ Hx). rewrite !points_None. lia.
      * intros y it l Hy Hit. rewrite insert_id in Hy by exact Hx. eauto.
      * intros l Hl. discriminate.
      * intros l Hl. discriminate.
      * intros l [Hl _]. discriminate.
      * rewrite insert_id by exact Hx. lia.
  - destruct (items s !! x) as [ix|] eqn:Hx; [right|left; reflexivity].
    exists (<[x := mkItem None]> (items s)), (L ix), None. split.
    + rewrite transfer_None_r. unfold Clear.
      destruct (release (L ix) (mem s)); reflexivity.
    + split; [|split; [|split; [|split; [|split]]]].
      * intros l. rewrite (references_update _ _ _ _ _ Hx). reflexivity.
      * intros y it l Hy Hit. destruct (decide (x = y)) as [<-|Hxy].
        -- rewrite lookup_insert_eq in Hy. injection Hy as <-. discriminate.
        -- rewrite lookup_insert_ne in Hy by exact Hxy. eauto.
      * intros l Hl. discriminate.
      * intros l Hl. eauto.
      * intros l [_ Hl]. discriminate.
      * rewrite map_size_insert_Some by eauto. lia.
  - destruct (items s !! x) as [ix|] eqn:Hx; [right|left; reflexivity].
    exists (delete x (items s)), (L ix), None. split.
    + rewrite transfer_None_r. unfold dtor, Clear.
      destruct (release (L ix) (mem s)); reflexivity.
    + split; [|split; [|split; [|split; [|split]]]].
      * intros l. rewrite (references_delete _ _ _ l Hx), points_None. lia.
      * intros y it l Hy Hit. apply lookup_delete_Some in Hy as [_ Hy]. eauto.
      * intros l Hl. discriminate.
      * intros l Hl. eauto.
      * intros l [_ Hl]. discriminate.
      * rewrite map_size_delete_Some by eauto. lia.
Qed.

(** *** Runs *)

Lemma exec_size (st : stmt) (s s' : program_state) :
  exec st s = Done s' → (size (items s') ≤ S (size (items s)))%nat.
Proof.
  intros Hexec.
  destruct (exec_moves st s) as [Hill|(its' & p_old & p_new & Heq & Hmoves)];
    [congruence|].
  rewrite Heq in Hexec. unfold of_memory_result in Hexec.
  destruct (transfer p_old p_new (mem s)); [|discriminate].
  injection Hexec as <-. apply Hmoves.
Qed.

Lemma exec_step (st : stmt) (s : program_state) :
  wf_state s →
  exec st s ≠ Fault ∧
  ∀ s', exec st s = Done s' →
        (∀ l, Z.of_nat (references l (items s')) ≤ UINT_MAX) →
        wf_state s' ∧ evolves (mem s) (mem s').
Proof.
  intros Hwf.
  destruct (exec_moves st s) as [Hill|(its' & p_old & p_new & Heq & Hmoves)].
  - rewrite Hill. split; [discriminate|]. intros s' Hdone. discriminate.
  - destruct s as [its m]. simpl in *.
    destruct (moves_wf its its' p_old p_new m Hwf Hmoves) as [[m2 Hrun] Hstep].
    rewrite Heq, Hrun. simpl. split; [discriminate|].
    intros s' Hdone Hmax. injection Hdone as <-. exact (Hstep m2 Hrun Hmax).
Qed.

Lemma run_app (p q : list stmt) (s : program_state) :
  run (p ++ q) s = match run p s with Done s' => run q s' | r => r end.
Proof.
  revert s. induction p as [|st p IH]; intros s; simpl; [reflexivity|].
  destruct (exec st s); [apply IH|reflexivity..].
Qed.

Lemma run_size (p : list stmt) (s s' : program_state) :
  run p s = Done s' → (size (items s') ≤ size (items s) + length p)%nat.
Proof.
  revert s. induction p as [|st p IH]; intros s Hrun; simpl in *.
  - injection Hrun as <-. lia.
  - destruct (exec st s) as [s1| |] eqn:Hexec; try discriminate.
    pose proof (exec_size _ _ _ Hexec). pose proof (IH s1 Hrun). lia.
Qed.

(** A program short enough stays within the range of the counter. *)
Lemma within_count_range_small (p : list stmt) (s0 : program_state) :
  Z.of_nat (size (items s0)) + Z.of_nat (length p) ≤ UINT_MAX →
  within_count_range p s0.
Proof.
  intros Hsmall k s l Hrun.
  pose proof (run_size _ _ _ Hrun) as Hsize.
  pose proof (references_le_size (items s) l).
  rewrite length_take in Hsize. lia.
Qed.

Lemma run_wf (p : list stmt) (s : program_state) :
  wf_state s → within_count_range p s →
  run p s ≠ Fault ∧
  ∀ s', run p s = Done s' → wf_state s' ∧ evolves (mem s) (mem s').
Proof.
  revert s. induction p as [|st p IH]; intros s Hwf Hrange; simpl.
  - split; [discriminate|]. intros s' Hdone. injection Hdone as <-.
    split; [exact Hwf|]. apply evolves_refl, Hwf.
  - destruct (exec_step st s Hwf) as [Hnofault Hstep].
    destruct (exec st s) as [s1| |] eqn:Hexec.
    + destruct (Hstep s1 eq_refl) as [Hwf1 Hev1].
      { intros l. apply (Hrange 1%nat s1 l). simpl. rewrite Hexec. reflexivity. }
      destruct (IH s1 Hwf1) as [Hnf Hrest].
      { intros k s2 l Hrun. apply (Hrange (S k) s2 l). simpl. rewrite Hexec. exact Hrun. }
      split; [exact Hnf|]. intros s' Hdone.
      destruct (Hrest s' Hdone) as [Hwf' Hev']. split; [exact Hwf'|].
      exact (evolves_trans _ _ _ Hev1 Hev').
    + contradiction.
    + split; [discriminate|]. intros s' Hdone. discriminate.
Qed.
End Transfer.

Lemma references_zero (its : gmap N vtkDICOMSequenceItem) (l : addr) :
  (∀ x it, its !! x = Some it → L it ≠ Some l) → references l its = 0%nat.
Proof.
  intros Hnone. unfold references. rewrite map_empty_filter_2; [apply map_size_empty|].
  intros x it Hx. simpl. exact (Hnone x it Hx).
Qed.

(** C2, as amended: take a well-formed state (every live list counted
    by the number of items that reference it) and any sequence of
    declarations, declarations by copy, assignments, [Clear] calls and
    destructions during which no list is ever referenced by more than
    UINT_MAX items.  The run never uses or deletes a deleted list.  In
    every state it reaches, each live list has a reference count equal
    to the number of items that reference it, at least 1; each item
    references a live list or none; no list and no node is in the logs
    of deletions twice; and each list of the initial state is either
    live, with its nodes, and never deleted, or deleted exactly once
    together with each of its nodes and referenced by no item. *)
Theorem reference_lifetime `{DataElement} (p : list stmt) (s0 : program_state) :
  wf_state s0 → within_count_range p s0 →
  run p s0 ≠ Fault ∧
  ∀ s, run p s0 = Done s →
    (∀ l Lst, lists (mem s) !! l = Some Lst →
       ReferenceCount Lst = Z.of_nat (references l (items s)) ∧
       1 ≤ ReferenceCount Lst) ∧
    (∀ x it l, items s !! x = Some it → L it = Some l →
       is_Some (lists (mem s) !! l)) ∧
    NoDup (deleted_lists (mem s)) ∧
    NoDup (deleted_nodes (mem s)) ∧
    ∀ l Lst0, lists (mem s0) !! l = Some Lst0 →
      (∃ Lst, lists (mem s) !! l = Some Lst ∧ nodes Lst = nodes Lst0 ∧
              l ∉ deleted_lists (mem s)) ∨
      (lists (mem s) !! l = None ∧ l ∈ deleted_lists (mem s) ∧
       references l (items s) = 0%nat ∧
       ∀ k : nat, (k < length (nodes Lst0))%nat → (l, k) ∈ deleted_nodes (mem s)).
Proof.
  intros Hwf0 Hrange. destruct (run_wf p s0 Hwf0 Hrange) as [Hnofault Hdone].
  split; [exact Hnofault|]. intros s Hrun.
  destruct (Hdone s Hrun) as [(Hc & Hlive & Hnd & _ & Hndn & _) (Hev & _)].
  split; [|split; [exact Hlive|split; [exact Hnd|split; [exact Hndn|]]]].
  - intros l Lst Hl. destruct (Hc l Lst Hl) as [Hrc Hrange']. split; [exact Hrc|lia].
  - intros l Lst0 Hl0. destruct (Hev l Lst0 Hl0) as [Hkept|(Hgone & Hin & Hnodes)].
    + left. exact Hkept.
    + right. split; [exact Hgone|]. split; [exact Hin|]. split; [|exact Hnodes].
      apply references_zero. intros x it Hx Hit.
      destruct (Hlive x it l Hx Hit) as [Lst HLst]. congruence.
Qed.

Lemma wf_one_item `{DataElement} : wf_state one_item.
Proof.
  unfold wf_state, counted, logs_ok, one_item. simpl. split; [|split].
  - intros l Lst Hl. apply lookup_singleton_Some in Hl as [<- <-].
    simpl.
    assert (Hone : references 1%positive {[ 0%N := mkItem (Some 1%positive) ]} = 1%nat)
      by (vm_compute; reflexivity).
    rewrite Hone. unfold UINT_MAX. lia.
  - intros x it l Hx Hit. apply lookup_singleton_Some in Hx as [<- <-].
    simpl in Hit. injection Hit as <-. rewrite lookup_singleton_eq. eauto.
  - split; [apply NoDup_nil_2|]. split; [intros l Hl; inversion Hl|].
    split; [apply NoDup_nil_2|]. intros l k Hl. inversion Hl.
Qed.

(** A copy, a self-assignment, a [Clear] and a destruction: the list is
    deleted by the last of them. *)
Lemma reference_lifetime_witness :
  ∃ s, @run sample_DataElement [s_copy 1 0; s_assign 1 1; s_Clear 0; s_dtor 1] one_item
       = Done s ∧
       lists (mem s) !! 1%positive = None ∧
       deleted_lists (mem s) = [1%positive] ∧
       references 1%positive (items s) = 0%nat.
Proof.
  destruct (@reference_lifetime sample_DataElement
              [s_copy 1 0; s_assign 1 1; s_Clear 0; s_dtor 1] one_item wf_one_item)
    as [_ Hdone].
  { apply within_count_range_small. vm_compute. discriminate. }
  eexists. split; [reflexivity|].
  destruct (Hdone _ eq_refl) as (_ & _ & _ & _ & Hlists).
  destruct (Hlists 1%positive List_ctor eq_refl)
    as [(Lst & Hl & _)|(Hgone & _ & Href & _)]; [discriminate|].
  split; [exact Hgone|]. split; [reflexivity|exact Href].
Defined.

(** The count after [n] copies of the one item. *)
Lemma copies_run `{DataElement} (n : N) :
  ∃ its, run (copies n) one_item
         = Done (mkProg its
                   (mkMem {[ 1%positive := mkList (to_uint (1 + Z.of_N n)) 0 [] ]} [] [])) ∧
         its !! 0%N = Some (mkItem (Some 1%positive)) ∧
         ∀ k, (n < k)%N → its !! k = None.
Proof.
  induction n as [|n IH] using N.peano_ind.
  - exists {[ 0%N := mkItem (Some 1%positive) ]}.
    split; [reflexivity|]. split; [apply lookup_singleton_eq|].
    intros k Hk. apply lookup_singleton_ne. lia.
  - destruct IH as (its & Hrun & H0 & Hfree).
    exists (<[N.succ n := mkItem (Some 1%positive)]> its).
    unfold copies. rewrite N.peano_rect_succ. fold (copies n).
    rewrite run_app, Hrun. cbn [run exec items mem].
    rewrite (Hfree (N.succ n)) by lia. rewrite H0.
    unfold copy_ctor. cbn [L].
    rewrite (acquire_live 1%positive (mkList (to_uint (1 + Z.of_N n)) 0 []))
      by apply lookup_singleton_eq.
    rewrite Some_bind. cbn [of_memory_result fst snd].
    split; [|split].
    + f_equal. f_equal. unfold store_List, set_ReferenceCount. cbn.
      rewrite insert_singleton_eq. f_equal. f_equal. f_equal.
      rewrite N2Z.inj_succ. unfold to_uint.
      rewrite Z.add_mod_idemp_l by lia. f_equal. lia.
    + rewrite lookup_insert_ne by lia. exact H0.
    + intros k Hk. rewrite lookup_insert_ne by lia. apply Hfree. lia.
Qed.

(** C2, as stated, fails: from one item that alone references a list,
    UINT_MAX declarations by copy leave 2^32 items on the list with the
    reference count 0. *)
Lemma reference_lifetime_counterexample :
  @wf_state sample_DataElement one_item ∧
  ∃ s Lst, @run sample_DataElement (copies 4294967295) one_item = Done s ∧
           items s !! 0%N = Some (mkItem (Some 1%positive)) ∧
           lists (mem s) !! 1%positive = Some Lst ∧
           ReferenceCount Lst = 0.
Proof.
  split; [apply wf_one_item|].
  destruct (@copies_run sample_DataElement 4294967295) as (its & Hrun & H0 & _).
  eexists _, _. split; [exact Hrun|]. split; [exact H0|].
  split; [apply lookup_singleton_eq|reflexivity].
Qed.

End SequenceItemFacts.

(** ** More on the directory lister *)

Module FileDirectoryMore.
Import FileDirectory FileDirectoryInv FileDirectoryListing FileDirectoryFacts.

(** *** The loops as runs of [AddEntry] *)

Lemma readdir_loop_AddEntries (d_names : list string) (d : vtkDICOMFileDirectory) :
  readdir_loop d_names d = AddEntries (posix_entry <$> kept d_names) d.
Proof.
  revert d. induction d_names as [|x rest IH]; intros d; [reflexivity|].
  unfold kept in *. rewrite filter_cons. simpl.
  destruct (decide (x ≠ "." ∧ x ≠ "..")) as [[H1 H2]|Hdot].
  - rewrite !bool_decide_eq_true_2 by assumption. simpl.
    destruct (AddEntry x 0 0 d) as [d1|]; simpl; [apply IH|reflexivity].
  - assert (bool_decide (x ≠ ".") && bool_decide (x ≠ "..") = false) as ->.
    { apply andb_false_iff.
      destruct (decide (x ≠ ".")); [right|left]; apply bool_decide_eq_false_2; tauto. }
    simpl. apply IH.
Qed.

Lemma find_loop_AddEntries `{Header} (rest : list WIN32_FIND_DATAW)
    (d : vtkDICOMFileDirectory) :
  find_loop rest d = AddEntries (win32_entry <$> rest) d.
Proof.
  revert d. induction rest as [|fd rest IH]; intros d; [reflexivity|].
  simpl. change (find_body fd d)
    with (AddEntry (Entry.Name (win32_entry fd)) (Entry.Flags (win32_entry fd))
            (Entry.Mask (win32_entry fd)) d).
  destruct (AddEntry _ _ _ d) as [d1|]; simpl; [apply IH|reflexivity].
Qed.

(** A run of [AddEntry] that returns started below the limit and added
    one entry per call. *)
Lemma AddEntries_Some (P : Entry.t → Prop) (es : list Entry.t)
    (d0 d : vtkDICOMFileDirectory) :
  wf_dir P d0 → Forall P es → AddEntries es d0 = Some d →
  wf_dir P d ∧ NumberOfFiles d = NumberOfFiles d0 + Z.of_nat (length es) ∧
  Name d = Name d0 ∧ Error d = Error d0 ∧ ErrorSets d = ErrorSets d0.
Proof.
  revert d0. induction es as [|e es IH]; intros d0 Hwf HP Hrun; simpl in Hrun.
  - injection Hrun as <-. simpl. split; [exact Hwf|]. split; [lia|auto].
  - apply Forall_cons in HP as [He HP]. destruct e as [nm fl mk]. simpl in Hrun.
    destruct (AddEntry nm fl mk d0) as [d1|] eqn:Hadd; [|discriminate]. simpl in Hrun.
    pose proof (AddEntry_Some_lt _ _ _ _ _ _ Hwf Hadd) as Hlt.
    destruct (AddEntry_spec P nm fl mk d0 Hwf Hlt He)
      as (d1' & Hadd' & Hwf1 & Hn1 & Hname & Herr & Hsets & _).
    rewrite Hadd in Hadd'. injection Hadd' as <-.
    destruct (IH d1 Hwf1 HP Hrun) as (Hwf' & Hn & Hname' & Herr' & Hsets').
    split; [exact Hwf'|]. simpl. repeat split; [lia|congruence..].
Qed.

Lemma Forall_True_entries (es : list Entry.t) : Forall (λ _, True) es.
Proof. apply Forall_forall. auto. Qed.

Lemma GetFile_outside (d : vtkDICOMFileDirectory) (i : Z) :
  i < 0 ∨ NumberOfFiles d ≤ i → GetFile i d = Some None.
Proof.
  intros Hi. unfold GetFile.
  destruct (Z.ltb_spec i 0); [reflexivity|].
  destruct (Z.leb_spec (NumberOfFiles d) i); [reflexivity|lia].
Qed.

(** The names of a table that holds the entries [es]. *)
Lemma listed_GetFile (es : list Entry.t) (d : vtkDICOMFileDirectory) (i : nat) :
  listed es d → GetFile (Z.of_nat i) d = Some (Entry.Name <$> es !! i).
Proof.
  intros [Hcount Hents]. destruct (es !! i) as [e|] eqn:He; simpl.
  - apply lookup_lt_Some in He as Hlt.
    apply (GetFile_entry d (Z.of_nat i) e); [lia|]. apply Hents, He.
  - apply lookup_ge_None in He. apply GetFile_outside. lia.
Qed.

(** A run of [AddEntry] on a fresh object returns exactly when it makes
    at most 2^30 calls, and then the table holds the entries. *)
Lemma AddEntries_init (dirname : string) (es : list Entry.t) :
  (is_Some (AddEntries es (init dirname)) ↔ Z.of_nat (length es) ≤ max_entries) ∧
  ∀ d, AddEntries es (init dirname) = Some d →
       listed es d ∧ Name d = dirname ∧ Error d = 0 ∧ ErrorSets d = 0%nat.
Proof.
  assert (Hfw : Z.of_nat (length es) ≤ max_entries →
                ∃ d, AddEntries es (init dirname) = Some d ∧ listed es d).
  { intros Hlen.
    destruct (AddEntries_spec es [] (init dirname) (wf_dir_init _ _) (listed_init _))
      as (d & Hrun & _ & Hl); [exact Hlen|]. eauto. }
  assert (Hbw : ∀ d, AddEntries es (init dirname) = Some d →
                Z.of_nat (length es) ≤ max_entries ∧
                Name d = dirname ∧ Error d = 0 ∧ ErrorSets d = 0%nat).
  { intros d Hrun.
    destruct (AddEntries_Some (λ _, True) es (init dirname) d (wf_dir_init _ _)
                (Forall_True_entries es) Hrun) as ([Hn _] & Hcount & Hrest).
    simpl in Hcount. split; [lia|exact Hrest]. }
  split.
  - split; [intros [d Hrun]; apply (Hbw d Hrun)|].
    intros Hlen. destruct (Hfw Hlen) as (d & Hrun & _). eauto.
  - intros d Hrun. destruct (Hbw d Hrun) as (Hlen & Hrest).
    destruct (Hfw Hlen) as (d' & Hrun' & Hl). rewrite Hrun in Hrun'.
    injection Hrun' as <-. split; [exact Hl|exact Hrest].
Qed.

(** X1: on the POSIX branch, after a successful [opendir], the
    constructor returns exactly when at most 2^30 of the names [readdir]
    delivers differ from "." and ".."; the object then has no error, and
    [GetFile] enumerates those names, in the order of arrival and with
    repetitions, and is null from their number on. *)
Theorem posix_listing (dirname : string) (d_names : list string) :
  (is_Some (ctor_posix dirname (opendir_dir d_names))
   ↔ Z.of_nat (length (kept d_names)) ≤ max_entries) ∧
  ∀ d, ctor_posix dirname (opendir_dir d_names) = Some d →
       Name d = dirname ∧ Error d = Code.Good ∧
       NumberOfFiles d = Z.of_nat (length (kept d_names)) ∧
       ∀ i : nat, GetFile (Z.of_nat i) d = Some (kept d_names !! i).
Proof.
  unfold ctor_posix. rewrite readdir_loop_AddEntries.
  destruct (AddEntries_init dirname (posix_entry <$> kept d_names)) as [Hiff Hsome].
  rewrite length_fmap in Hiff. split; [exact Hiff|].
  intros d Hrun. destruct (Hsome d Hrun) as (Hl & Hname & Herr & _).
  split; [exact Hname|]. split; [exact Herr|]. split.
  - destruct Hl as [Hcount _]. rewrite length_fmap in Hcount. exact Hcount.
  - intros i. rewrite (listed_GetFile _ _ i Hl), list_lookup_fmap.
    destruct (kept d_names !! i); reflexivity.
Qed.

(** A listing with both skipped names and a repeated one. *)
Lemma posix_listing_witness :
  ∃ d, ctor_posix "dir" (opendir_dir ["."; "b"; ".."; "a"; "b"]) = Some d ∧
       NumberOfFiles d = 3 ∧ GetFile 0 d = Some (Some "b") ∧
       GetFile 1 d = Some (Some "a") ∧ GetFile 2 d = Some (Some "b") ∧
       GetFile 3 d = Some None.
Proof.
  eexists. split; [reflexivity|].
  destruct (posix_listing "dir" ["."; "b"; ".."; "a"; "b"]) as [_ Hsome].
  destruct (Hsome _ eq_refl) as (_ & _ & Hcount & Hget).
  split; [exact Hcount|].
  split; [exact (Hget 0%nat)|]. split; [exact (Hget 1%nat)|].
  split; [exact (Hget 2%nat)|exact (Hget 3%nat)].
Defined.

(** X2: on the POSIX branch the error is [Good] exactly when [opendir]
    succeeded.  When it failed, no table is allocated, every [GetFile]
    is null, and the error is [AccessDenied] for EACCES and EPERM,
    [FileNotFound] for ENOENT, [DirectoryNotFound] for ENOTDIR and [Bad]
    for every other [errno]. *)
Theorem posix_error (dirname : string) (r : opendir_result) (d : vtkDICOMFileDirectory) :
  ctor_posix dirname r = Some d →
  (Error d = Code.Good ↔ ∃ d_names, r = opendir_dir d_names) ∧
  ∀ e, r = opendir_null e →
       NumberOfFiles d = 0 ∧ Entries d = None ∧ (∀ i, GetFile i d = Some None) ∧
       Error d = (if decide (e = Sys.EACCES ∨ e = Sys.EPERM) then Code.AccessDenied
                  else if decide (e = Sys.ENOENT) then Code.FileNotFound
                  else if decide (e = Sys.ENOTDIR) then Code.DirectoryNotFound
                  else Code.Bad).
Proof.
  intros Hc. destruct r as [e|d_names].
  - simpl in Hc. injection Hc as <-. simpl.
    assert (Hcode : errno_Code e
                    = (if decide (e = Sys.EACCES ∨ e = Sys.EPERM) then Code.AccessDenied
                       else if decide (e = Sys.ENOENT) then Code.FileNotFound
                       else if decide (e = Sys.ENOTDIR) then Code.DirectoryNotFound
                       else Code.Bad)).
    { unfold errno_Code.
      destruct (Z.eqb_spec e Sys.EACCES), (Z.eqb_spec e Sys.EPERM),
        (Z.eqb_spec e Sys.ENOENT), (Z.eqb_spec e Sys.ENOTDIR); simpl;
        repeat (destruct (decide _)); try reflexivity; tauto. }
    split.
    + split; [|intros [d_names Heq]; discriminate].
      rewrite Hcode. unfold Code.Good, Code.AccessDenied, Code.FileNotFound,
        Code.DirectoryNotFound, Code.Bad.
      repeat (destruct (decide _)); discriminate.
    + intros e' He'. injection He' as <-.
      split; [reflexivity|]. split; [reflexivity|]. split; [|exact Hcode].
      intros i. apply GetFile_outside. simpl. lia.
  - split.
    + split; [eauto|]. intros _.
      unfold ctor_posix in Hc. rewrite readdir_loop_AddEntries in Hc.
      destruct (AddEntries_init dirname (posix_entry <$> kept d_names)) as [_ Hsome].
      apply (Hsome d Hc).
    + intros e He. discriminate.
Qed.

(** A directory that does not exist. *)
Lemma posix_error_witness :
  ∃ d, ctor_posix "none" (opendir_null Sys.ENOENT) = Some d ∧
       Error d = Code.FileNotFound ∧ NumberOfFiles d = 0 ∧ GetFile 0 d = Some None.
Proof.
  eexists. split; [reflexivity|].
  destruct (posix_error "none" (opendir_null Sys.ENOENT) _ eq_refl) as [_ Hfail].
  destruct (Hfail Sys.ENOENT eq_refl) as (Hcount & _ & Hget & Herr).
  split; [exact Herr|]. split; [exact Hcount|exact (Hget 0)].
Defined.

(** *** The Win32 branch *)

(** The chain of tests on [code] writes [Error] only. *)
Lemma code_Error_frame `{Header} (code : Z) (d : vtkDICOMFileDirectory) :
  Name (code_Error code d) = Name d ∧
  NumberOfFiles (code_Error code d) = NumberOfFiles d ∧
  Entries (code_Error code d) = Entries d.
Proof.
  unfold code_Error.
  repeat match goal with |- context [if ?b then _ else _] => destruct b end;
    simpl; auto.
Qed.

Lemma code_Error_GetFile `{Header} (code : Z) (d : vtkDICOMFileDirectory) (i : Z) :
  GetFile i (code_Error code d) = GetFile i d ∧
  entry_at (code_Error code d) i = entry_at d i.
Proof.
  destruct (code_Error_frame code d) as (_ & Hcount & Hents).
  unfold GetFile, entry_at. rewrite Hcount, Hents. auto.
Qed.

(** The error the chain of tests leaves in an object that had none. *)
Lemma code_Error_table `{Header} (code : Z) (d : vtkDICOMFileDirectory) :
  Error d = Code.Good →
  (Error (code_Error code d) = Code.Good ↔ code = Sys.ERROR_NO_MORE_FILES) ∧
  (Error (code_Error code d) = Code.AccessDenied ↔ code = Sys.ERROR_ACCESS_DENIED) ∧
  (Error (code_Error code d) = Code.FileNotFound
   ↔ code = Sys.ERROR_FILE_NOT_FOUND ∨ code = Sys.ERROR_PATH_NOT_FOUND) ∧
  (Error (code_Error code d) = Code.DirectoryNotFound ↔ code = Sys.ERROR_DIRECTORY) ∧
  (Error (code_Error code d) = Code.Bad
   ↔ code ≠ Sys.ERROR_NO_MORE_FILES ∧ code ≠ Sys.ERROR_ACCESS_DENIED ∧
     code ≠ Sys.ERROR_FILE_NOT_FOUND ∧ code ≠ Sys.ERROR_PATH_NOT_FOUND ∧
     code ≠ Sys.ERROR_DIRECTORY).
Proof.
  intros Hgood. unfold code_Error.
  destruct (Z.eqb_spec code Sys.ERROR_ACCESS_DENIED),
    (Z.eqb_spec code Sys.ERROR_FILE_NOT_FOUND),
    (Z.eqb_spec code Sys.ERROR_PATH_NOT_FOUND),
    (Z.eqb_spec code Sys.ERROR_DIRECTORY),
    (Z.eqb_spec code Sys.ERROR_NO_MORE_FILES);
    simpl; rewrite ?Hgood;
    unfold Code.Good, Code.Bad, Code.AccessDenied, Code.FileNotFound,
      Code.DirectoryNotFound, Sys.ERROR_ACCESS_DENIED, Sys.ERROR_FILE_NOT_FOUND,
      Sys.ERROR_PATH_NOT_FOUND, Sys.ERROR_DIRECTORY, Sys.ERROR_NO_MORE_FILES in *;
    lia.
Qed.

(** X3: on the Win32 branch, when [FindFirstFileW] gives a handle, the
    constructor returns exactly when the enumeration delivers at most
    2^30 records.  Every record is then listed, in order and under its
    own name, with the flags and the mask the loop computes from it,
    whatever [GetLastError] says after the loop; the error is [Good]
    exactly when that code is ERROR_NO_MORE_FILES. *)
Theorem win32_listing `{Header} (dirname : string) (first : WIN32_FIND_DATAW)
    (next : list WIN32_FIND_DATAW) (code : Z) :
  (is_Some (ctor_win32 dirname (find_handle first next code))
   ↔ Z.of_nat (length (first :: next)) ≤ max_entries) ∧
  ∀ d, ctor_win32 dirname (find_handle first next code) = Some d →
       Name d = dirname ∧
       NumberOfFiles d = Z.of_nat (length (first :: next)) ∧
       (∀ i : nat, GetFile (Z.of_nat i) d = Some (cFileName <$> (first :: next) !! i)) ∧
       (∀ (i : nat) fileData, (first :: next) !! i = Some fileData →
                              entry_at d (Z.of_nat i) = Some (win32_entry fileData)) ∧
       (Error d = Code.Good ↔ code = Sys.ERROR_NO_MORE_FILES).
Proof.
  unfold ctor_win32. rewrite find_loop_AddEntries.
  destruct (AddEntries_init dirname (win32_entry <$> (first :: next))) as [Hiff Hsome].
  rewrite length_fmap in Hiff. split.
  - rewrite <- Hiff. split; intros [d Hd].
    + destruct (AddEntries (win32_entry <$> first :: next) (init dirname)); [eauto|].
      discriminate.
    + rewrite Hd. simpl. eauto.
  - intros d Hc.
    destruct (AddEntries (win32_entry <$> first :: next) (init dirname)) as [d2|] eqn:Hrun;
      [|discriminate].
    simpl in Hc. injection Hc as <-.
    destruct (Hsome d2 eq_refl) as (Hl & Hname & Herr & _).
    destruct (code_Error_frame code d2) as (Hn & Hcount & _).
    split; [congruence|]. split.
    { rewrite Hcount. destruct Hl as [Hlen _]. rewrite length_fmap in Hlen. exact Hlen. }
    split; [|split].
    + intros i. rewrite (proj1 (code_Error_GetFile code d2 _)).
      rewrite (listed_GetFile _ _ i Hl), list_lookup_fmap.
      destruct ((first :: next) !! i); reflexivity.
    + intros i fileData Hi. rewrite (proj2 (code_Error_GetFile code d2 _)).
      apply Hl. rewrite list_lookup_fmap, Hi. reflexivity.
    + apply code_Error_table, Herr.
Qed.

(** An enumeration cut short by a denied access keeps what it read. *)
Lemma win32_listing_witness :
  ∃ d, @ctor_win32 sample_Header "dir"
         (find_handle (mkFindData 16 0 "sub") [mkFindData 0 0 "file"]
            Sys.ERROR_ACCESS_DENIED) = Some d ∧
       NumberOfFiles d = 2 ∧ GetFile 0 d = Some (Some "sub") ∧
       GetFile 1 d = Some (Some "file") ∧ Error d ≠ Code.Good.
Proof.
  eexists. split; [reflexivity|].
  destruct (@win32_listing sample_Header "dir" (mkFindData 16 0 "sub")
              [mkFindData 0 0 "file"] Sys.ERROR_ACCESS_DENIED) as [_ Hsome].
  destruct (Hsome _ eq_refl) as (_ & Hcount & Hget & _ & Herr).
  split; [exact Hcount|]. split; [exact (Hget 0%nat)|]. split; [exact (Hget 1%nat)|].
  intros Hgood. apply Herr in Hgood. discriminate.
Defined.

(** X4: on the Win32 branch, when there is no handle, the listing is
    empty and no table is allocated.  A failed conversion of the name
    gives [Bad].  A failed [FindFirstFileW] gives [Good] exactly for the
    codes ERROR_FILE_NOT_FOUND and ERROR_NO_MORE_FILES, [AccessDenied]
    for ERROR_ACCESS_DENIED, [FileNotFound] for ERROR_PATH_NOT_FOUND
    only, [DirectoryNotFound] for ERROR_DIRECTORY and [Bad] for every
    other code. *)
Theorem win32_no_handle `{Header} (dirname : string) :
  (∃ d, ctor_win32 dirname widename_null = Some d ∧ Error d = Code.Bad ∧
        NumberOfFiles d = 0 ∧ Entries d = None ∧ ∀ i, GetFile i d = Some None) ∧
  ∀ code0, ∃ d,
    ctor_win32 dirname (INVALID_HANDLE_VALUE code0) = Some d ∧
    NumberOfFiles d = 0 ∧ Entries d = None ∧ (∀ i, GetFile i d = Some None) ∧
    (Error d = Code.Good
     ↔ code0 = Sys.ERROR_FILE_NOT_FOUND ∨ code0 = Sys.ERROR_NO_MORE_FILES) ∧
    (Error d = Code.AccessDenied ↔ code0 = Sys.ERROR_ACCESS_DENIED) ∧
    (Error d = Code.FileNotFound ↔ code0 = Sys.ERROR_PATH_NOT_FOUND) ∧
    (Error d = Code.DirectoryNotFound ↔ code0 = Sys.ERROR_DIRECTORY) ∧
    (Error d = Code.Bad
     ↔ code0 ≠ Sys.ERROR_FILE_NOT_FOUND ∧ code0 ≠ Sys.ERROR_NO_MORE_FILES ∧
       code0 ≠ Sys.ERROR_ACCESS_DENIED ∧ code0 ≠ Sys.ERROR_PATH_NOT_FOUND ∧
       code0 ≠ Sys.ERROR_DIRECTORY).
Proof.
  split.
  - eexists. split; [reflexivity|]. simpl.
    split; [reflexivity|]. split; [reflexivity|]. split; [reflexivity|].
    intros i. apply GetFile_outside. simpl. lia.
  - intros code0. eexists. split; [reflexivity|].
    set (code := if code0 =? Sys.ERROR_FILE_NOT_FOUND then Sys.ERROR_NO_MORE_FILES
                 else code0).
    destruct (code_Error_frame code (init dirname)) as (_ & Hcount & Hents).
    split; [exact Hcount|]. split; [exact Hents|]. split.
    { intros i. apply GetFile_outside. rewrite Hcount. simpl. lia. }
    destruct (code_Error_table code (init dirname) eq_refl)
      as (Hgood & Hdenied & Hfile & Hdir & Hbad).
    rewrite Hgood, Hdenied, Hfile, Hdir, Hbad. subst code.
    clear Hcount Hents Hgood Hdenied Hfile Hdir Hbad.
    destruct (Z.eqb_spec code0 Sys.ERROR_FILE_NOT_FOUND) as [Heq|Hne];
      unfold Sys.ERROR_ACCESS_DENIED, Sys.ERROR_FILE_NOT_FOUND,
        Sys.ERROR_PATH_NOT_FOUND, Sys.ERROR_DIRECTORY, Sys.ERROR_NO_MORE_FILES in *;
      lia.
Qed.

(** The two bits of the flags the [do ... while] loop computes. *)
Lemma find_flags_bits `{Header} (a b : bool) :
  distinct_type_bits →
  Z.land (to_ushort (find_flags a b)) TypeSymlink = (if a then TypeSymlink else 0) ∧
  Z.land (to_ushort (find_flags a b)) TypeDirectory = (if b then TypeDirectory else 0).
Proof.
  intros (HS & HD & Hdisj).
  assert (Hbits : ∀ k,
    Z.testbit TypeSymlink k = (k <? 16) && Z.testbit TypeSymlink k ∧
    Z.testbit TypeDirectory k = (k <? 16) && Z.testbit TypeDirectory k ∧
    Z.testbit TypeSymlink k && Z.testbit TypeDirectory k = false ∧
    ((k <? 16) = true → (k <? 32) = true)).
  { intros k. split; [apply is_ushort_bits; unfold is_ushort; lia|].
    split; [apply is_ushort_bits; unfold is_ushort; lia|]. split.
    - rewrite <- Z.land_spec, Hdisj. apply Z.bits_0.
    - intros Hk. apply Z.ltb_lt in Hk. apply Z.ltb_lt. lia. }
  split; apply Z.bits_inj'; intros k _; destruct (Hbits k) as (H1 & H2 & H3 & H4);
    rewrite Z.land_spec, to_ushort_testbit; unfold find_flags;
    destruct a, b; rewrite ?to_uint_testbit, ?Z.lor_spec, ?to_uint_testbit, ?Z.lor_spec,
      ?Z.bits_0;
    destruct (k <? 16), (k <? 32), (Z.testbit TypeSymlink k),
      (Z.testbit TypeDirectory k); simpl in *;
    try reflexivity; try discriminate; try (specialize (H4 eq_refl); discriminate).
Qed.

Lemma nonzero_test (bit : Z) (b : bool) :
  0 < bit → negb ((if b then bit else 0) =? 0) = b.
Proof.
  intros Hbit. destruct b; simpl; [|reflexivity].
  destruct (Z.eqb_spec bit 0); [lia|reflexivity].
Qed.

(** A call on a Win32 build leaves the object and the log as they
    are. *)
Lemma do_calls_win32 `{Header} (cs : list call) (s : state) :
  wf_dir entry_ok (dir s) → do_calls false cs s = Some s.
Proof.
  intros Hwf. induction cs as [|c cs IH]; [reflexivity|]. simpl.
  assert (Hc : do_call false c s = Some s).
  { destruct c as [i|fs i|fs i]; simpl.
    - destruct (do_call_wf false (call_GetFile i) s Hwf) as (s' & Hrun & _).
      simpl in Hrun. destruct (GetFile i (dir s)); [reflexivity|discriminate].
    - destruct (win32_build_never_queries fs i s Hwf) as [[b ->] _]. reflexivity.
    - destruct (win32_build_never_queries fs i s Hwf) as [_ [b ->]]. reflexivity. }
  rewrite Hc. simpl. exact IH.
Qed.

(** X5: on the Win32 branch, when the two type bits are distinct, the
    accessors answer from the record [FindFirstFileW] or [FindNextFileW]
    delivered: [IsDirectory(i)] tells whether the i-th record has
    FILE_ATTRIBUTE_DIRECTORY, [IsSymlink(i)] whether it has
    FILE_ATTRIBUTE_REPARSE_POINT with the tag IO_REPARSE_TAG_SYMLINK;
    and no sequence of calls queries the file system or changes the
    object. *)
Theorem win32_types `{Header} (dirname : string) (first : WIN32_FIND_DATAW)
    (next : list WIN32_FIND_DATAW) (code : Z) (d : vtkDICOMFileDirectory) :
  distinct_type_bits →
  ctor_win32 dirname (find_handle first next code) = Some d →
  ∀ log,
    (∀ fs (i : nat) fileData,
       (first :: next) !! i = Some fileData →
       IsDirectory false fs (Z.of_nat i) (mkState d log)
       = Some (is_directory_record fileData, mkState d log) ∧
       IsSymlink false fs (Z.of_nat i) (mkState d log)
       = Some (is_symlink_record fileData, mkState d log)) ∧
    ∀ cs, do_calls false cs (mkState d log) = Some (mkState d log).
Proof.
  intros Hbits Hc log.
  destruct (ctor_wf dirname (win32 (find_handle first next code)) d Hc) as (Hwf & _).
  split; [|intros cs; apply do_calls_win32; exact Hwf].
  intros fs i fileData Hi.
  assert (Hin : 0 ≤ Z.of_nat i < NumberOfFiles (dir (mkState d log))).
  { apply lookup_lt_Some in Hi. simpl.
    unfold ctor_win32 in Hc. rewrite find_loop_AddEntries in Hc.
    destruct (AddEntries (win32_entry <$> first :: next) (init dirname)) as [d2|] eqn:Hrun;
      [|discriminate].
    simpl in Hc. injection Hc as <-.
    destruct (AddEntries_init dirname (win32_entry <$> (first :: next))) as [_ Hsome].
    destruct (Hsome d2 Hrun) as ([Hlen _] & _).
    rewrite (proj1 (proj2 (code_Error_frame code d2))), Hlen, length_fmap. lia. }
  assert (He : entry_at (dir (mkState d log)) (Z.of_nat i) = Some (win32_entry fileData)).
  { simpl. unfold ctor_win32 in Hc. rewrite find_loop_AddEntries in Hc.
    destruct (AddEntries (win32_entry <$> first :: next) (init dirname)) as [d2|] eqn:Hrun;
      [|discriminate].
    simpl in Hc. injection Hc as <-.
    destruct (AddEntries_init dirname (win32_entry <$> (first :: next))) as [_ Hsome].
    destruct (Hsome d2 Hrun) as ([_ Hents] & _).
    rewrite (proj2 (code_Error_GetFile code d2 _)). apply Hents.
    rewrite list_lookup_fmap, Hi. reflexivity. }
  destruct (find_flags_bits (is_symlink_record fileData) (is_directory_record fileData)
              Hbits) as [HS HD].
  destruct Hbits as (HSr & HDr & _).
  rewrite IsDirectory_type_query, IsSymlink_type_query.
  rewrite !(type_query_cached _ _ _ _ _ _ _ Hin He false) by (left; reflexivity).
  unfold win32_entry; cbn [Entry.Flags]. rewrite HS, HD.
  rewrite !nonzero_test by lia. auto.
Qed.

(** A sub-directory, a plain file and a symbolic link to a directory. *)
Lemma win32_types_witness :
  ∃ d, @ctor_win32 sample_Header "dir"
         (find_handle (mkFindData 16 0 "sub")
            [mkFindData 0 0 "file"; mkFindData 1040 Sys.IO_REPARSE_TAG_SYMLINK "link"]
            Sys.ERROR_NO_MORE_FILES) = Some d ∧
       @IsDirectory sample_Header false failing_fs 0 (mkState d [])
       = Some (true, mkState d []) ∧
       @IsDirectory sample_Header false failing_fs 1 (mkState d [])
       = Some (false, mkState d []) ∧
       @IsSymlink sample_Header false failing_fs 2 (mkState d [])
       = Some (true, mkState d []).
Proof.
  eexists. split; [reflexivity|].
  assert (Hbits : @distinct_type_bits sample_Header).
  { repeat split; reflexivity. }
  destruct (@win32_types sample_Header "dir" (mkFindData 16 0 "sub")
              [mkFindData 0 0 "file"; mkFindData 1040 Sys.IO_REPARSE_TAG_SYMLINK "link"]
              Sys.ERROR_NO_MORE_FILES _ Hbits eq_refl []) as [Htypes _].
  split; [exact (proj1 (Htypes failing_fs 0%nat _ eq_refl))|].
  split; [exact (proj1 (Htypes failing_fs 1%nat _ eq_refl))|].
  exact (proj2 (Htypes failing_fs 2%nat _ eq_refl)).
Defined.

(** *** What the accessors keep *)

Lemma land_lor_other (x b b' : Z) :
  0 ≤ b' < 65536 → Z.land b b' = 0 → Z.land (to_ushort (Z.lor x b)) b' = Z.land x b'.
Proof.
  intros Hb' Hdisj. apply Z.bits_inj'. intros k _.
  rewrite !Z.land_spec, to_ushort_testbit, Z.lor_spec.
  assert (H1 : Z.testbit b' k = (k <? 16) && Z.testbit b' k)
    by (apply is_ushort_bits; exact Hb').
  assert (H2 : Z.testbit b k && Z.testbit b' k = false)
    by (rewrite <- Z.land_spec, Hdisj; apply Z.bits_0).
  destruct (k <? 16), (Z.testbit x k), (Z.testbit b k), (Z.testbit b' k);
    simpl in *; congruence.
Qed.

Lemma later_entry_refl `{Header} (e : Entry.t) : later_entry e e.
Proof. split; [reflexivity|]. auto. Qed.

Lemma later_entry_trans `{Header} (e1 e2 e3 : Entry.t) :
  later_entry e1 e2 → later_entry e2 e3 → later_entry e1 e3.
Proof.
  intros [Hn1 Hb1] [Hn2 Hb2]. split; [congruence|].
  intros bit Hbit Hknown. destruct (Hb1 bit Hbit Hknown) as [Hm1 Hf1].
  destruct (Hb2 bit Hbit Hm1) as [Hm2 Hf2]. split; [exact Hm2|congruence].
Qed.

(** Resolving one type bit keeps what is known of the other. *)
Lemma resolved_later `{Header} (bit : Z) (is_type : Z → bool) (m : Z) (e : Entry.t) :
  distinct_type_bits → bit = TypeDirectory ∨ bit = TypeSymlink →
  Z.land (Entry.Mask e) bit = 0 → later_entry e (resolved bit is_type m e).
Proof.
  intros (HS & HD & Hdisj) Hbit Hm. split; [reflexivity|].
  intros bit' Hbit' Hknown.
  assert (Hother : 0 ≤ bit' < 65536 ∧ Z.land bit bit' = 0).
  { destruct Hbit as [->| ->], Hbit' as [->| ->]; try contradiction.
    - split; [lia|]. rewrite Z.land_comm. exact Hdisj.
    - split; [lia|exact Hdisj]. }
  destruct Hother as [Hr Hz]. unfold resolved; cbn [Entry.Mask Entry.Flags].
  rewrite (land_lor_other _ _ _ Hr Hz). split; [exact Hknown|].
  destruct (is_type m); [apply land_lor_other; assumption|reflexivity].
Qed.

Section Later.
Context `{Header}.
Variable R : Entry.t → Entry.t → Prop.
Hypothesis R_refl : ∀ e, R e e.
Hypothesis R_trans : ∀ e1 e2 e3, R e1 e2 → R e2 e3 → R e1 e3.
Hypothesis R_name : ∀ e e', R e e' → Entry.Name e' = Entry.Name e.
Hypothesis R_resolved : ∀ bit is_type m e,
  bit = TypeDirectory ∨ bit = TypeSymlink → Z.land (Entry.Mask e) bit = 0 →
  R e (resolved bit is_type m e).

Lemma later_refl (d : vtkDICOMFileDirectory) : later R d d.
Proof. unfold later. eauto 10. Qed.

Lemma later_trans (d1 d2 d3 : vtkDICOMFileDirectory) :
  later R d1 d2 → later R d2 d3 → later R d1 d3.
Proof.
  intros (Hn1 & He1 & Hc1 & Hents1) (Hn2 & He2 & Hc2 & Hents2).
  split; [congruence|]. split; [congruence|]. split; [congruence|].
  intros j e Hj Hje. destruct (Hents1 j e Hj Hje) as (e2 & Hje2 & HR1).
  destruct (Hents2 j e2 ltac:(lia) Hje2) as (e3 & Hje3 & HR2). eauto.
Qed.

(** The names [GetFile] gives stay. *)
Lemma later_GetFile (P : Entry.t → Prop) (d d' : vtkDICOMFileDirectory) (j : Z) :
  wf_dir P d → later R d d' → GetFile j d' = GetFile j d.
Proof.
  intros Hwf (_ & _ & Hcount & Hents).
  destruct (decide (0 ≤ j < NumberOfFiles d)) as [Hj|Hout].
  - destruct (wf_entry_at _ _ _ Hwf Hj) as (e & He & _).
    destruct (Hents j e Hj He) as (e' & He' & HR).
    rewrite (GetFile_entry d j e Hj He), (GetFile_entry d' j e' ltac:(lia) He').
    rewrite (R_name _ _ HR). reflexivity.
  - rewrite !GetFile_outside by lia. reflexivity.
Qed.

Lemma later_listed_query (P : Entry.t → Prop) (d d' : vtkDICOMFileDirectory)
    (qu : query) :
  wf_dir P d → later R d d' → listed_query d' qu → listed_query d qu.
Proof.
  intros Hwf Hl (j & name & Hget & Hqu).
  rewrite (later_GetFile P d d' _ Hwf Hl) in Hget.
  destruct Hl as (Hname & _). rewrite Hname in Hqu. exists j, name. auto.
Qed.

(** One call of [IsDirectory] or [IsSymlink]: what it makes of the
    object, and the one query it may add to the log. *)
Lemma type_query_later (pb : bool) (bit : Z) ask q is_type (i : Z) (s s' : state)
    (b : bool) :
  bit = TypeDirectory ∨ bit = TypeSymlink → wf_dir entry_ok (dir s) →
  type_query pb bit ask q is_type i s = Some (b, s') →
  later R (dir s) (dir s') ∧
  (queries s' = queries s ∨
   pb = true ∧
   ∃ (j : nat) (name : string),
     GetFile (Z.of_nat j) (dir s) = Some (Some name) ∧
     queries s' = queries s ++ [q (PushBack (Name (dir s)) name)]).
Proof.
  intros Hbit Hwf Hrun.
  destruct (decide (0 ≤ i < NumberOfFiles (dir s))) as [Hi|Hout].
  - destruct (wf_entry_at _ _ _ Hwf Hi) as (e & He & Hok).
    destruct (decide (pb = false ∨ Z.land (Entry.Mask e) bit ≠ 0)) as [Hc|Hq].
    { rewrite (type_query_cached _ _ _ _ _ _ _ Hi He _ Hc) in Hrun.
      injection Hrun as _ <-. split; [apply later_refl|left; reflexivity]. }
    assert (pb = true) as -> by (destruct pb; tauto).
    assert (Hm : Z.land (Entry.Mask e) bit = 0) by lia.
    assert (Hget : GetFile (Z.of_nat (Z.to_nat i)) (dir s) = Some (Some (Entry.Name e))).
    { rewrite Z2Nat.id by lia. apply GetFile_entry; assumption. }
    destruct (ask (PushBack (Name (dir s)) (Entry.Name e))) as [st_mode|] eqn:Hask.
    + destruct (store_entry_spec entry_ok (dir s) i (resolved bit is_type st_mode e)
                  Hwf Hi (resolved_ok _ _ _ _ Hok))
        as (d' & Hstore & _ & Hname & Herr & _ & Hcount & _ & Hnew & Hframe).
      rewrite (type_query_resolved _ _ _ _ _ _ _ Hi He _ _ Hm Hask Hstore Hnew) in Hrun.
      injection Hrun as _ <-. cbn [dir queries]. split; [|right; eauto].
      split; [exact Hname|]. split; [exact Herr|]. split; [exact Hcount|].
      intros j e0 Hj Hje. destruct (decide (j = i)) as [->|Hne].
      * rewrite He in Hje. injection Hje as <-. exists (resolved bit is_type st_mode e).
        split; [exact Hnew|]. apply R_resolved; assumption.
      * exists e0. rewrite (Hframe j ltac:(lia) Hne). auto.
    + rewrite (type_query_failed _ _ _ _ _ _ _ Hi He Hm Hask) in Hrun.
      injection Hrun as _ <-. cbn [dir queries]. split; [apply later_refl|right; eauto].
  - rewrite type_query_out_of_range in Hrun by lia.
    injection Hrun as _ <-. split; [apply later_refl|left; reflexivity].
Qed.

Lemma do_call_later (pb : bool) (c : call) (s s' : state) :
  wf_dir entry_ok (dir s) → do_call pb c s = Some s' →
  later R (dir s) (dir s') ∧
  (queries s' = queries s ∨
   pb = true ∧ is_type_call c = true ∧
   ∃ qu, listed_query (dir s) qu ∧ queries s' = queries s ++ [qu]).
Proof.
  intros Hwf Hrun. destruct c as [i|fs i|fs i]; simpl in Hrun.
  - destruct (GetFile i (dir s)); [|discriminate]. injection Hrun as <-.
    split; [apply later_refl|left; reflexivity].
  - rewrite IsDirectory_type_query in Hrun.
    destruct (type_query pb TypeDirectory (stat fs) q_stat Sys.S_ISDIR i s)
      as [[b s1]|] eqn:Hq; [|discriminate].
    injection Hrun as <-.
    destruct (type_query_later _ _ _ _ _ _ _ _ _ ltac:(left; reflexivity) Hwf Hq)
      as [Hl [Hsame|(Hpb & j & name & Hget & Hlog)]]; (split; [exact Hl|]);
      [left; exact Hsame|right].
    split; [exact Hpb|]. split; [reflexivity|].
    exists (q_stat (PushBack (Name (dir s)) name)). split; [|exact Hlog].
    exists j, name. auto.
  - rewrite IsSymlink_type_query in Hrun.
    destruct (type_query pb TypeSymlink (lstat fs) q_lstat Sys.S_ISLNK i s)
      as [[b s1]|] eqn:Hq; [|discriminate].
    injection Hrun as <-.
    destruct (type_query_later _ _ _ _ _ _ _ _ _ ltac:(right; reflexivity) Hwf Hq)
      as [Hl [Hsame|(Hpb & j & name & Hget & Hlog)]]; (split; [exact Hl|]);
      [left; exact Hsame|right].
    split; [exact Hpb|]. split; [reflexivity|].
    exists (q_lstat (PushBack (Name (dir s)) name)). split; [|exact Hlog].
    exists j, name. auto.
Qed.

Lemma do_calls_later (pb : bool) (cs : list call) (s s' : state) :
  wf_dir entry_ok (dir s) → do_calls pb cs s = Some s' →
  later R (dir s) (dir s') ∧
  ∃ new, queries s' = queries s ++ new ∧
         (length new ≤ length (type_calls cs))%nat ∧
         (pb = false → new = []) ∧
         Forall (listed_query (dir s)) new.
Proof.
  revert s. induction cs as [|c cs IH]; intros s Hwf Hrun; simpl in Hrun.
  - injection Hrun as <-. split; [apply later_refl|].
    exists []. rewrite app_nil_r. simpl. auto.
  - destruct (do_call pb c s) as [s1|] eqn:Hc; [|discriminate]. simpl in Hrun.
    destruct (do_call_wf pb c s Hwf) as (s1' & Hc' & Hwf1 & _).
    rewrite Hc in Hc'. injection Hc' as <-.
    destruct (do_call_later pb c s s1 Hwf Hc) as [Hl1 Hq1].
    destruct (IH s1 Hwf1 Hrun) as (Hl2 & new & Hlog & Hlen & Hwin & Hall).
    split; [exact (later_trans _ _ _ Hl1 Hl2)|].
    assert (Hall' : Forall (listed_query (dir s)) new).
    { eapply Forall_impl; [exact Hall|]. intros qu.
      apply (later_listed_query entry_ok); assumption. }
    unfold type_calls. rewrite filter_cons. fold (type_calls cs).
    destruct Hq1 as [Hsame|(Hpb & Htype & qu & Hqu & Hlog1)].
    + exists new. rewrite Hlog, Hsame. split; [reflexivity|].
      split; [destruct (decide (is_type_call c = true)); simpl; lia|]. auto.
    + exists (qu :: new). rewrite Hlog, Hlog1, <- app_assoc. split; [reflexivity|].
      split; [destruct (decide (is_type_call c = true)); [simpl; lia|contradiction]|].
      split; [intros ->; discriminate|]. constructor; assumption.
Qed.
End Later.

Lemma same_name_resolved `{Header} (bit : Z) (is_type : Z → bool) (m : Z) (e : Entry.t) :
  bit = TypeDirectory ∨ bit = TypeSymlink → Z.land (Entry.Mask e) bit = 0 →
  same_name e (resolved bit is_type m e).
Proof. intros _ _. reflexivity. Qed.

Lemma do_calls_same_name `{Header} (pb : bool) (cs : list call) (s s' : state) :
  wf_dir entry_ok (dir s) → do_calls pb cs s = Some s' →
  later same_name (dir s) (dir s') ∧
  ∃ new, queries s' = queries s ++ new ∧
         (length new ≤ length (type_calls cs))%nat ∧
         (pb = false → new = []) ∧
         Forall (listed_query (dir s)) new.
Proof.
  apply (do_calls_later same_name).
  - intros e. reflexivity.
  - intros e1 e2 e3 H1 H2. unfold same_name in *. congruence.
  - intros e e' HR. exact HR.
  - apply same_name_resolved.
Qed.

(** X6: on an object the constructor delivered, on either platform,
    every sequence of [GetFile], [IsDirectory] and [IsSymlink] calls
    returns, and it leaves the directory name, the error code, the
    number of files and the name [GetFile] gives for every index as the
    constructor left them. *)
Theorem listing_stable `{Header} (dirname : string) (en : enumeration)
    (d : vtkDICOMFileDirectory) (pb : bool) (cs : list call) (log : list query) :
  ctor dirname en = Some d →
  ∃ s', do_calls pb cs (mkState d log) = Some s' ∧
        Name (dir s') = dirname ∧ Error (dir s') = Error d ∧
        NumberOfFiles (dir s') = NumberOfFiles d ∧
        ∀ j, GetFile j (dir s') = GetFile j d.
Proof.
  intros Hc. destruct (ctor_wf dirname en d Hc) as (Hwf & Hname & _).
  destruct (do_calls_wf pb cs (mkState d log) Hwf) as (s' & Hrun & _).
  destruct (do_calls_same_name pb cs (mkState d log) s' Hwf Hrun) as [Hl _].
  exists s'. split; [exact Hrun|].
  pose proof Hl as (Hn & He & Hcount & _). cbn [dir] in *.
  split; [congruence|]. split; [exact He|]. split; [exact Hcount|].
  intros j. apply (later_GetFile same_name) with (P := entry_ok); [|exact Hwf|exact Hl].
  intros e e' HR. exact HR.
Qed.

(** Both types of both entries of a POSIX listing are resolved; the
    names stay. *)
Lemma listing_stable_witness :
  ∃ d s', ctor_posix "dir" (opendir_dir ["."; "a"; "b"]) = Some d ∧
          @do_calls sample_Header true
            [call_IsDirectory directories_fs 0; call_IsSymlink symlinks_fs 0;
             call_IsDirectory failing_fs 1; call_IsSymlink directories_fs 1]
            (mkState d []) = Some s' ∧
          NumberOfFiles (dir s') = NumberOfFiles d ∧
          GetFile 0 (dir s') = GetFile 0 d ∧ GetFile 1 (dir s') = GetFile 1 d.
Proof.
  destruct (@listing_stable sample_Header "dir" (posix (opendir_dir ["."; "a"; "b"])) _ true
              [call_IsDirectory directories_fs 0; call_IsSymlink symlinks_fs 0;
               call_IsDirectory failing_fs 1; call_IsSymlink directories_fs 1]
              [] eq_refl) as (s' & Hrun & _ & _ & Hcount & Hget).
  eexists. exists s'. split; [reflexivity|]. split; [exact Hrun|].
  split; [exact Hcount|]. split; [exact (Hget 0)|exact (Hget 1)].
Defined.

(** X7: on an object the constructor delivered, a sequence of calls
    adds at most one query to the log for each [IsDirectory] or
    [IsSymlink] call in it and none on a Win32 build; and every query it
    adds is a [stat] or an [lstat] of the directory name joined with a
    name that [GetFile] gives. *)
Theorem queries_listed `{Header} (dirname : string) (en : enumeration)
    (d : vtkDICOMFileDirectory) (pb : bool) (cs : list call) (s' : state) :
  ctor dirname en = Some d → do_calls pb cs (mkState d []) = Some s' →
  (length (queries s') ≤ length (type_calls cs))%nat ∧
  (pb = false → queries s' = []) ∧
  Forall (listed_query d) (queries s').
Proof.
  intros Hc Hrun. destruct (ctor_wf dirname en d Hc) as (Hwf & _).
  destruct (do_calls_same_name pb cs (mkState d []) s' Hwf Hrun)
    as (_ & new & Hlog & Hlen & Hwin & Hall).
  cbn [dir queries] in *. rewrite app_nil_l in Hlog. rewrite Hlog. auto.
Qed.

(** Four calls, one of them on a resolved type, one out of range. *)
Lemma queries_listed_witness :
  ∃ d s', ctor_posix "dir" (opendir_dir ["a"; "b"]) = Some d ∧
          @do_calls sample_Header true
            [call_IsDirectory directories_fs 0; call_GetFile 1;
             call_IsDirectory failing_fs 0; call_IsSymlink symlinks_fs 7]
            (mkState d []) = Some s' ∧
          (length (queries s') ≤ 3)%nat ∧
          Forall (@listed_query sample_Header d) (queries s').
Proof.
  eexists. eexists. split; [reflexivity|]. split; [reflexivity|].
  destruct (@queries_listed sample_Header "dir" (posix (opendir_dir ["a"; "b"])) _ true
              [call_IsDirectory directories_fs 0; call_GetFile 1;
               call_IsDirectory failing_fs 0; call_IsSymlink symlinks_fs 7]
              _ eq_refl eq_refl) as (Hlen & _ & Hall).
  split; [exact Hlen|exact Hall].
Defined.

(** A call that finds its type resolved finds it resolved, with the
    same flag, in every later state. *)
Lemma type_query_stable `{Header} (bit : Z) ask ask' q is_type (i : Z) (s s' : state)
    (b : bool) :
  0 < bit < 65536 → bit = TypeDirectory ∨ bit = TypeSymlink →
  wf_dir entry_ok (dir s) → later later_entry (dir s) (dir s') →
  type_query true bit ask q is_type i s = Some (b, s) →
  type_query true bit ask' q is_type i s' = Some (b, s').
Proof.
  intros Hr Hbit Hwf Hl Hrun. pose proof Hl as (_ & _ & Hcount & Hents).
  destruct (decide (0 ≤ i < NumberOfFiles (dir s))) as [Hi|Hout].
  - destruct (wf_entry_at _ _ _ Hwf Hi) as (e & He & Hok).
    destruct (Z.eq_dec (Z.land (Entry.Mask e) bit) 0) as [Hm|Hknown].
    + destruct (type_query_lazy bit ask q is_type i s e Hr Hwf Hi He Hm)
        as (b1 & s1 & Hrun1 & Hlog & _).
      rewrite Hrun in Hrun1. injection Hrun1 as _ <-.
      apply (f_equal length) in Hlog. rewrite length_app in Hlog. simpl in Hlog. lia.
    + rewrite (type_query_cached _ _ _ _ _ _ _ Hi He true) in Hrun by (right; exact Hknown).
      injection Hrun as <-.
      destruct (Hents i e Hi He) as (e' & He' & _ & Hkeep).
      destruct (Hkeep bit Hbit Hknown) as [Hknown' Hflag].
      rewrite (type_query_cached bit ask' q is_type i s' e' ltac:(lia) He' true)
        by (right; exact Hknown').
      rewrite Hflag. reflexivity.
  - rewrite type_query_out_of_range in Hrun by lia. injection Hrun as <-.
    apply type_query_out_of_range. lia.
Qed.

(** X8: when the two type bits are distinct, an answer given without a
    query stays.  If, in a state reached from a constructed object,
    [IsDirectory(i)] ([IsSymlink(i)]) returns without a query to the
    file system, then after any further sequence of calls, with any
    index and against any file system, [IsDirectory(i)]
    ([IsSymlink(i)]) returns the same answer, again without a query. *)
Theorem answers_stable `{Header} (dirname : string) (en : enumeration)
    (d : vtkDICOMFileDirectory) (pb : bool) (cs0 cs : list call) (s s' : state) (i : Z) :
  distinct_type_bits → ctor dirname en = Some d →
  do_calls pb cs0 (mkState d []) = Some s → do_calls pb cs s = Some s' →
  ∀ fs b,
    (IsDirectory pb fs i s = Some (b, s) →
     ∀ fs', IsDirectory pb fs' i s' = Some (b, s')) ∧
    (IsSymlink pb fs i s = Some (b, s) →
     ∀ fs', IsSymlink pb fs' i s' = Some (b, s')).
Proof.
  intros Hbits Hc Hrun0 Hrun fs b.
  destruct (ctor_wf dirname en d Hc) as (Hwf0 & _).
  destruct (do_calls_wf pb cs0 (mkState d []) Hwf0) as (s1 & Hrun1 & Hwf & _).
  rewrite Hrun0 in Hrun1. injection Hrun1 as <-.
  destruct pb.
  - destruct (do_calls_later later_entry later_entry_refl later_entry_trans
                ltac:(intros e e' [Hn _]; exact Hn)
                ltac:(intros; apply resolved_later; assumption)
                true cs s s' Hwf Hrun) as [Hl _].
    pose proof Hbits as (HS & HD & _).
    rewrite !IsDirectory_type_query, !IsSymlink_type_query. split; intros Hcall fs'.
    + apply (type_query_stable TypeDirectory (stat fs) (stat fs') q_stat Sys.S_ISDIR i s s' b
               HD ltac:(left; reflexivity) Hwf Hl Hcall).
    + apply (type_query_stable TypeSymlink (lstat fs) (lstat fs') q_lstat Sys.S_ISLNK i s s' b
               HS ltac:(right; reflexivity) Hwf Hl Hcall).
  - rewrite (do_calls_win32 cs s Hwf) in Hrun. injection Hrun as <-.
    rewrite !IsDirectory_type_query, !IsSymlink_type_query.
    unfold type_query. simpl. auto.
Qed.

(** A directory is found to be one; after a call of [IsSymlink] on the
    same entry and a failing [stat] on another, and with every query
    failing, it still is one. *)
Lemma answers_stable_witness :
  ∃ d s s', ctor_posix "dir" (opendir_dir ["a"; "b"]) = Some d ∧
            @do_calls sample_Header true [call_IsDirectory directories_fs 0]
              (mkState d []) = Some s ∧
            @do_calls sample_Header true
              [call_IsSymlink symlinks_fs 0; call_IsDirectory failing_fs 1] s = Some s' ∧
            @IsDirectory sample_Header true failing_fs 0 s' = Some (true, s').
Proof.
  eexists. eexists. eexists. split; [reflexivity|]. split; [reflexivity|].
  split; [reflexivity|].
  assert (Hbits : @distinct_type_bits sample_Header) by (repeat split; reflexivity).
  apply (proj1 (@answers_stable sample_Header "dir" (posix (opendir_dir ["a"; "b"])) _ true
                  [call_IsDirectory directories_fs 0]
                  [call_IsSymlink symlinks_fs 0; call_IsDirectory failing_fs 1]
                  _ _ 0 Hbits eq_refl eq_refl eq_refl directories_fs true)).
  reflexivity.
Defined.

(** *** The answers against a file system that does not change *)

Lemma faithful_bit_same (bit : Z) (is_type : Z → bool) (m : Z) (e : Entry.t) :
  0 < bit < 65536 → flags_in_mask e → Z.land (Entry.Mask e) bit = 0 →
  faithful_bit bit is_type (Some m) (resolved bit is_type m e).
Proof.
  intros Hbit Hin Hm _.
  destruct (resolved_bits bit is_type m e Hbit Hin Hm) as [_ Hflag].
  rewrite Hflag. apply nonzero_test. lia.
Qed.

Lemma faithful_bit_other (bit bit' : Z) (is_type is_type' : Z → bool) (m : Z)
    (r : option Z) (e : Entry.t) :
  0 ≤ bit' < 65536 → Z.land bit bit' = 0 →
  faithful_bit bit' is_type' r e →
  faithful_bit bit' is_type' r (resolved bit is_type m e).
Proof.
  intros Hr Hdisj Hf. unfold faithful_bit, resolved. cbn [Entry.Mask Entry.Flags].
  rewrite (land_lor_other _ _ _ Hr Hdisj). intros Hknown.
  rewrite <- (Hf Hknown).
  destruct (is_type m); [rewrite (land_lor_other _ _ _ Hr Hdisj)|]; reflexivity.
Qed.

Lemma faithful_zero `{Header} (fs : FileSystem) (dirname name : string) :
  faithful fs dirname (Entry.mk name 0 0).
Proof.
  split; [apply entry_ok_zero|].
  split; intros Hknown; simpl in Hknown; contradiction.
Qed.

Lemma faithful_resolved_directory `{Header} (fs : FileSystem) (dirname : string)
    (e : Entry.t) (m : Z) :
  distinct_type_bits → faithful fs dirname e →
  Z.land (Entry.Mask e) TypeDirectory = 0 →
  stat fs (PushBack dirname (Entry.Name e)) = Some m →
  faithful fs dirname (resolved TypeDirectory Sys.S_ISDIR m e).
Proof.
  intros (HS & HD & Hdisj) (Hok & HfD & HfS) Hm Hask.
  split; [apply resolved_ok, Hok|]. cbn [resolved Entry.Name]. split.
  - rewrite Hask. apply faithful_bit_same; [exact HD|apply Hok|exact Hm].
  - apply faithful_bit_other; [lia|rewrite Z.land_comm; exact Hdisj|exact HfS].
Qed.

Lemma faithful_resolved_symlink `{Header} (fs : FileSystem) (dirname : string)
    (e : Entry.t) (m : Z) :
  distinct_type_bits → faithful fs dirname e →
  Z.land (Entry.Mask e) TypeSymlink = 0 →
  lstat fs (PushBack dirname (Entry.Name e)) = Some m →
  faithful fs dirname (resolved TypeSymlink Sys.S_ISLNK m e).
Proof.
  intros (HS & HD & Hdisj) (Hok & HfD & HfS) Hm Hask.
  split; [apply resolved_ok, Hok|]. cbn [resolved Entry.Name]. split.
  - apply faithful_bit_other; [lia|exact Hdisj|exact HfD].
  - rewrite Hask. apply faithful_bit_same; [exact HS|apply Hok|exact Hm].
Qed.

Section Faithful.
Context `{Header}.
Variables (dirname : string) (P : Entry.t → Prop).
Variables (bit : Z) (ask : string → option Z) (q : string → query) (is_type : Z → bool).
Hypothesis Hbit : 0 < bit < 65536.
Hypothesis P_ok : ∀ e, P e → entry_ok e.
Hypothesis P_bit :
  ∀ e, P e → faithful_bit bit is_type (ask (PushBack dirname (Entry.Name e))) e.
Hypothesis P_resolved :
  ∀ e m, P e → Z.land (Entry.Mask e) bit = 0 →
         ask (PushBack dirname (Entry.Name e)) = Some m →
         P (resolved bit is_type m e).

(** A call of [IsDirectory] or [IsSymlink] on a table of faithful
    entries answers as the query would, and leaves the entries
    faithful. *)
Lemma type_query_faithful (ask0 : string → option Z) (i : Z) (s : state) :
  (∀ path, ask0 path = ask path) → wf_dir P (dir s) → Name (dir s) = dirname →
  ∃ b s', type_query true bit ask0 q is_type i s = Some (b, s') ∧
          wf_dir P (dir s') ∧ Name (dir s') = dirname ∧
          ∀ e, 0 ≤ i < NumberOfFiles (dir s) → entry_at (dir s) i = Some e →
               b = answer is_type (ask (PushBack dirname (Entry.Name e))).
Proof.
  intros Hagree Hwf Hname.
  destruct (decide (0 ≤ i < NumberOfFiles (dir s))) as [Hi|Hout].
  - destruct (wf_entry_at _ _ _ Hwf Hi) as (e & He & HPe).
    assert (Hsame : ∀ e0, entry_at (dir s) i = Some e0 → e0 = e) by (intros; congruence).
    destruct (Z.eq_dec (Z.land (Entry.Mask e) bit) 0) as [Hm|Hknown].
    + destruct (ask0 (PushBack (Name (dir s)) (Entry.Name e))) as [m|] eqn:Hask.
      * pose proof Hask as Hask'. rewrite Hagree, Hname in Hask'.
        destruct (store_entry_spec P (dir s) i (resolved bit is_type m e)
                    Hwf Hi (P_resolved e m HPe Hm Hask'))
          as (d' & Hstore & Hwf' & Hname' & _ & _ & _ & _ & Hnew & _).
        rewrite (type_query_resolved _ _ _ _ _ _ _ Hi He _ _ Hm Hask Hstore Hnew).
        eexists _, _. split; [reflexivity|]. cbn [dir].
        split; [exact Hwf'|]. split; [congruence|].
        intros e0 _ He0. rewrite (Hsame e0 He0), Hask'.
        apply (faithful_bit_same bit is_type m e Hbit); [apply P_ok, HPe|exact Hm|].
        destruct (resolved_bits bit is_type m e Hbit ltac:(apply P_ok, HPe) Hm) as [-> _].
        lia.
      * pose proof Hask as Hask'. rewrite Hagree, Hname in Hask'.
        rewrite (type_query_failed _ _ _ _ _ _ _ Hi He Hm Hask).
        eexists _, _. split; [reflexivity|]. cbn [dir].
        split; [exact Hwf|]. split; [exact Hname|].
        intros e0 _ He0. rewrite (Hsame e0 He0), Hask'.
        rewrite (unresolved_flag_clear bit e); [reflexivity|apply P_ok, HPe|exact Hm].
    + rewrite (type_query_cached _ _ _ _ _ _ _ Hi He true) by (right; exact Hknown).
      eexists _, _. split; [reflexivity|]. split; [exact Hwf|]. split; [exact Hname|].
      intros e0 _ He0. rewrite (Hsame e0 He0). apply (P_bit e HPe Hknown).
  - rewrite type_query_out_of_range by lia.
    eexists _, _. split; [reflexivity|]. split; [exact Hwf|]. split; [exact Hname|].
    intros e0 Hi. lia.
Qed.
End Faithful.

Lemma wf_dir_impl (P Q : Entry.t → Prop) (d : vtkDICOMFileDirectory) :
  (∀ e, P e → Q e) → wf_dir P d → wf_dir Q d.
Proof.
  intros HPQ [Hn Hd]. split; [exact Hn|].
  destruct (Entries d) as [arr|]; [|exact Hd].
  destruct Hd as (Hcnt & Hpow & Hhalf & Hent).
  split; [exact Hcnt|]. split; [exact Hpow|]. split; [exact Hhalf|].
  intros i Hi. destruct (Hent i Hi) as (e & He & HP). eauto.
Qed.

Lemma type_query_faithful_directory `{Header} (fs fs' : FileSystem) (dirname : string)
    (i : Z) (s : state) :
  distinct_type_bits → agrees fs fs' →
  wf_dir (faithful fs dirname) (dir s) → Name (dir s) = dirname →
  ∃ b s', IsDirectory true fs' i s = Some (b, s') ∧
          wf_dir (faithful fs dirname) (dir s') ∧ Name (dir s') = dirname ∧
          ∀ e, 0 ≤ i < NumberOfFiles (dir s) → entry_at (dir s) i = Some e →
               b = answer Sys.S_ISDIR (stat fs (PushBack dirname (Entry.Name e))).
Proof.
  intros Hbits Hagree Hwf Hname. rewrite IsDirectory_type_query.
  apply (type_query_faithful dirname (faithful fs dirname)); try assumption.
  - apply Hbits.
  - intros e He. apply He.
  - intros e He. apply He.
  - intros e m He Hm Hask. apply faithful_resolved_directory; assumption.
  - intros path. apply Hagree.
Qed.

Lemma type_query_faithful_symlink `{Header} (fs fs' : FileSystem) (dirname : string)
    (i : Z) (s : state) :
  distinct_type_bits → agrees fs fs' →
  wf_dir (faithful fs dirname) (dir s) → Name (dir s) = dirname →
  ∃ b s', IsSymlink true fs' i s = Some (b, s') ∧
          wf_dir (faithful fs dirname) (dir s') ∧ Name (dir s') = dirname ∧
          ∀ e, 0 ≤ i < NumberOfFiles (dir s) → entry_at (dir s) i = Some e →
               b = answer Sys.S_ISLNK (lstat fs (PushBack dirname (Entry.Name e))).
Proof.
  intros Hbits Hagree Hwf Hname. rewrite IsSymlink_type_query.
  apply (type_query_faithful dirname (faithful fs dirname)); try assumption.
  - apply Hbits.
  - intros e He. apply He.
  - intros e He. apply He.
  - intros e m He Hm Hask. apply faithful_resolved_symlink; assumption.
  - intros path. apply Hagree.
Qed.

Lemma do_calls_faithful `{Header} (fs : FileSystem) (dirname : string)
    (cs : list call) (s : state) :
  distinct_type_bits → Forall (call_on fs) cs →
  wf_dir (faithful fs dirname) (dir s) → Name (dir s) = dirname →
  ∃ s', do_calls true cs s = Some s' ∧
        wf_dir (faithful fs dirname) (dir s') ∧ Name (dir s') = dirname.
Proof.
  intros Hbits Hcs. revert s. induction Hcs as [|c cs Hc Hcs IH]; intros s Hwf Hname.
  - exists s. auto.
  - assert (Hstep : ∃ s1, do_call true c s = Some s1 ∧
                          wf_dir (faithful fs dirname) (dir s1) ∧ Name (dir s1) = dirname).
    { destruct c as [i|fs' i|fs' i]; simpl.
      - exists s. split; [|auto].
        destruct (do_call_wf true (call_GetFile i) s) as (s1 & Hrun & _).
        { apply (wf_dir_impl (faithful fs dirname)); [|exact Hwf]. intros e He. apply He. }
        simpl in Hrun. destruct (GetFile i (dir s)); [reflexivity|discriminate].
      - destruct (type_query_faithful_directory fs fs' dirname i s Hbits Hc Hwf Hname)
          as (b & s1 & -> & Hwf1 & Hname1 & _). exists s1. auto.
      - destruct (type_query_faithful_symlink fs fs' dirname i s Hbits Hc Hwf Hname)
          as (b & s1 & -> & Hwf1 & Hname1 & _). exists s1. auto. }
    destruct Hstep as (s1 & Hrun1 & Hwf1 & Hname1). simpl. rewrite Hrun1. simpl.
    apply IH; assumption.
Qed.

Lemma agrees_refl (fs : FileSystem) : agrees fs fs.
Proof. intros path. auto. Qed.

(** X9: the answers against a file system that does not change.  On
    the POSIX branch, when the two type bits are distinct, take any
    sequence of calls, all made against the file system [fs], on a
    constructed object.  It returns, and afterwards, for the i-th
    listed name, [IsDirectory(i)] returns true exactly when [stat] of
    the directory name joined with that name succeeds and reports a
    directory, and [IsSymlink(i)] returns true exactly when [lstat] of
    that path succeeds and reports a symbolic link: whether or not the
    answers come from the flags of earlier calls. *)
Theorem posix_answers `{Header} (fs : FileSystem) (dirname : string)
    (d_names : list string) (d : vtkDICOMFileDirectory) (cs : list call)
    (i : nat) (name : string) :
  distinct_type_bits →
  ctor_posix dirname (opendir_dir d_names) = Some d →
  Forall (call_on fs) cs → kept d_names !! i = Some name →
  ∃ s s1 s2,
    do_calls true cs (mkState d []) = Some s ∧
    IsDirectory true fs (Z.of_nat i) s
    = Some (answer Sys.S_ISDIR (stat fs (PushBack dirname name)), s1) ∧
    IsSymlink true fs (Z.of_nat i) s
    = Some (answer Sys.S_ISLNK (lstat fs (PushBack dirname name)), s2).
Proof.
  intros Hbits Hc Hcs Hi. unfold ctor_posix in Hc.
  destruct (readdir_loop_wf (faithful fs dirname) d_names (init dirname) d)
    as (Hwf0 & Hname0 & _); [|apply wf_dir_init|exact Hc|].
  { intros n _ _. apply faithful_zero. }
  destruct (do_calls_faithful fs dirname cs (mkState d []) Hbits Hcs Hwf0 Hname0)
    as (s & Hrun & Hwf & Hname).
  assert (Hok0 : wf_dir entry_ok d).
  { apply (wf_dir_impl (faithful fs dirname)); [|exact Hwf0]. intros e He. apply He. }
  destruct (do_calls_same_name true cs (mkState d []) s Hok0 Hrun) as [Hl _].
  cbn [dir] in Hl.
  rewrite readdir_loop_AddEntries in Hc.
  destruct (AddEntries_init dirname (posix_entry <$> kept d_names)) as [_ Hsome].
  destruct (Hsome d Hc) as (Hlisted & _).
  assert (Hget : GetFile (Z.of_nat i) (dir s) = Some (Some name)).
  { rewrite (later_GetFile same_name ltac:(intros e e' HR; exact HR) entry_ok d (dir s) _
               Hok0 Hl).
    rewrite (listed_GetFile _ _ i Hlisted), list_lookup_fmap, Hi. reflexivity. }
  assert (Hin : 0 ≤ Z.of_nat i < NumberOfFiles (dir s)).
  { destruct Hl as (_ & _ & -> & _). destruct Hlisted as [-> _].
    rewrite length_fmap. apply lookup_lt_Some in Hi. lia. }
  destruct (wf_entry_at _ _ _ Hwf Hin) as (e & He & _).
  rewrite (GetFile_entry _ _ _ Hin He) in Hget. injection Hget as Hen.
  destruct (type_query_faithful_directory fs fs dirname (Z.of_nat i) s Hbits
              (agrees_refl fs) Hwf Hname) as (b1 & s1 & Hrun1 & _ & _ & Hb1).
  destruct (type_query_faithful_symlink fs fs dirname (Z.of_nat i) s Hbits
              (agrees_refl fs) Hwf Hname) as (b2 & s2 & Hrun2 & _ & _ & Hb2).
  exists s, s1, s2. split; [exact Hrun|].
  rewrite Hrun1, Hrun2, (Hb1 e Hin He), (Hb2 e Hin He), Hen. auto.
Qed.

(** In a file system where every path is a symbolic link, after calls
    on both entries, the entry 1 is a symbolic link and no directory:
    [S_ISDIR] of the mode [stat] gives is false. *)
Lemma posix_answers_witness :
  ∃ d s s1 s2,
    ctor_posix "dir" (opendir_dir [".."; "a"; "b"]) = Some d ∧
    @do_calls sample_Header true
      [call_IsSymlink symlinks_fs 1; call_IsDirectory symlinks_fs 0; call_GetFile 1]
      (mkState d []) = Some s ∧
    @IsDirectory sample_Header true symlinks_fs 1 s = Some (false, s1) ∧
    @IsSymlink sample_Header true symlinks_fs 1 s = Some (true, s2).
Proof.
  assert (Hbits : @distinct_type_bits sample_Header) by (repeat split; reflexivity).
  assert (Hcs : Forall (@call_on sample_Header symlinks_fs)
                  [call_IsSymlink symlinks_fs 1; call_IsDirectory symlinks_fs 0;
                   call_GetFile 1]).
  { repeat constructor; intros path; auto. }
  destruct (@posix_answers sample_Header symlinks_fs "dir" [".."; "a"; "b"] _
              [call_IsSymlink symlinks_fs 1; call_IsDirectory symlinks_fs 0;
               call_GetFile 1] 1%nat "b" Hbits eq_refl Hcs eq_refl)
    as (s & s1 & s2 & Hrun & Hdir & Hlink).
  eexists. exists s, s1, s2. split; [reflexivity|]. split; [exact Hrun|].
  split; [exact Hdir|exact Hlink].
Defined.

(** *** How many queries are made *)

Lemma sum_seq_le (f g : nat → nat) (a n : nat) :
  (∀ j, (a ≤ j < a + n)%nat → (g j ≤ f j)%nat) →
  (sum_list_with g (seq a n) ≤ sum_list_with f (seq a n))%nat.
Proof.
  revert a. induction n as [|n IH]; intros a Hle; simpl; [lia|].
  pose proof (Hle a ltac:(lia)). pose proof (IH (S a) ltac:(intros j Hj; apply Hle; lia)).
  lia.
Qed.

Lemma sum_seq_decrease (f g : nat → nat) (a n i : nat) :
  (a ≤ i < a + n)%nat → (g i + 1 ≤ f i)%nat → (∀ j, j ≠ i → g j = f j) →
  (sum_list_with g (seq a n) + 1 ≤ sum_list_with f (seq a n))%nat.
Proof.
  revert a. induction n as [|n IH]; intros a Hi Hdec Hsame; simpl; [lia|].
  destruct (decide (i = a)) as [->|Hne].
  - pose proof (sum_seq_le f g (S a) n
                  ltac:(intros j Hj; rewrite (Hsame j) by lia; lia)).
    lia.
  - rewrite (Hsame a) by auto. pose proof (IH (S a) ltac:(lia) Hdec Hsame). lia.
Qed.

Lemma sum_seq_bound (f : nat → nat) (c a n : nat) :
  (∀ j, (f j ≤ c)%nat) → (sum_list_with f (seq a n) ≤ n * c)%nat.
Proof.
  intros Hc. revert a. induction n as [|n IH]; intros a; simpl; [lia|].
  pose proof (Hc a). pose proof (IH (S a)). lia.
Qed.

Lemma pending_bound `{Header} (d : vtkDICOMFileDirectory) :
  0 ≤ NumberOfFiles d → Z.of_nat (pending d) ≤ 2 * NumberOfFiles d.
Proof.
  intros Hn. unfold pending.
  pose proof (sum_seq_bound
                (λ j : nat, from_option open_bits 0%nat (entry_at d (Z.of_nat j)))
                2 0 (Z.to_nat (NumberOfFiles d))) as Hb.
  assert (Hall : ∀ j : nat,
            (from_option open_bits 0%nat (entry_at d (Z.of_nat j)) ≤ 2)%nat).
  { intros j. destruct (entry_at d (Z.of_nat j)) as [e|]; simpl; [|lia].
    unfold open_bits.
    destruct (Z.land (Entry.Mask e) TypeDirectory =? 0),
      (Z.land (Entry.Mask e) TypeSymlink =? 0); lia. }
  specialize (Hb Hall). lia.
Qed.

(** A successful query closes one open bit. *)
Lemma open_bits_resolved `{Header} (bit : Z) (is_type : Z → bool) (m : Z) (e : Entry.t) :
  distinct_type_bits → bit = TypeDirectory ∨ bit = TypeSymlink →
  flags_in_mask e → Z.land (Entry.Mask e) bit = 0 →
  (open_bits (resolved bit is_type m e) + 1 ≤ open_bits e)%nat.
Proof.
  intros (HS & HD & Hdisj) Hbit Hin Hm. unfold open_bits.
  destruct Hbit as [-> | ->].
  - destruct (resolved_bits TypeDirectory is_type m e HD Hin Hm) as [Hset _].
    rewrite Hset, Hm. cbn [resolved Entry.Mask].
    rewrite (land_lor_other _ TypeDirectory TypeSymlink) by (rewrite 1?Z.land_comm; lia).
    destruct (Z.eqb_spec TypeDirectory 0); [lia|].
    destruct (Z.land (Entry.Mask e) TypeSymlink =? 0); simpl; lia.
  - destruct (resolved_bits TypeSymlink is_type m e HS Hin Hm) as [Hset _].
    rewrite Hset, Hm. cbn [resolved Entry.Mask].
    rewrite (land_lor_other _ TypeSymlink TypeDirectory) by lia.
    destruct (Z.eqb_spec TypeSymlink 0); [lia|].
    destruct (Z.land (Entry.Mask e) TypeDirectory =? 0); simpl; lia.
Qed.

Lemma type_query_pending `{Header} (pb : bool) (bit : Z) ask q is_type (i : Z)
    (s s' : state) (b : bool) :
  distinct_type_bits → bit = TypeDirectory ∨ bit = TypeSymlink →
  wf_dir entry_ok (dir s) → (∀ path, is_Some (ask path)) →
  type_query pb bit ask q is_type i s = Some (b, s') →
  (length (queries s') + pending (dir s') ≤ length (queries s) + pending (dir s))%nat.
Proof.
  intros Hbits Hbit Hwf Htotal Hrun.
  destruct (decide (0 ≤ i < NumberOfFiles (dir s))) as [Hi|Hout].
  - destruct (wf_entry_at _ _ _ Hwf Hi) as (e & He & Hok).
    destruct (decide (pb = false ∨ Z.land (Entry.Mask e) bit ≠ 0)) as [Hc|Hq].
    { rewrite (type_query_cached _ _ _ _ _ _ _ Hi He _ Hc) in Hrun.
      injection Hrun as _ <-. lia. }
    assert (pb = true) as -> by (destruct pb; tauto).
    assert (Hm : Z.land (Entry.Mask e) bit = 0) by lia.
    destruct (Htotal (PushBack (Name (dir s)) (Entry.Name e))) as [m Hask].
    destruct (store_entry_spec entry_ok (dir s) i (resolved bit is_type m e)
                Hwf Hi (resolved_ok _ _ _ _ Hok))
      as (d' & Hstore & _ & _ & _ & _ & Hcount & _ & Hnew & Hframe).
    rewrite (type_query_resolved _ _ _ _ _ _ _ Hi He _ _ Hm Hask Hstore Hnew) in Hrun.
    injection Hrun as _ <-. cbn [dir queries]. rewrite length_app. simpl.
    assert (Hdec : (pending d' + 1 ≤ pending (dir s))%nat).
    { unfold pending. rewrite Hcount.
      apply (sum_seq_decrease _ _ 0 _ (Z.to_nat i)); [lia| |].
      - rewrite Z2Nat.id, Hnew, He by lia. simpl.
        apply open_bits_resolved; [exact Hbits|exact Hbit|apply Hok|exact Hm].
      - intros j Hj. rewrite (Hframe (Z.of_nat j)) by lia. reflexivity. }
    lia.
  - rewrite type_query_out_of_range in Hrun by lia. injection Hrun as _ <-. lia.
Qed.

Lemma do_calls_pending `{Header} (pb : bool) (cs : list call) (s : state) :
  distinct_type_bits → Forall call_answered cs → wf_dir entry_ok (dir s) →
  ∃ s', do_calls pb cs s = Some s' ∧
        NumberOfFiles (dir s') = NumberOfFiles (dir s) ∧
        (length (queries s') + pending (dir s')
         ≤ length (queries s) + pending (dir s))%nat.
Proof.
  intros Hbits Hcs. revert s. induction Hcs as [|c cs Hc Hcs IH]; intros s Hwf.
  - exists s. simpl. auto.
  - destruct (do_call_wf pb c s Hwf) as (s1 & Hrun1 & Hwf1 & _ & _ & _ & Hcount1 & _).
    assert (Hstep : (length (queries s1) + pending (dir s1)
                     ≤ length (queries s) + pending (dir s))%nat).
    { destruct c as [i|fs i|fs i]; simpl in Hrun1.
      - destruct (GetFile i (dir s)); [|discriminate]. injection Hrun1 as <-. lia.
      - rewrite IsDirectory_type_query in Hrun1.
        destruct (type_query pb TypeDirectory (stat fs) q_stat Sys.S_ISDIR i s)
          as [[b s2]|] eqn:Hq; [|discriminate].
        injection Hrun1 as <-.
        eapply type_query_pending;
          [exact Hbits|left; reflexivity|exact Hwf| |exact Hq].
        intros path. apply Hc.
      - rewrite IsSymlink_type_query in Hrun1.
        destruct (type_query pb TypeSymlink (lstat fs) q_lstat Sys.S_ISLNK i s)
          as [[b s2]|] eqn:Hq; [|discriminate].
        injection Hrun1 as <-.
        eapply type_query_pending;
          [exact Hbits|right; reflexivity|exact Hwf| |exact Hq].
        intros path. apply Hc. }
    destruct (IH s1 Hwf1) as (s' & Hrun & Hcount & Hle).
    exists s'. simpl. rewrite Hrun1. simpl. split; [exact Hrun|]. split; lia.
Qed.

(** X10: how many queries are made.  When the two type bits are
    distinct, any sequence of calls on a constructed object, each made
    against a file system in which every query succeeds, returns, and
    the log of queries holds at most two for each file of the listing,
    however many calls are made: a type that a query has resolved is
    not queried again. *)
Theorem query_bound `{Header} (dirname : string) (en : enumeration)
    (d : vtkDICOMFileDirectory) (pb : bool) (cs : list call) :
  distinct_type_bits → ctor dirname en = Some d → Forall call_answered cs →
  ∃ s', do_calls pb cs (mkState d []) = Some s' ∧
        Z.of_nat (length (queries s')) ≤ 2 * NumberOfFiles d.
Proof.
  intros Hbits Hc Hcs. destruct (ctor_wf dirname en d Hc) as (Hwf & _).
  destruct (do_calls_pending pb cs (mkState d []) Hbits Hcs Hwf) as (s' & Hrun & _ & Hle).
  exists s'. split; [exact Hrun|]. cbn [dir queries] in Hle. simpl in Hle.
  pose proof (pending_bound d ltac:(apply Hwf)). lia.
Qed.

(** Six calls on a listing of one file: two queries. *)
Lemma query_bound_witness :
  ∃ d s', ctor_posix "dir" (opendir_dir ["a"]) = Some d ∧
          @do_calls sample_Header true
            [call_IsDirectory directories_fs 0; call_IsDirectory symlinks_fs 0;
             call_IsSymlink symlinks_fs 0; call_IsSymlink directories_fs 0;
             call_IsDirectory directories_fs 0; call_IsSymlink symlinks_fs 0]
            (mkState d []) = Some s' ∧
          Z.of_nat (length (queries s')) ≤ 2.
Proof.
  assert (Hbits : @distinct_type_bits sample_Header) by (repeat split; reflexivity).
  assert (Hcs : Forall (@call_answered sample_Header)
                  [call_IsDirectory directories_fs 0; call_IsDirectory symlinks_fs 0;
                   call_IsSymlink symlinks_fs 0; call_IsSymlink directories_fs 0;
                   call_IsDirectory directories_fs 0; call_IsSymlink symlinks_fs 0]).
  { repeat (apply Forall_cons_2; [intros path; split; eexists; reflexivity|]).
    apply Forall_nil_2. }
  destruct (@query_bound sample_Header "dir" (posix (opendir_dir ["a"])) _ true _
              Hbits eq_refl Hcs) as (s' & Hrun & Hle).
  eexists. exists s'. split; [reflexivity|]. split; [exact Hrun|exact Hle].
Defined.

End FileDirectoryMore.

(** ** More on the sequence item *)

Module SequenceItemMore.
Import SequenceItem SequenceItemInv SequenceItemViews SequenceItemFacts.

Lemma to_uint_round_trip (c : Z) :
  0 ≤ c ≤ UINT_MAX → to_uint (to_uint (c + 1) - 1) = c.
Proof.
  intros Hc. unfold to_uint. rewrite Zminus_mod_idemp_l.
  replace (c + 1 - 1) with c by lia. apply Z.mod_small. unfold UINT_MAX in Hc. lia.
Qed.

Lemma set_ReferenceCount_back `{DataElement} (c : Z) (Lst : List) :
  set_ReferenceCount (ReferenceCount Lst) (set_ReferenceCount c Lst) = Lst.
Proof. destruct Lst. reflexivity. Qed.

Lemma store_List_back `{DataElement} (l : addr) (Lst Lst1 : List) (m : memory) :
  lists m !! l = Some Lst → store_List l Lst (store_List l Lst1 m) = m.
Proof.
  intros Hl. destruct m as [ls dl dn]. unfold store_List. simpl in *.
  rewrite insert_insert_eq, insert_id by exact Hl. reflexivity.
Qed.

(** X11: a copy of an item followed by the destruction of the copy
    leaves the heap exactly as it was, for every item whose list, if it
    has one, is live with a reference count from 1 to UINT_MAX, the
    count UINT_MAX included, where the count passes through 0 in
    between. *)
Theorem copy_destroy_round_trip `{DataElement} (o : vtkDICOMSequenceItem) (m : memory) :
  on_live_list o m →
  ∃ c m1, copy_ctor o m = Some (c, m1) ∧ L c = L o ∧ dtor c m1 = Some m.
Proof.
  intros Hlive. unfold copy_ctor, dtor, Clear. destruct (L o) as [l|] eqn:Ho.
  - destruct (Hlive l Ho) as (Lst & Hl & Hrc).
    rewrite (acquire_live _ _ _ Hl), Some_bind.
    eexists _, _. split; [reflexivity|]. split; [reflexivity|]. cbn [L].
    rewrite (release_live l (set_ReferenceCount (to_uint (ReferenceCount Lst + 1)) Lst))
      by apply lookup_insert_eq.
    cbn [ReferenceCount set_ReferenceCount].
    rewrite to_uint_round_trip by lia.
    destruct (Z.eqb_spec (ReferenceCount Lst) 0) as [|_]; [lia|].
    rewrite set_ReferenceCount_back, (store_List_back l Lst _ m Hl). reflexivity.
  - eexists _, _. split; [reflexivity|]. split; reflexivity.
Qed.

(** A list that UINT_MAX items share: the count wraps to 0 with the
    copy and back with its destruction. *)
Lemma copy_destroy_round_trip_witness :
  let m := @mkMem sample_DataElement {[ 1%positive := mkList UINT_MAX 0 [] ]} [] [] in
  ∃ c m1, copy_ctor (mkItem (Some 1%positive)) m = Some (c, m1) ∧
          ReferenceCount <$> lists m1 !! 1%positive = Some 0 ∧
          dtor c m1 = Some m.
Proof.
  intros m.
  destruct (@copy_destroy_round_trip sample_DataElement (mkItem (Some 1%positive)) m)
    as (c & m1 & Hcopy & _ & Hdtor).
  { intros l Hl. injection Hl as <-. eexists. split; [apply lookup_singleton_eq|].
    simpl. unfold UINT_MAX. lia. }
  exists c, m1. split; [exact Hcopy|]. split; [|exact Hdtor].
  vm_compute in Hcopy. injection Hcopy as _ <-. reflexivity.
Defined.

(** *** What assignment and copy show *)

Section Observe.
Context `{DataElement}.

Lemma observe_ext (z : vtkDICOMSequenceItem) (m m' : memory) :
  (∀ l, L z = Some l → payload <$> lists m' !! l = payload <$> lists m !! l) →
  observe z m' = observe z m.
Proof.
  intros Hsame. unfold observe, GetNumberOfDataElements, GetData, GetDataEnd.
  destruct (L z) as [l|]; [|reflexivity]. specialize (Hsame l eq_refl).
  destruct (lists m' !! l) as [Lst'|], (lists m !! l) as [Lst|]; simpl in *;
    try discriminate; [|reflexivity].
  injection Hsame as Hn Hnodes. rewrite Hn, Hnodes. reflexivity.
Qed.

Lemma observe_L (z z' : vtkDICOMSequenceItem) (m : memory) :
  L z = L z' → observe z m = observe z' m.
Proof.
  intros Heq. unfold observe, GetNumberOfDataElements, GetData, GetDataEnd.
  rewrite Heq. reflexivity.
Qed.

(** [++] on the count changes no payload. *)
Lemma acquire_payload (p : option addr) (m m1 : memory) (l : addr) :
  acquire p m = Some m1 → payload <$> lists m1 !! l = payload <$> lists m !! l.
Proof.
  intros Hacq. destruct p as [lp|]; [|injection Hacq as <-; reflexivity].
  unfold acquire in Hacq. destruct (lists m !! lp) as [Lst|] eqn:Hlp; [|discriminate].
  injection Hacq as <-. simpl. destruct (decide (lp = l)) as [<-|Hne].
  - rewrite lookup_insert_eq, Hlp. reflexivity.
  - rewrite lookup_insert_ne by exact Hne. reflexivity.
Qed.

(** [--] on the count of one list, and its deletion, change no other
    list. *)
Lemma release_other (p : option addr) (m m2 : memory) (l : addr) :
  release p m = Some m2 → p ≠ Some l → lists m2 !! l = lists m !! l.
Proof.
  intros Hrel Hne. destruct p as [lp|]; [|injection Hrel as <-; reflexivity].
  destruct (lists m !! lp) as [Lst|] eqn:Hlp.
  - rewrite (release_live _ _ _ Hlp) in Hrel. injection Hrel as <-.
    destruct (to_uint (ReferenceCount Lst - 1) =? 0); simpl.
    + apply lookup_delete_ne. congruence.
    + apply lookup_insert_ne. congruence.
  - unfold release in Hrel. rewrite Hlp in Hrel. discriminate.
Qed.

Lemma acquire_total (p : option addr) (m : memory) :
  (∀ l, p = Some l → is_Some (lists m !! l)) →
  ∃ m1, acquire p m = Some m1 ∧ ∀ l, is_Some (lists m !! l) → is_Some (lists m1 !! l).
Proof.
  intros Hlive. destruct p as [l|]; [|eauto].
  destruct (Hlive l eq_refl) as [Lst Hl]. rewrite (acquire_live _ _ _ Hl).
  eexists. split; [reflexivity|]. intros l' Hl'. simpl.
  destruct (decide (l = l')) as [<-|Hne].
  - rewrite lookup_insert_eq. eauto.
  - rewrite lookup_insert_ne by exact Hne. exact Hl'.
Qed.

Lemma release_total (p : option addr) (m : memory) :
  (∀ l, p = Some l → is_Some (lists m !! l)) → is_Some (release p m).
Proof.
  intros Hlive. destruct p as [l|]; [|eauto].
  destruct (Hlive l eq_refl) as [Lst Hl]. rewrite (release_live _ _ _ Hl). eauto.
Qed.
End Observe.

(** X12: an assignment [x = o], and a copy [x(o)], return whenever the
    lists of the two items are live.  Afterwards [x] has the list of
    [o], so [IsEmpty], [GetNumberOfDataElements], [GetData] and
    [GetDataEnd] give on [x] what they gave on [o] before; they give on
    [o] what they gave before; and so they do on every item that is not
    on the list [x] was on. *)
Theorem assign_view `{DataElement} (this o : vtkDICOMSequenceItem) (m : memory) :
  ((∀ l, L this = Some l ∨ L o = Some l → is_Some (lists m !! l)) →
   is_Some (assign this o m) ∧ is_Some (copy_ctor o m)) ∧
  (∀ x m', assign this o m = Some (x, m') →
     L x = L o ∧ IsEmpty x = IsEmpty o ∧
     observe x m' = observe o m ∧ observe o m' = observe o m ∧
     ∀ z, L z ≠ L this → observe z m' = observe z m) ∧
  (∀ x m', copy_ctor o m = Some (x, m') →
     L x = L o ∧ IsEmpty x = IsEmpty o ∧
     observe x m' = observe o m ∧ ∀ z, observe z m' = observe z m).
Proof.
  split; [|split].
  - intros Hlive.
    destruct (acquire_total (L o) m) as (m1 & Hacq & Hkeep); [intros l Hl; auto|].
    unfold assign, copy_ctor. rewrite Hacq, !Some_bind. split; [|eauto].
    destruct (decide (L this ≠ L o)); [|eauto].
    destruct (release_total (L this) m1) as [m2 Hrel]; [intros l Hl; auto|].
    rewrite Hrel. simpl. eauto.
  - intros x m' Hrun. unfold assign in Hrun.
    destruct (decide (L this ≠ L o)) as [Hne|Heq].
    + destruct (acquire (L o) m) as [m1|] eqn:Hacq; [|discriminate].
      rewrite Some_bind in Hrun.
      destruct (release (L this) m1) as [m2|] eqn:Hrel; [|discriminate].
      injection Hrun as <- <-. cbn [L].
      assert (Hz : ∀ z, L z ≠ L this → observe z m2 = observe z m).
      { intros z Hzne. apply observe_ext. intros l Hl.
        rewrite (release_other _ _ _ l Hrel) by congruence.
        apply (acquire_payload _ _ _ l Hacq). }
      split; [reflexivity|]. split; [reflexivity|].
      split; [|split; [|exact Hz]].
      * rewrite (observe_L (mkItem (L o)) o m2 eq_refl). apply Hz. congruence.
      * apply Hz. congruence.
    + injection Hrun as <- <-.
      assert (Hsame : L this = L o) by (destruct (decide (L this = L o)); tauto).
      split; [exact Hsame|]. split; [unfold IsEmpty; rewrite Hsame; reflexivity|].
      split; [apply observe_L, Hsame|]. auto.
  - intros x m' Hrun. unfold copy_ctor in Hrun.
    destruct (acquire (L o) m) as [m1|] eqn:Hacq; [|discriminate].
    injection Hrun as <- <-. cbn [L].
    assert (Hz : ∀ z, observe z m1 = observe z m).
    { intros z. apply observe_ext. intros l _. apply (acquire_payload _ _ _ l Hacq). }
    split; [reflexivity|]. split; [reflexivity|]. split; [|exact Hz].
    rewrite (observe_L (mkItem (L o)) o m1 eq_refl). apply Hz.
Qed.

(** The only item on a list of no node is assigned an item on a list of
    two nodes. *)
Lemma assign_view_witness :
  let m := @mkMem sample_DataElement
             {[ 1%positive := @mkList sample_DataElement 1 0 [];
                2%positive := @mkList sample_DataElement 1 2
                                [(8, "a"%string); (16, "b"%string)] ]} [] [] in
  is_Some (copy_ctor (mkItem (Some 2%positive)) m) ∧
  ∃ x m', assign (mkItem (Some 1%positive)) (mkItem (Some 2%positive)) m = Some (x, m') ∧
          GetNumberOfDataElements x m' = Some 2 ∧
          GetData x m' = Some (iter_node 2%positive 0) ∧
          GetDataEnd x m' = Some (iter_Tail 2%positive).
Proof.
  intros m.
  destruct (@assign_view sample_DataElement (mkItem (Some 1%positive))
              (mkItem (Some 2%positive)) m) as (Htotal & Hassign & _).
  split.
  - apply Htotal. intros l [Hl|Hl]; injection Hl as <-; eexists; reflexivity.
  - eexists _, _. split; [reflexivity|].
    destruct (Hassign _ _ eq_refl) as (_ & _ & Hobs & _).
    split; [exact (f_equal (λ t, t.1.1) Hobs)|].
    split; [exact (f_equal (λ t, t.1.2) Hobs)|exact (f_equal snd Hobs)].
Defined.

(** X13: how the operations agree.  A default-constructed item that is
    assigned [o] is what the copy constructor makes of [o], with the
    same heap; the assignment of a default-constructed item to [x] does
    what [x.Clear()] does; and on an item that [Clear] has left, a
    second [Clear] and the destructor change nothing. *)
Theorem assignment_laws `{DataElement} (this o : vtkDICOMSequenceItem) (m : memory) :
  assign ctor o m = copy_ctor o m ∧
  assign this ctor m = Clear this m ∧
  ∀ x m', Clear this m = Some (x, m') →
          Clear x m' = Some (x, m') ∧ dtor x m' = Some m'.
Proof.
  split; [|split].
  - unfold assign, copy_ctor, ctor. cbn [L].
    destruct (decide (None ≠ L o)) as [Hne|Heq].
    + destruct (acquire (L o) m); reflexivity.
    + assert (Ho : L o = None) by (destruct (L o); [exfalso; apply Heq|]; congruence).
      rewrite Ho. reflexivity.
  - unfold assign, Clear, ctor. cbn [L].
    destruct (decide (L this ≠ None)) as [Hne|Heq].
    + reflexivity.
    + destruct this as [[l|]]; [exfalso; apply Heq; discriminate|reflexivity].
  - intros x m' Hclear. unfold Clear in Hclear.
    destruct (release (L this) m); [|discriminate].
    injection Hclear as <- <-. split; reflexivity.
Qed.

(** The only item on a list is cleared, and cleared again. *)
Lemma assignment_laws_witness :
  let m := @mkMem sample_DataElement {[ 1%positive := mkList 1 0 [] ]} [] [] in
  ∃ x m', Clear (mkItem (Some 1%positive)) m = Some (x, m') ∧
          assign (mkItem (Some 1%positive)) ctor m = Some (x, m') ∧
          Clear x m' = Some (x, m') ∧ dtor x m' = Some m'.
Proof.
  intros m.
  destruct (@assignment_laws sample_DataElement (mkItem (Some 1%positive)) ctor m)
    as (_ & Hassign & Hagain).
  eexists _, _. split; [reflexivity|]. split; [rewrite Hassign; reflexivity|].
  apply Hagain. reflexivity.
Defined.

(** X14: [Clear] and the destructor on an item whose list is live with
    a count from 1 to UINT_MAX return and touch no other list.  If the
    count is 1, the list is deleted and the log of deletions gains the
    list, once, and each of its nodes, once and from the first to the
    last; otherwise the count goes down by one and nothing is
    deleted. *)
Theorem Clear_releases `{DataElement} (this : vtkDICOMSequenceItem) (m : memory)
    (l : addr) (Lst : List) :
  L this = Some l → lists m !! l = Some Lst → 1 ≤ ReferenceCount Lst ≤ UINT_MAX →
  ∃ m', Clear this m = Some (mkItem None, m') ∧ dtor this m = Some m' ∧
        (∀ l', l' ≠ l → lists m' !! l' = lists m !! l') ∧
        if decide (ReferenceCount Lst = 1)
        then lists m' !! l = None ∧
             deleted_lists m' = deleted_lists m ++ [l] ∧
             deleted_nodes m'
             = deleted_nodes m ++ ((λ k, (l, k)) <$> seq 0 (length (nodes Lst)))
        else lists m' !! l = Some (set_ReferenceCount (ReferenceCount Lst - 1) Lst) ∧
             deleted_lists m' = deleted_lists m ∧
             deleted_nodes m' = deleted_nodes m.
Proof.
  intros Hthis Hl Hrc. unfold dtor, Clear.
  rewrite Hthis, (release_live _ _ _ Hl), Some_bind.
  eexists. split; [reflexivity|]. split; [reflexivity|].
  destruct (decide (ReferenceCount Lst = 1)) as [Hone|Hmore].
  - rewrite Hone. change (to_uint (1 - 1) =? 0) with true. cbn [lists deleted_lists deleted_nodes].
    split; [intros l' Hne; apply lookup_delete_ne; congruence|].
    split; [apply lookup_delete_eq|]. split; [reflexivity|].
    apply List_dtor_loop_spec.
  - rewrite to_uint_id by (unfold UINT_MAX in *; lia).
    destruct (Z.eqb_spec (ReferenceCount Lst - 1) 0) as [|_]; [lia|].
    cbn [lists deleted_lists deleted_nodes store_List].
    split; [intros l' Hne; apply lookup_insert_ne; congruence|].
    split; [apply lookup_insert_eq|]. auto.
Qed.

(** The only item on a list of two nodes is cleared. *)
Lemma Clear_releases_witness :
  let m := @mkMem sample_DataElement
             {[ 3%positive := @mkList sample_DataElement 1 2
                                [(8, "a"%string); (16, "b"%string)] ]} [] [] in
  ∃ m', Clear (mkItem (Some 3%positive)) m = Some (mkItem None, m') ∧
        lists m' !! 3%positive = None ∧
        deleted_lists m' = [3%positive] ∧
        deleted_nodes m' = [(3%positive, 0%nat); (3%positive, 1%nat)].
Proof.
  intros m.
  destruct (@Clear_releases sample_DataElement (mkItem (Some 3%positive)) m 3%positive
              (@mkList sample_DataElement 1 2 [(8, "a"%string); (16, "b"%string)])
              eq_refl eq_refl) as (m' & Hclear & _ & _ & Hgone & Hlists & Hnodes).
  { simpl. unfold UINT_MAX. lia. }
  exists m'. split; [exact Hclear|]. split; [exact Hgone|].
  split; [exact Hlists|exact Hnodes].
Defined.

End SequenceItemMore.
